(** * Keon SDK: the RFC 8785 canonicalization codec

    A shallow embedding of [packages/sdk/src/canonicalize.ts] and the
    properties its specification states about it.

    JavaScript values are an inductive type, strings are sequences of
    UTF-16 code units, numbers are IEEE-754 doubles in the representation
    of [SpecFloat], byte arrays are lists of integers in [0, 255] and a
    [throw] is the [Throw] case of a completion type.

    The built-ins the source calls are of three kinds here.
    - List-like ones ([map], [join], [find], [sort], [padStart],
      [charCodeAt], the string iterator) are functions of this file.
    - [TextEncoder], [TextDecoder] and [JSON.parse] are functions of this
      file too, written after the WHATWG Encoding standard and ECMA-404 /
      ECMA-262.
    - Unicode normalization and the conversions between numbers and decimal
      text stay abstract: they are the fields of [Platform]. *)

From Stdlib Require Import String Ascii.
From Stdlib Require Import ZArith List Bool Lia.
From Stdlib Require Import Permutation Sorted.
From Stdlib Require DecimalPos.
From Stdlib Require Import Floats.SpecFloat.
Import ListNotations.

Set Warnings "-register-all".

Local Open Scope Z_scope.

(** ** Strings *)

(** A JavaScript string: a sequence of UTF-16 code units. *)
Definition jsstring := list Z.

(** An ASCII literal as a JavaScript string. *)
Definition js (s : string) : jsstring :=
  map (fun a => Z.of_nat (nat_of_ascii a)) (list_ascii_of_string s).

Definition QUOTE : Z := 34.
Definition BACKSLASH : Z := 92.

Fixpoint jsstring_eqb (a b : jsstring) : bool :=
  match a, b with
  | [], [] => true
  | x :: a', y :: b' => (x =? y) && jsstring_eqb a' b'
  | _, _ => false
  end.

(** [s.charCodeAt(i)]; every call of the source is in range. *)
Definition charCodeAt (s : jsstring) (i : nat) : Z := nth i s 0.

(** [parts.join(sep)] on an array of strings. *)
Fixpoint join (sep : jsstring) (parts : list jsstring) : jsstring :=
  match parts with
  | [] => []
  | [p] => p
  | p :: rest => p ++ sep ++ join sep rest
  end.

(** [s.padStart(n, pad)] with a one-unit pad. *)
Definition padStart (n : nat) (pad : Z) (s : jsstring) : jsstring :=
  repeat pad (n - length s) ++ s.

Definition is_high_surrogate (c : Z) : bool := (0xD800 <=? c) && (c <=? 0xDBFF).
Definition is_low_surrogate (c : Z) : bool := (0xDC00 <=? c) && (c <=? 0xDFFF).

(** The string iterator behind [for (const char of str)]: one string per
    code point, a surrogate pair staying together and an unpaired
    surrogate coming alone. *)
Fixpoint string_iterator (s : jsstring) : list jsstring :=
  match s with
  | [] => []
  | c1 :: t =>
      match t with
      | c2 :: t' =>
          if is_high_surrogate c1 && is_low_surrogate c2
          then [c1; c2] :: string_iterator t'
          else [c1] :: string_iterator t
      | [] => [[c1]]
      end
  end.

(** [n.toString(16)] for a non-negative integer below 16^4. *)
Definition hex_digit (d : Z) : Z := if d <? 10 then 48 + d else 87 + d.

Fixpoint hex_digits (fuel : nat) (n : Z) (acc : jsstring) : jsstring :=
  match fuel with
  | O => acc
  | S fuel' =>
      let acc' := hex_digit (n mod 16) :: acc in
      if n / 16 =? 0 then acc' else hex_digits fuel' (n / 16) acc'
  end.

Definition toString16 (n : Z) : jsstring := hex_digits 4 n [].

(** ** Completions *)

Inductive exn : Type :=
| Error (message : string)
| SyntaxError.

Inductive result (A : Type) : Type :=
| Ok (a : A)
| Throw (e : exn).

Arguments Ok {A} a.
Arguments Throw {A} e.

Definition bind {A B : Type} (r : result A) (k : A -> result B) : result B :=
  match r with
  | Ok a => k a
  | Throw e => Throw e
  end.

Declare Scope result_scope.
Delimit Scope result_scope with result.
Notation "x <- r ;; k" := (bind r (fun x => k))
  (at level 61, r at next level, right associativity) : result_scope.
Local Open Scope result_scope.

(** [arr.map(f)] where [f] may throw: the calls run left to right and the
    first throw ends the loop. *)
Definition mapM {A B : Type} (f : A -> result B) : list A -> result (list B) :=
  fix go (l : list A) : result (list B) :=
    match l with
    | [] => Ok []
    | x :: t => y <- f x ;; ys <- go t ;; Ok (y :: ys)
    end.

(** The two errors of the codec, as the source throws them. *)
Definition NonFiniteNumberError : exn :=
  Error "NaN and Infinity are not valid JSON numbers".

Definition UnsupportedTypeError (type : string) : exn :=
  Error (String.append "Unsupported type: " type).

(** ** Numbers *)

(** An IEEE-754 double: NaN, an infinity, a signed zero, or
    [(-1)^s * m * 2^e]. The operations below go by the value, so they do
    not depend on the mantissa being normalized. *)
Definition number := spec_float.

Definition Number_isFinite (x : number) : bool :=
  match x with
  | S754_zero _ | S754_finite _ _ _ => true
  | S754_infinity _ | S754_nan => false
  end.

(** [Object.is(x, -0)] *)
Definition Object_is_negative_zero (x : number) : bool :=
  match x with
  | S754_zero true => true
  | _ => false
  end.

(** [m * 2^e] is a whole number. *)
Definition integral (m : positive) (e : Z) : bool :=
  (0 <=? e) || (Z.pos m mod 2 ^ (- e) =? 0).

(** The whole part of [m * 2^e]. *)
Definition whole_part (m : positive) (e : Z) : Z :=
  if 0 <=? e then Z.pos m * 2 ^ e else Z.pos m / 2 ^ (- e).

Definition signed (s : bool) (z : Z) : Z := if s then - z else z.

Definition MAX_SAFE_INTEGER : Z := 2 ^ 53 - 1.

Definition Number_isInteger (x : number) : bool :=
  match x with
  | S754_zero _ => true
  | S754_finite _ m e => integral m e
  | _ => false
  end.

Definition Number_isSafeInteger (x : number) : bool :=
  match x with
  | S754_zero _ => true
  | S754_finite _ m e => integral m e && (whole_part m e <=? MAX_SAFE_INTEGER)
  | _ => false
  end.

(** [Math.trunc(x)] *)
Definition Math_trunc (x : number) : number :=
  match x with
  | S754_finite s m e =>
      if 0 <=? e then x
      else match Z.pos m / 2 ^ (- e) with
           | Z.pos q => S754_finite s q 0
           | _ => S754_zero s
           end
  | _ => x
  end.

(** [Math.abs(x)] *)
Definition Math_abs (x : number) : number :=
  match x with
  | S754_zero _ => S754_zero false
  | S754_infinity _ => S754_infinity false
  | S754_nan => S754_nan
  | S754_finite _ m e => S754_finite false m e
  end.

(** [m1 * 2^e1] against [m2 * 2^e2], both scaled to the smaller exponent. *)
Definition compare_magnitude (m1 : positive) (e1 : Z) (m2 : positive) (e2 : Z)
  : comparison :=
  let e := Z.min e1 e2 in
  Z.compare (Z.pos m1 * 2 ^ (e1 - e)) (Z.pos m2 * 2 ^ (e2 - e)).

(** [x === y] on numbers: by value, with NaN equal to nothing and the two
    zeros equal. *)
Definition strict_equal (x y : number) : bool :=
  match x, y with
  | S754_zero _, S754_zero _ => true
  | S754_infinity s1, S754_infinity s2 => Bool.eqb s1 s2
  | S754_finite s1 m1 e1, S754_finite s2 m2 e2 =>
      Bool.eqb s1 s2 &&
      match compare_magnitude m1 e1 m2 e2 with Eq => true | _ => false end
  | _, _ => false
  end.

(** [x <= n] for a number [x] and a positive whole number [n]. *)
Definition less_equal_integer (x : number) (n : Z) : bool :=
  match x with
  | S754_zero _ => true
  | S754_infinity s => s
  | S754_nan => false
  | S754_finite true _ _ => true
  | S754_finite false m e =>
      if 0 <=? e then Z.pos m * 2 ^ e <=? n
      else Z.pos m <=? n * 2 ^ (- e)
  end.

(** The digits of a whole number in base ten, with a minus sign when it is
    negative: what [toString] gives for an integer in the safe range. *)
Fixpoint uint_digits (d : Decimal.uint) : jsstring :=
  match d with
  | Decimal.Nil => []
  | Decimal.D0 d' => 48 :: uint_digits d'
  | Decimal.D1 d' => 49 :: uint_digits d'
  | Decimal.D2 d' => 50 :: uint_digits d'
  | Decimal.D3 d' => 51 :: uint_digits d'
  | Decimal.D4 d' => 52 :: uint_digits d'
  | Decimal.D5 d' => 53 :: uint_digits d'
  | Decimal.D6 d' => 54 :: uint_digits d'
  | Decimal.D7 d' => 55 :: uint_digits d'
  | Decimal.D8 d' => 56 :: uint_digits d'
  | Decimal.D9 d' => 57 :: uint_digits d'
  end.

Definition decimal_digits (z : Z) : jsstring :=
  match z with
  | Z0 => [48]
  | Z.pos p => uint_digits (Pos.to_uint p)
  | Z.neg p => 45 :: uint_digits (Pos.to_uint p)
  end.

(** ** The platform *)

(** The built-ins that stay abstract. *)
Class Platform : Type := {
  (** [str.normalize('NFC')] *)
  normalize_NFC : jsstring -> jsstring;
  (** [num.toString()] *)
  Number_toString : number -> jsstring;
  (** the value [JSON.parse] gives a number token *)
  StringToNumber : jsstring -> number
}.

(** ** Values *)

(** What a caller can pass for [value: unknown]. An object is the list of
    its own enumerable string-keyed properties in the order [Object.keys]
    gives them; an array is dense. *)
Inductive value : Type :=
| VUndefined
| VNull
| VBoolean (b : bool)
| VNumber (x : number)
| VString (s : jsstring)
| VArray (elements : list value)
| VObject (properties : list (jsstring * value))
| VFunction
| VSymbol
| VBigInt (z : Z).

(** [typeof value] *)
Definition typeof (v : value) : string :=
  match v with
  | VUndefined => "undefined"
  | VNull => "object"
  | VBoolean _ => "boolean"
  | VNumber _ => "number"
  | VString _ => "string"
  | VArray _ => "object"
  | VObject _ => "object"
  | VFunction => "function"
  | VSymbol => "symbol"
  | VBigInt _ => "bigint"
  end.

(** [Object.keys(obj)] *)
Definition Object_keys {T : Type} (obj : list (jsstring * T)) : list jsstring :=
  map fst obj.

(** [obj[key]], with [absent] for a key the object does not have. *)
Fixpoint Get {T : Type} (absent : T) (obj : list (jsstring * T)) (key : jsstring) : T :=
  match obj with
  | [] => absent
  | (k, v) :: rest => if jsstring_eqb k key then v else Get absent rest key
  end.

(** [keys.sort(compare)]: the sort of the standard is stable. *)
Fixpoint sort_insert {A : Type} (compare : A -> A -> Z) (x : A) (l : list A) : list A :=
  match l with
  | [] => [x]
  | y :: t => if compare x y <=? 0 then x :: l else y :: sort_insert compare x t
  end.

Definition Array_sort {A : Type} (compare : A -> A -> Z) (l : list A) : list A :=
  fold_right (sort_insert compare) [] l.

(** ** The codec *)

Section Codec.

Context {P : Platform}.

(** The body of the [switch] of [canonicalizeString], for one [char] of the
    iteration. *)
Definition escape_char (char : jsstring) : jsstring :=
  let code := charCodeAt char 0 in
  if jsstring_eqb char [QUOTE] then [BACKSLASH; QUOTE]
  else if jsstring_eqb char [BACKSLASH] then [BACKSLASH; BACKSLASH]
  else if jsstring_eqb char [8] then BACKSLASH :: js "b"
  else if jsstring_eqb char [12] then BACKSLASH :: js "f"
  else if jsstring_eqb char [10] then BACKSLASH :: js "n"
  else if jsstring_eqb char [13] then BACKSLASH :: js "r"
  else if jsstring_eqb char [9] then BACKSLASH :: js "t"
  else if code <? 0x20
       then BACKSLASH :: js "u" ++ padStart 4 48 (toString16 code)
       else char.

Definition canonicalizeString (str : jsstring) : jsstring :=
  let normalized := normalize_NFC str in
  let result :=
    fold_left (fun result char => result ++ escape_char char)
              (string_iterator normalized) [QUOTE] in
  result ++ [QUOTE].

Definition canonicalizeNumber (num : number) : result jsstring :=
  if negb (Number_isFinite num) then Throw NonFiniteNumberError
  else if Object_is_negative_zero num then Ok (js "0")
  else if Number_isInteger num && Number_isSafeInteger num
       then Ok (Number_toString num)
  else if strict_equal num (Math_trunc num)
          && less_equal_integer (Math_abs num) MAX_SAFE_INTEGER
       then Ok (Number_toString (Math_trunc num))
  else Ok (Number_toString num).

(** The comparator given to [keys.sort]. *)
Fixpoint first_difference (a b : jsstring) (i n : nat) : option Z :=
  match n with
  | O => None
  | S n' =>
      let aCode := charCodeAt a i in
      let bCode := charCodeAt b i in
      if negb (aCode =? bCode) then Some (aCode - bCode)
      else first_difference a b (S i) n'
  end.

Definition compareKeys (a b : jsstring) : Z :=
  let minLen := Nat.min (length a) (length b) in
  match first_difference a b 0 minLen with
  | Some d => d
  | None => Z.of_nat (length a) - Z.of_nat (length b)
  end.

(** The array [keys] of [canonicalizeObject] after the sort. *)
Definition sorted_keys {T : Type} (obj : list (jsstring * T)) : list jsstring :=
  Array_sort compareKeys (map normalize_NFC (Object_keys obj)).

(** The original key the source finds for a sorted key. *)
Definition find_original_key {T : Type} (obj : list (jsstring * T)) (key : jsstring)
  : option jsstring :=
  find (fun k => jsstring_eqb (normalize_NFC k) key) (Object_keys obj).

(** [obj[originalKey!]]: were no key found, the property read is the one
    named [undefined]. *)
Definition original_value {T : Type} (absent : T) (obj : list (jsstring * T))
  (key : jsstring) : T :=
  match find_original_key obj key with
  | Some originalKey => Get absent obj originalKey
  | None => Get absent obj (js "undefined")
  end.

(** [canonicalizeArray] and [canonicalizeObject], over the function
    [render] they call on the members. *)
Definition canonicalizeArray_with {T : Type} (render : T -> result jsstring)
  (arr : list T) : result jsstring :=
  elements <- mapM render arr ;;
  Ok (js "[" ++ join (js ",") elements ++ js "]").

Definition canonicalizeObject_with {T : Type} (render : T -> result jsstring)
  (absent : T) (obj : list (jsstring * T)) : result jsstring :=
  let keys := sorted_keys obj in
  pairs <- mapM (fun key =>
                   let value := original_value absent obj key in
                   text <- render value ;;
                   Ok (canonicalizeString key ++ js ":" ++ text)) keys ;;
  Ok (js "{" ++ join (js ",") pairs ++ js "}").

(** [canonicalizeValue]. The recursion is on the structure of the value:
    the members of an object are rendered where they stand and the sorted
    keys then pick among the rendered members, which gives what rendering
    the picked member gives ([canonicalizeValue_object] below). *)
Fixpoint canonicalizeValue (value : value) : result jsstring :=
  match value with
  | VNull => Ok (js "null")
  | VUndefined => Ok (js "null")
  | VBoolean b => Ok (if b then js "true" else js "false")
  | VNumber num => canonicalizeNumber num
  | VString str => Ok (canonicalizeString str)
  | VArray arr => canonicalizeArray_with canonicalizeValue arr
  | VObject obj =>
      canonicalizeObject_with (fun rendered => rendered) (Ok (js "null"))
        (map (fun kv => let '(k, v) := kv in (k, canonicalizeValue v)) obj)
  | VFunction | VSymbol | VBigInt _ => Throw (UnsupportedTypeError (typeof value))
  end.

Definition canonicalizeArray (arr : list value) : result jsstring :=
  canonicalizeArray_with canonicalizeValue arr.

Definition canonicalizeObject (obj : list (jsstring * value)) : result jsstring :=
  canonicalizeObject_with canonicalizeValue VUndefined obj.

Definition canonicalizeToString (value : value) : result jsstring :=
  canonicalizeValue value.

End Codec.

(** ** Bytes *)

Definition bytes := list Z.

(** The code points of a string as [TextEncoder] reads it: a surrogate pair
    is one code point and an unpaired surrogate becomes U+FFFD. *)
Definition pair_code_point (hi lo : Z) : Z :=
  0x10000 + (hi - 0xD800) * 0x400 + (lo - 0xDC00).

Definition scalar_or_replacement (c : Z) : Z :=
  if is_high_surrogate c || is_low_surrogate c then 0xFFFD else c.

Fixpoint code_points (s : jsstring) : list Z :=
  match s with
  | [] => []
  | c1 :: t =>
      match t with
      | c2 :: t' =>
          if is_high_surrogate c1 && is_low_surrogate c2
          then pair_code_point c1 c2 :: code_points t'
          else scalar_or_replacement c1 :: code_points t
      | [] => [scalar_or_replacement c1]
      end
  end.

(** The UTF-8 encoder of the Encoding standard; the shifts and masks of
    the standard are written as divisions and remainders. *)
Definition utf8_encode_code_point (cp : Z) : bytes :=
  if cp <? 0x80 then [cp]
  else if cp <? 0x800 then [0xC0 + cp / 64; 0x80 + cp mod 64]
  else if cp <? 0x10000
       then [0xE0 + cp / 4096; 0x80 + (cp / 64) mod 64; 0x80 + cp mod 64]
       else [0xF0 + cp / 262144; 0x80 + (cp / 4096) mod 64;
             0x80 + (cp / 64) mod 64; 0x80 + cp mod 64].

(** [new TextEncoder().encode(str)] *)
Definition TextEncoder_encode (str : jsstring) : bytes :=
  flat_map utf8_encode_code_point (code_points str).

(** The UTF-8 decoder of the Encoding standard, in replacement mode. The
    state is the code point read so far, the number of continuation bytes
    still needed and the bounds of the next one. *)
Inductive utf8_lead : Type :=
| Lead_single (cp : Z)
| Lead_multi (cp : Z) (needed : nat) (lower upper : Z)
| Lead_invalid.

Definition utf8_first_byte (b : Z) : utf8_lead :=
  if (0 <=? b) && (b <=? 0x7F) then Lead_single b
  else if (0xC2 <=? b) && (b <=? 0xDF) then Lead_multi (b - 0xC0) 1 0x80 0xBF
  else if (0xE0 <=? b) && (b <=? 0xEF)
       then Lead_multi (b - 0xE0) 2
                       (if b =? 0xE0 then 0xA0 else 0x80)
                       (if b =? 0xED then 0x9F else 0xBF)
  else if (0xF0 <=? b) && (b <=? 0xF4)
       then Lead_multi (b - 0xF0) 3
                       (if b =? 0xF0 then 0x90 else 0x80)
                       (if b =? 0xF4 then 0x8F else 0xBF)
  else Lead_invalid.

Fixpoint utf8_decode (bs : bytes) (cp : Z) (needed : nat) (lower upper : Z)
  : list Z :=
  match bs with
  | [] => match needed with O => [] | S _ => [0xFFFD] end
  | b :: rest =>
      let start :=
        match utf8_first_byte b with
        | Lead_single c => c :: utf8_decode rest 0 O 0x80 0xBF
        | Lead_multi c n lo up => utf8_decode rest c n lo up
        | Lead_invalid => 0xFFFD :: utf8_decode rest 0 O 0x80 0xBF
        end in
      match needed with
      | O => start
      | S n =>
          if (lower <=? b) && (b <=? upper)
          then let cp' := cp * 64 + (b - 0x80) in
               match n with
               | O => cp' :: utf8_decode rest 0 O 0x80 0xBF
               | S _ => utf8_decode rest cp' n 0x80 0xBF
               end
          else 0xFFFD :: start
      end
  end.

Definition utf16_encode_code_point (cp : Z) : jsstring :=
  if cp <? 0x10000 then [cp]
  else [0xD800 + (cp - 0x10000) / 0x400; 0xDC00 + (cp - 0x10000) mod 0x400].

(** [new TextDecoder().decode(bytes)]: UTF-8, malformed input replaced by
    U+FFFD, a byte order mark at the start dropped. *)
Definition strip_BOM (cps : list Z) : list Z :=
  match cps with
  | cp :: rest => if cp =? 0xFEFF then rest else cps
  | [] => []
  end.

Definition TextDecoder_decode (jsonBytes : bytes) : jsstring :=
  flat_map utf16_encode_code_point
           (strip_BOM (utf8_decode jsonBytes 0 O 0x80 0xBF)).

(** ** JSON.parse *)

Definition is_whitespace (c : Z) : bool :=
  (c =? 32) || (c =? 9) || (c =? 10) || (c =? 13).

Fixpoint skip_whitespace (s : jsstring) : jsstring :=
  match s with
  | c :: t => if is_whitespace c then skip_whitespace t else s
  | [] => []
  end.

Definition is_digit (c : Z) : bool := (48 <=? c) && (c <=? 57).

Definition hex_value (c : Z) : option Z :=
  if is_digit c then Some (c - 48)
  else if (97 <=? c) && (c <=? 102) then Some (c - 87)
  else if (65 <=? c) && (c <=? 70) then Some (c - 55)
  else None.

Definition hex4 (h1 h2 h3 h4 : Z) : option Z :=
  match hex_value h1, hex_value h2, hex_value h3, hex_value h4 with
  | Some a, Some b, Some c, Some d => Some (((a * 16 + b) * 16 + c) * 16 + d)
  | _, _, _, _ => None
  end.

(** The character a one-letter escape stands for. *)
Definition unescape (e : Z) : option Z :=
  if e =? QUOTE then Some QUOTE
  else if e =? BACKSLASH then Some BACKSLASH
  else if e =? 47 then Some 47
  else if e =? 98 then Some 8
  else if e =? 102 then Some 12
  else if e =? 110 then Some 10
  else if e =? 114 then Some 13
  else if e =? 116 then Some 9
  else None.

Definition prepend (c : Z) (r : option (jsstring * jsstring))
  : option (jsstring * jsstring) :=
  match r with
  | Some (s, rest) => Some (c :: s, rest)
  | None => None
  end.

(** The characters of a string token after its opening quote, up to the
    closing one. *)
Fixpoint parse_chars (s : jsstring) : option (jsstring * jsstring) :=
  match s with
  | [] => None
  | c :: t =>
      if c =? QUOTE then Some ([], t)
      else if c =? BACKSLASH then
        match t with
        | e :: t' =>
            if e =? 117 then
              match t' with
              | h1 :: h2 :: h3 :: h4 :: t'' =>
                  match hex4 h1 h2 h3 h4 with
                  | Some u => prepend u (parse_chars t'')
                  | None => None
                  end
              | _ => None
              end
            else
              match unescape e with
              | Some u => prepend u (parse_chars t')
              | None => None
              end
        | [] => None
        end
      else if c <? 0x20 then None
      else prepend c (parse_chars t)
  end.

(** The number token: [-? int frac? exp?]. *)
Fixpoint span_digits (s : jsstring) : jsstring * jsstring :=
  match s with
  | c :: t =>
      if is_digit c then let (d, r) := span_digits t in (c :: d, r)
      else ([], s)
  | [] => ([], [])
  end.

Definition lex_sign (s : jsstring) : jsstring * jsstring :=
  match s with
  | c :: t => if c =? 45 then ([c], t) else ([], s)
  | [] => ([], [])
  end.

Definition lex_int (s : jsstring) : option (jsstring * jsstring) :=
  match s with
  | c :: t =>
      if c =? 48 then Some ([c], t)
      else if is_digit c then let (d, r) := span_digits t in Some (c :: d, r)
      else None
  | [] => None
  end.

Definition lex_frac (s : jsstring) : option (jsstring * jsstring) :=
  match s with
  | c :: t =>
      if c =? 46 then
        match span_digits t with
        | ([], _) => None
        | (d, r) => Some (c :: d, r)
        end
      else Some ([], s)
  | [] => Some ([], [])
  end.

Definition lex_exp_sign (s : jsstring) : jsstring * jsstring :=
  match s with
  | c :: t => if (c =? 43) || (c =? 45) then ([c], t) else ([], s)
  | [] => ([], [])
  end.

Definition lex_exp (s : jsstring) : option (jsstring * jsstring) :=
  match s with
  | c :: t =>
      if (c =? 101) || (c =? 69) then
        let (sign, t') := lex_exp_sign t in
        match span_digits t' with
        | ([], _) => None
        | (d, r) => Some (c :: sign ++ d, r)
        end
      else Some ([], s)
  | [] => Some ([], [])
  end.

Definition lex_number (s : jsstring) : option (jsstring * jsstring) :=
  let (sign, s1) := lex_sign s in
  match lex_int s1 with
  | None => None
  | Some (i, s2) =>
      match lex_frac s2 with
      | None => None
      | Some (f, s3) =>
          match lex_exp s3 with
          | None => None
          | Some (e, s4) => Some (sign ++ i ++ f ++ e, s4)
          end
      end
  end.

(** [rest] when [s] is [c] followed by [rest]. *)
Definition expect (c : Z) (s : jsstring) : option jsstring :=
  match s with
  | c' :: r => if c' =? c then Some r else None
  | [] => None
  end.

(** [rest] when [s] starts with [word]. *)
Fixpoint strip_prefix (word s : jsstring) : option jsstring :=
  match word, s with
  | [], _ => Some s
  | w :: word', c :: s' => if w =? c then strip_prefix word' s' else None
  | _ :: _, [] => None
  end.

(** The order of the properties of an ordinary object: array indices
    first, ascending, then the other keys as they were created. *)
Definition digits_value (k : jsstring) : Z :=
  fold_left (fun acc c => acc * 10 + (c - 48)) k 0.

Definition array_index (k : jsstring) : option Z :=
  match k with
  | [] => None
  | c :: _ =>
      if forallb is_digit k
         && (negb (c =? 48) || (length k =? 1)%nat)
         && (length k <=? 10)%nat
         && (digits_value k <=? 4294967294)
      then Some (digits_value k)
      else None
  end.

Definition has_key {T : Type} (obj : list (jsstring * T)) (k : jsstring) : bool :=
  existsb (fun kv => jsstring_eqb (fst kv) k) obj.

Fixpoint set_value {T : Type} (obj : list (jsstring * T)) (k : jsstring) (v : T)
  : list (jsstring * T) :=
  match obj with
  | [] => []
  | (k', v') :: rest =>
      if jsstring_eqb k' k then (k', v) :: rest
      else (k', v') :: set_value rest k v
  end.

Fixpoint insert_index {T : Type} (obj : list (jsstring * T)) (i : Z)
  (k : jsstring) (v : T) : list (jsstring * T) :=
  match obj with
  | [] => [(k, v)]
  | (k', v') :: rest =>
      match array_index k' with
      | Some j => if j <? i then (k', v') :: insert_index rest i k v
                  else (k, v) :: obj
      | None => (k, v) :: obj
      end
  end.

(** [CreateDataProperty(obj, k, v)]: a key the object has keeps its place
    and takes the new value. *)
Definition CreateDataProperty {T : Type} (obj : list (jsstring * T))
  (k : jsstring) (v : T) : list (jsstring * T) :=
  if has_key obj k then set_value obj k v
  else match array_index k with
       | Some i => insert_index obj i k v
       | None => obj ++ [(k, v)]
       end.

Definition build_object {T : Type} (members : list (jsstring * T))
  : list (jsstring * T) :=
  fold_left (fun obj kv => CreateDataProperty obj (fst kv) (snd kv)) members [].

Section Parse.

Context {P : Platform}.

(** The recursive descent of [JSON.parse]; [fuel] bounds the number of
    nested calls. *)
Fixpoint parse_value (fuel : nat) (s : jsstring) : option (value * jsstring) :=
  match fuel with
  | O => None
  | S fuel' =>
      match skip_whitespace s with
      | [] => None
      | c :: t =>
          if c =? 123 then
            match expect 125 (skip_whitespace t) with
            | Some r => Some (VObject [], r)
            | None =>
                match parse_members fuel' t with
                | Some (members, r) => Some (VObject (build_object members), r)
                | None => None
                end
            end
          else if c =? 91 then
            match expect 93 (skip_whitespace t) with
            | Some r => Some (VArray [], r)
            | None =>
                match parse_elements fuel' t with
                | Some (elements, r) => Some (VArray elements, r)
                | None => None
                end
            end
          else if c =? QUOTE then
            match parse_chars t with
            | Some (str, r) => Some (VString str, r)
            | None => None
            end
          else if c =? 110 then
            match strip_prefix (js "ull") t with
            | Some r => Some (VNull, r)
            | None => None
            end
          else if c =? 116 then
            match strip_prefix (js "rue") t with
            | Some r => Some (VBoolean true, r)
            | None => None
            end
          else if c =? 102 then
            match strip_prefix (js "alse") t with
            | Some r => Some (VBoolean false, r)
            | None => None
            end
          else
            match lex_number (c :: t) with
            | Some (token, r) => Some (VNumber (StringToNumber token), r)
            | None => None
            end
      end
  end

with parse_elements (fuel : nat) (s : jsstring)
  : option (list value * jsstring) :=
  match fuel with
  | O => None
  | S fuel' =>
      match parse_value fuel' s with
      | None => None
      | Some (v, r) =>
          match skip_whitespace r with
          | c :: r' =>
              if c =? 44 then
                match parse_elements fuel' r' with
                | Some (vs, r'') => Some (v :: vs, r'')
                | None => None
                end
              else if c =? 93 then Some ([v], r')
              else None
          | [] => None
          end
      end
  end

with parse_members (fuel : nat) (s : jsstring)
  : option (list (jsstring * value) * jsstring) :=
  match fuel with
  | O => None
  | S fuel' =>
      match skip_whitespace s with
      | c :: t =>
          if c =? QUOTE then
            match parse_chars t with
            | None => None
            | Some (k, r) =>
                match skip_whitespace r with
                | c' :: r' =>
                    if c' =? 58 then
                      match parse_value fuel' r' with
                      | None => None
                      | Some (v, r'') =>
                          match skip_whitespace r'' with
                          | c'' :: r3 =>
                              if c'' =? 44 then
                                match parse_members fuel' r3 with
                                | Some (ms, r4) => Some ((k, v) :: ms, r4)
                                | None => None
                                end
                              else if c'' =? 125 then Some ([(k, v)], r3)
                              else None
                          | [] => None
                          end
                      end
                    else None
                | [] => None
                end
            end
          else None
      | [] => None
      end
  end.

(** [JSON.parse(str)]: one value, with nothing but white space after it. *)
Definition JSON_parse (str : jsstring) : result value :=
  match parse_value (2 * length str + 2) str with
  | Some (v, rest) =>
      match skip_whitespace rest with
      | [] => Ok v
      | _ :: _ => Throw SyntaxError
      end
  | None => Throw SyntaxError
  end.

(** ** The entry points *)

Definition canonicalize (value : value) : result bytes :=
  str <- canonicalizeToString value ;;
  Ok (TextEncoder_encode str).

Definition canonicalizeBytes (jsonBytes : bytes) : result bytes :=
  let str := TextDecoder_decode jsonBytes in
  parsed <- JSON_parse str ;;
  canonicalize parsed.

(** The loop of [validateIntegrity] over the indices [i], [i + 1], ... *)
Fixpoint same_bytes_from (a b : bytes) (i n : nat) : bool :=
  match n with
  | O => true
  | S n' =>
      if negb (nth i a 0 =? nth i b 0) then false
      else same_bytes_from a b (S i) n'
  end.

(** [validateIntegrity]: the [try] turns every throw of its body into
    [false]. *)
Definition validateIntegrity (jsonBytes : bytes) : result bool :=
  match canonicalizeBytes jsonBytes with
  | Ok canonical =>
      if negb (length jsonBytes =? length canonical)%nat then Ok false
      else Ok (same_bytes_from jsonBytes canonical 0 (length jsonBytes))
  | Throw _ => Ok false
  end.

End Parse.

(** ** A platform to run the examples on *)

Module Sample.

(** Canonical composition of U+0065 U+0301 into U+00E9, every other unit
    left as it is. On strings over ASCII, U+0301 and U+00E9 in which
    U+0301 only follows [e] or starts the string, and U+00E9 is not
    followed by U+0301, this is NFC; so it is on an unpaired surrogate
    and on a private-use character, which NFC leaves as they are. *)
Fixpoint compose (s : jsstring) : jsstring :=
  match s with
  | [] => []
  | c1 :: t =>
      match t with
      | c2 :: t' =>
          if (c1 =? 0x65) && (c2 =? 0x301) then 0xE9 :: compose t'
          else c1 :: compose t
      | [] => [c1]
      end
  end.

(** The decimal expansion of [r / d] for [0 <= r < d], [d] a power of
    two: it ends. *)
Fixpoint fraction_digits (fuel : nat) (r d : Z) : jsstring :=
  match fuel with
  | O => []
  | S fuel' =>
      if r =? 0 then []
      else (48 + (r * 10) / d) :: fraction_digits fuel' ((r * 10) mod d) d
  end.

(** The decimal text of a number. For a whole number in the safe range it
    is the text of [Number.prototype.toString]; for another finite number
    it is the exact expansion, which is the text of the built-in when that
    expansion is the shortest one that reads back as the number and needs
    no exponent (0.5, 1.25, ...). *)
Definition toString (x : number) : jsstring :=
  match x with
  | S754_nan => js "NaN"
  | S754_infinity s => if s then js "-Infinity" else js "Infinity"
  | S754_zero _ => js "0"
  | S754_finite s m e =>
      if integral m e then decimal_digits (signed s (whole_part m e))
      else (if s then [45] else [])
             ++ decimal_digits (whole_part m e)
             ++ [46]
             ++ fraction_digits (Z.to_nat (- e))
                  (Z.pos m mod 2 ^ (- e)) (2 ^ (- e))
  end.

(** The number a token denotes: exact when the token denotes a dyadic
    rational, cut below 2^-1074 otherwise (the built-in rounds). *)
Definition token_exponent (s : jsstring) : Z :=
  match s with
  | c :: t =>
      if (c =? 101) || (c =? 69) then
        let (sign, d) := lex_exp_sign t in
        match sign with
        | [45] => - digits_value d
        | _ => digits_value d
        end
      else 0
  | [] => 0
  end.

Definition of_scaled (s : bool) (mantissa : Z) (e : Z) : number :=
  match mantissa with
  | Z.pos m => S754_finite s m e
  | _ => S754_zero s
  end.

Definition toNumber (token : jsstring) : number :=
  let (sign, s1) := lex_sign token in
  let s := match sign with [] => false | _ => true end in
  let (int_digits, s2) := span_digits s1 in
  let (frac_digits, s3) :=
    match s2 with
    | 46 :: t => span_digits t
    | _ => ([], s2)
    end in
  let digits := digits_value (int_digits ++ frac_digits) in
  let exponent := token_exponent s3 - Z.of_nat (length frac_digits) in
  if 0 <=? exponent then of_scaled s (digits * 10 ^ exponent) 0
  else if digits mod 5 ^ (- exponent) =? 0
       then of_scaled s (digits / 5 ^ (- exponent)) exponent
       else of_scaled s (digits * 2 ^ 1074 / 10 ^ (- exponent)) (- 1074).

#[export] Instance platform : Platform := {
  normalize_NFC := compose;
  Number_toString := toString;
  StringToNumber := toNumber
}.

(** The values of the examples. *)
Definition whole (n : positive) : value := VNumber (S754_finite false n 0).

(** U+00E9, and U+0065 followed by the combining acute accent U+0301: two
    spellings of one letter, the first being the NFC form of both. *)
Definition e_acute : jsstring := [0xE9].
Definition e_then_acute : jsstring := [0x65; 0x301].

Definition colliding : value :=
  VObject [(e_acute, whole 1); (e_then_acute, whole 2)].

Definition colliding_swapped : value :=
  VObject [(e_then_acute, whole 2); (e_acute, whole 1)].

(** An object with an unpaired surrogate as a key. *)
Definition unpaired_key : value :=
  VObject [([0xD800], whole 1); ([0xE000], whole 2)].

(** [{"b": [1, "e" + U+0301, true, null, 1.5, -0], "a": {"10": "x\ny", "9": undefined}}],
    the string of the array holding a line feed. *)
Definition nested : value :=
  VObject
    [(js "b", VArray [whole 1; VString e_then_acute; VBoolean true; VNull;
                      VNumber (S754_finite false 3 (-1));
                      VNumber (S754_zero true)]);
     (js "a", VObject [(js "10", VString (js "x" ++ [10] ++ js "y"));
                       (js "9", VUndefined)])].

End Sample.

(** ** The vocabulary of the specification *)

(** The six cases of the Value Model: Null, Boolean, Number, String,
    Array, Object. *)
Definition in_value_model (v : value) : bool :=
  match v with
  | VNull | VBoolean _ | VNumber _ | VString _ | VArray _ | VObject _ => true
  | VUndefined | VFunction | VSymbol | VBigInt _ => false
  end.

(** The escape table of the specification, for one code unit: the named
    escapes, [\u] and four lower-case hexadecimal digits for the other
    controls, the unit itself from U+0020 on. A scalar value above U+FFFF
    is two units from U+D800 on, so it falls in the last case. *)
Definition lower_hex (d : Z) : Z :=
  nth (Z.to_nat d) (js "0123456789abcdef") 0.

Definition four_hex_digits (c : Z) : jsstring :=
  [lower_hex (c / 4096 mod 16); lower_hex (c / 256 mod 16);
   lower_hex (c / 16 mod 16); lower_hex (c mod 16)].

Definition spec_escape (c : Z) : jsstring :=
  if c =? 34 then js "\" ++ [34]
  else if c =? 92 then js "\\"
  else if c =? 8 then js "\b"
  else if c =? 12 then js "\f"
  else if c =? 10 then js "\n"
  else if c =? 13 then js "\r"
  else if c =? 9 then js "\t"
  else if c <? 0x20 then js "\u" ++ four_hex_digits c
  else [c].

(** The order of the specification on keys: code unit by code unit by
    numeric value, a proper prefix before the longer string. *)
Inductive ordinal_lt : jsstring -> jsstring -> Prop :=
| ordinal_prefix (y : Z) (b : jsstring) : ordinal_lt [] (y :: b)
| ordinal_unit (x y : Z) (a b : jsstring) : x < y -> ordinal_lt (x :: a) (y :: b)
| ordinal_tail (x : Z) (a b : jsstring) : ordinal_lt a b -> ordinal_lt (x :: a) (x :: b).

Definition ordinal_le (a b : jsstring) : Prop := a = b \/ ordinal_lt a b.

(** The value of the first property, in the order of [Object.keys], whose
    key normalizes to [key]. *)
Fixpoint first_match {P : Platform} (obj : list (jsstring * value)) (key : jsstring)
  : value :=
  match obj with
  | [] => VUndefined
  | (k, v) :: rest =>
      if jsstring_eqb (normalize_NFC k) key then v else first_match rest key
  end.

(** The platform gives a whole number of the safe range its decimal
    digits (ECMA-262, Number::toString). *)
Definition integer_rule (P : Platform) : Prop :=
  forall s m e,
    integral m e = true ->
    whole_part m e <= MAX_SAFE_INTEGER ->
    Number_toString (S754_finite s m e) = decimal_digits (signed s (whole_part m e)).

(** A text of digits with an optional minus sign in front: no decimal
    point, no exponent. *)
Definition integer_text (t : jsstring) : bool :=
  match t with
  | [] => false
  | c :: t' => if c =? 45 then forallb is_digit t' && negb (length t' =? 0)%nat
               else forallb is_digit t
  end.

(** A string that is a sequence of Unicode scalar values: every unit is a
    code unit and every surrogate is half of a pair. *)
Fixpoint well_formed (s : jsstring) : bool :=
  match s with
  | [] => true
  | c1 :: t =>
      if is_high_surrogate c1 then
        match t with
        | c2 :: t' => is_low_surrogate c2 && well_formed t'
        | [] => false
        end
      else (0 <=? c1) && (c1 <? 65536) && negb (is_low_surrogate c1)
           && well_formed t
  end.

Fixpoint distinct (l : list jsstring) : bool :=
  match l with
  | [] => true
  | k :: t => negb (existsb (jsstring_eqb k) t) && distinct t
  end.

Section Conforming.

Context {P : Platform}.

(** What the round trip asks of the platform at a string: its NFC form is
    well formed and is its own NFC form. *)
Definition string_law (s : jsstring) : bool :=
  well_formed (normalize_NFC s)
  && jsstring_eqb (normalize_NFC (normalize_NFC s)) (normalize_NFC s).

(** What the round trip asks of the platform at a number: the text the
    codec gives it is a number token of JSON, and [JSON.parse] reads that
    token as a number to which the codec gives the same text. *)
Definition number_law (x : number) : bool :=
  match canonicalizeNumber x with
  | Ok text =>
      match lex_number text with
      | Some (token, []) => jsstring_eqb token text
      | _ => false
      end
      && match canonicalizeNumber (StringToNumber text) with
         | Ok text' => jsstring_eqb text' text
         | Throw _ => false
         end
  | Throw _ => true
  end.

(** The values of the Value Model on which the round trip is stated: the
    keys of every object stay distinct under NFC, and the platform laws
    hold at every string, key and number. *)
Fixpoint conforming (v : value) : bool :=
  match v with
  | VString s => string_law s
  | VNumber x => number_law x
  | VArray arr => forallb conforming arr
  | VObject obj =>
      distinct (map normalize_NFC (Object_keys obj))
      && forallb (fun kv => let '(k, v) := kv in string_law k && conforming v) obj
  | _ => true
  end.

End Conforming.

(** ** What the standards say of the platform *)

Section Laws.

Context {P : Platform}.

(** NFC is idempotent and gives a sequence of scalar values for a
    sequence of scalar values (Unicode Standard Annex 15). *)
Definition normalization_laws : Prop :=
  forall s,
    normalize_NFC (normalize_NFC s) = normalize_NFC s
    /\ (well_formed s = true -> well_formed (normalize_NFC s) = true).

(** The text of a zero is [0]; the text of a finite number is a number
    token of JSON that reads back as a finite number of the same text
    (ECMA-262, Number::toString and StringToNumber). *)
Definition number_text_laws : Prop :=
  (forall s, Number_toString (S754_zero s) = js "0")
  /\ forall x,
       Number_isFinite x = true ->
       lex_number (Number_toString x) = Some (Number_toString x, [])
       /\ Number_isFinite (StringToNumber (Number_toString x)) = true
       /\ Number_toString (StringToNumber (Number_toString x)) = Number_toString x.

(** A value of the Value Model: its strings and keys are sequences of
    scalar values and the keys of each object are distinct under NFC. *)
Fixpoint valid (v : value) : bool :=
  match v with
  | VString s => well_formed s
  | VArray arr => forallb valid arr
  | VObject obj =>
      distinct (map normalize_NFC (Object_keys obj))
      && forallb (fun kv => let '(k, v) := kv in well_formed k && valid v) obj
  | _ => true
  end.

End Laws.

(** ** The vocabulary of the proofs *)

(** An ASCII literal between double quotes. *)
Definition quoted (s : string) : jsstring := [QUOTE] ++ js s ++ [QUOTE].

(** A Unicode scalar value: a code point that is not a surrogate. *)
Definition scalar_value (cp : Z) : Prop :=
  0 <= cp < 0x110000 /\ ~ (0xD800 <= cp <= 0xDFFF).

Definition ascii_unit (c : Z) : Prop := 0 <= c < 128.

Definition starts_with_BOM (s : jsstring) : bool :=
  match s with
  | c :: _ => c =? 0xFEFF
  | [] => false
  end.

(** What can follow a value inside the canonical text. *)
Definition stops (rest : jsstring) : Prop :=
  match rest with
  | [] => True
  | c :: _ => c = 44 \/ c = 93 \/ c = 125
  end.

(** No digit comes next. *)
Definition no_digit_ahead (rest : jsstring) : Prop :=
  match rest with
  | [] => True
  | c :: _ => is_digit c = false
  end.

(** The first character of a number token. *)
Definition number_start (c : Z) : Prop := c = 45 \/ 48 <= c <= 57.

(** The first character of a canonical text. *)
Definition value_start (c : Z) : Prop :=
  c = 34 \/ c = 91 \/ c = 123 \/ c = 110 \/ c = 116 \/ c = 102
  \/ c = 45 \/ 48 <= c <= 57.

Section Readable.

Context {P : Platform}.

(** A text the parser reads back, whatever stop follows, as a value with
    that same canonical text. *)
Definition readable (text : jsstring) : Prop :=
  forall rest fuel,
    stops rest ->
    (2 * length text + 2 <= fuel)%nat ->
    exists v',
      parse_value fuel (text ++ rest) = Some (v', rest)
      /\ canonicalizeValue v' = Ok text.

Definition good (text : jsstring) : Prop :=
  well_formed text = true
  /\ (exists c t, text = c :: t /\ value_start c)
  /\ readable text.

(** The member the codec writes for a key and the text of its value. *)
Definition member (key text : jsstring) : jsstring :=
  canonicalizeString key ++ js ":" ++ text.

(** The members the codec writes for the keys [keys], each key with the
    text [F] gives it. *)
Definition write_members (F : jsstring -> result jsstring) (keys : list jsstring)
  : result (list jsstring) :=
  mapM (fun key => text <- F key ;; Ok (canonicalizeString key ++ js ":" ++ text)) keys.

(** What the three parsers return does not depend on the fuel once the
    fuel is twice the number of characters they take. *)
Definition value_fuel (fuel : nat) : Prop :=
  forall s v r,
    parse_value fuel s = Some (v, r) ->
    (length r < length s)%nat
    /\ forall fuel', (2 * (length s - length r) + 1 <= fuel')%nat ->
                     parse_value fuel' s = Some (v, r).

Definition elements_fuel (fuel : nat) : Prop :=
  forall s vs r,
    parse_elements fuel s = Some (vs, r) ->
    (length r < length s)%nat
    /\ forall fuel', (2 * (length s - length r) <= fuel')%nat ->
                     parse_elements fuel' s = Some (vs, r).

Definition members_fuel (fuel : nat) : Prop :=
  forall s ms r,
    parse_members fuel s = Some (ms, r) ->
    (length r < length s)%nat
    /\ forall fuel', (2 * (length s - length r) <= fuel')%nat ->
                     parse_members fuel' s = Some (ms, r).

End Readable.

(** Goals on quotients and remainders by constants. *)
Ltac by_division := Z.div_mod_to_equations; lia.

(** ** More vocabulary: what the codec renders *)

Section Rendering.

Context {P : Platform}.



(** The value with [null] in the place of every [undefined]. *)
Fixpoint nullify (v : value) : value :=
  match v with
  | VUndefined => VNull
  | VArray arr => VArray (map nullify arr)
  | VObject obj => VObject (map (fun kv => let '(k, v) := kv in (k, nullify v)) obj)
  | _ => v
  end.

(** What [JSON.parse] can return: a value of the six cases at every
    depth. *)
Fixpoint json_value (v : value) : bool :=
  match v with
  | VArray arr => forallb json_value arr
  | VObject obj => forallb (fun kv => let '(_, v) := kv in json_value v) obj
  | VUndefined | VFunction | VSymbol | VBigInt _ => false
  | _ => true
  end.

(** The text the platform gives a finite number has no control
    character. *)
Definition printable_numbers : Prop :=
  forall x, Number_isFinite x = true ->
            Forall (fun c => 32 <= c) (Number_toString x).

End Rendering.

(** * Properties *)

(** ** Strings and lists *)

Lemma jsstring_eqb_eq (a b : jsstring) : jsstring_eqb a b = true <-> a = b.
Proof.
  revert b; induction a as [|x a IH]; intros [|y b]; simpl; split;
    try congruence; try reflexivity.
  - intros H. apply andb_true_iff in H as [Hx Hab].
    apply Z.eqb_eq in Hx. apply IH in Hab. congruence.
  - intros H. injection H as -> ->. rewrite Z.eqb_refl. simpl. now apply IH.
Qed.

Lemma jsstring_eqb_refl (a : jsstring) : jsstring_eqb a a = true.
Proof. now apply jsstring_eqb_eq. Qed.

Lemma mapM_ext {A B : Type} (f g : A -> result B) (l : list A) :
  (forall x, In x l -> f x = g x) -> mapM f l = mapM g l.
Proof.
  induction l as [|x l IH]; intros H; simpl; [reflexivity|].
  rewrite (H x (or_introl eq_refl)).
  rewrite IH; [reflexivity|]. intros y Hy. apply H. now right.
Qed.

Lemma mapM_Ok_Forall2 {A B : Type} (f : A -> result B) (l : list A) (ys : list B) :
  mapM f l = Ok ys <-> Forall2 (fun x y => f x = Ok y) l ys.
Proof.
  revert ys; induction l as [|x l IH]; simpl; intros ys; split; intros H.
  - injection H as <-. constructor.
  - inversion H. reflexivity.
  - destruct (f x) eqn:Ex; simpl in H; [|discriminate].
    destruct (mapM f l) eqn:E; simpl in H; [|discriminate].
    injection H as <-. constructor; [assumption|]. now apply IH.
  - inversion H as [|? y ? ys' Hx Hl]; subst. rewrite Hx. simpl.
    apply IH in Hl. rewrite Hl. reflexivity.
Qed.

(** ** The object case of [canonicalizeValue] is [canonicalizeObject] *)

Section CodecFacts.

Context {P : Platform}.

Lemma Object_keys_map {T U : Type} (f : T -> U) (obj : list (jsstring * T)) :
  Object_keys (map (fun kv => let '(k, v) := kv in (k, f v)) obj) = Object_keys obj.
Proof.
  unfold Object_keys. rewrite map_map. apply map_ext. now intros [k v].
Qed.

Lemma Get_map {T U : Type} (f : T -> U) (absent : T) (obj : list (jsstring * T))
  (key : jsstring) :
  Get (f absent) (map (fun kv => let '(k, v) := kv in (k, f v)) obj) key
  = f (Get absent obj key).
Proof.
  induction obj as [|[k v] obj IH]; simpl; [reflexivity|].
  destruct (jsstring_eqb k key); [reflexivity|apply IH].
Qed.

Lemma original_value_map {T U : Type} (f : T -> U) (absent : T)
  (obj : list (jsstring * T)) (key : jsstring) :
  original_value (f absent) (map (fun kv => let '(k, v) := kv in (k, f v)) obj) key
  = f (original_value absent obj key).
Proof.
  unfold original_value, find_original_key. rewrite Object_keys_map.
  destruct (find _ _); apply Get_map.
Qed.

Lemma canonicalizeValue_object (obj : list (jsstring * value)) :
  canonicalizeValue (VObject obj) = canonicalizeObject obj.
Proof.
  simpl. unfold canonicalizeObject, canonicalizeObject_with.
  unfold sorted_keys. rewrite Object_keys_map.
  f_equal. apply mapM_ext. intros key _.
  change (Ok (js "null")) with (canonicalizeValue VUndefined).
  rewrite (original_value_map canonicalizeValue). reflexivity.
Qed.

Lemma canonicalizeValue_array (arr : list value) :
  canonicalizeValue (VArray arr) = canonicalizeArray arr.
Proof. reflexivity. Qed.

End CodecFacts.

(** ** Escaping *)

Lemma pairwise_ind (Q : jsstring -> Prop) :
  Q [] ->
  (forall c, Q [c]) ->
  (forall c1 c2 t, Q t -> Q (c2 :: t) -> Q (c1 :: c2 :: t)) ->
  forall s, Q s.
Proof.
  intros H0 H1 H2 s.
  assert (H : Q s /\ forall c, Q (c :: s)).
  { induction s as [|c s [IH1 IH2]].
    - split; [exact H0|exact H1].
    - split; [apply IH2|]. intros c'. apply H2; [exact IH1|apply IH2]. }
  exact (proj1 H).
Qed.

Lemma lower_hex_digit (d : Z) : 0 <= d < 16 -> hex_digit d = lower_hex d.
Proof.
  intros H.
  assert (E : d = 0 \/ d = 1 \/ d = 2 \/ d = 3 \/ d = 4 \/ d = 5 \/ d = 6
              \/ d = 7 \/ d = 8 \/ d = 9 \/ d = 10 \/ d = 11 \/ d = 12
              \/ d = 13 \/ d = 14 \/ d = 15) by lia.
  repeat (destruct E as [-> | E]; [reflexivity|]). subst d. reflexivity.
Qed.

Lemma toString16_padStart (c : Z) :
  padStart 4 48 (toString16 c) = four_hex_digits c.
Proof.
  unfold toString16, four_hex_digits. cbn [hex_digits].
  assert (E2 : c / 16 / 16 = c / 256) by (rewrite Z.div_div by lia; reflexivity).
  assert (E3 : c / 16 / 16 / 16 = c / 4096) by (rewrite !Z.div_div by lia; reflexivity).
  rewrite E3, E2.
  assert (B : forall x, 0 <= x mod 16 < 16) by (intros; apply Z.mod_pos_bound; lia).
  rewrite <- !lower_hex_digit by apply B.
  destruct (c / 16 =? 0) eqn:Q1.
  { apply Z.eqb_eq in Q1.
    assert (c / 256 = 0) by (rewrite <- E2, Q1; reflexivity).
    assert (c / 4096 = 0) by (rewrite <- E3, Q1; reflexivity).
    rewrite Q1, H, H0. reflexivity. }
  destruct (c / 256 =? 0) eqn:Q2.
  { apply Z.eqb_eq in Q2.
    assert (c / 4096 = 0) by (rewrite <- E3, E2, Q2; reflexivity).
    rewrite Q2, H. reflexivity. }
  destruct (c / 4096 =? 0) eqn:Q3.
  { apply Z.eqb_eq in Q3. rewrite Q3. reflexivity. }
  destruct (c / 4096 / 16 =? 0); reflexivity.
Qed.

Section Escaping.

Context {P : Platform}.

Lemma escape_char_unit (c : Z) : escape_char [c] = spec_escape c.
Proof.
  unfold escape_char, spec_escape, charCodeAt, QUOTE, BACKSLASH.
  cbn [jsstring_eqb nth]. rewrite !andb_true_r.
  repeat (match goal with |- context [?a =? ?b] =>
            destruct (a =? b); [reflexivity|] end).
  destruct (c <? 32); [|reflexivity].
  rewrite toString16_padStart. reflexivity.
Qed.

Lemma escape_char_pair (c1 c2 : Z) :
  is_high_surrogate c1 = true -> is_low_surrogate c2 = true ->
  escape_char [c1; c2] = spec_escape c1 ++ spec_escape c2.
Proof.
  unfold is_high_surrogate, is_low_surrogate. intros H1 H2.
  assert (L1 : 0xD800 <= c1) by lia. assert (L2 : 0xDC00 <= c2) by lia.
  unfold escape_char, spec_escape, charCodeAt, QUOTE, BACKSLASH.
  cbn [jsstring_eqb nth]. rewrite !andb_false_r.
  repeat (match goal with |- context [?a =? ?b] =>
            destruct (Z.eqb_spec a b); [lia|] end).
  destruct (Z.ltb_spec c1 32); [lia|].
  destruct (Z.ltb_spec c2 32); [lia|]. reflexivity.
Qed.

Lemma string_iterator_escape (s : jsstring) :
  concat (map escape_char (string_iterator s)) = flat_map spec_escape s.
Proof.
  induction s as [| c | c1 c2 t IH1 IH2] using pairwise_ind.
  - reflexivity.
  - simpl. rewrite escape_char_unit, !app_nil_r. reflexivity.
  - change (string_iterator (c1 :: c2 :: t))
      with (if is_high_surrogate c1 && is_low_surrogate c2
            then [c1; c2] :: string_iterator t
            else [c1] :: string_iterator (c2 :: t)).
    destruct (is_high_surrogate c1 && is_low_surrogate c2) eqn:E.
    + apply andb_true_iff in E as [E1 E2].
      cbn [map concat flat_map]. rewrite IH1, escape_char_pair by assumption.
      now rewrite <- app_assoc.
    + cbn [map concat]. rewrite IH2, escape_char_unit. reflexivity.
Qed.

Lemma fold_left_append (f : jsstring -> jsstring) (l : list jsstring) (init : jsstring) :
  fold_left (fun result char => result ++ f char) l init
  = init ++ concat (map f l).
Proof.
  revert init; induction l as [|x l IH]; intros init; simpl.
  - now rewrite app_nil_r.
  - rewrite IH, <- app_assoc. reflexivity.
Qed.

Lemma canonicalizeString_flat_map (str : jsstring) :
  canonicalizeString str
  = [QUOTE] ++ flat_map spec_escape (normalize_NFC str) ++ [QUOTE].
Proof.
  unfold canonicalizeString. rewrite fold_left_append, string_iterator_escape.
  now rewrite <- app_assoc.
Qed.

(** C5. A string is first normalized to NFC; the codec then writes, in
    double quotes, the escape table of the specification over the
    normalized string: the named escapes, [\u00XX] in lower-case
    hexadecimal for the other units below U+0020, and every other unit as
    it is. The last part lists the table below U+0020. *)
Theorem string_escaping (str : jsstring) :
  canonicalizeToString (VString str)
  = Ok ([QUOTE] ++ flat_map spec_escape (normalize_NFC str) ++ [QUOTE])
  /\ (forall c, spec_escape c = [c] \/ c = 34 \/ c = 92 \/ c < 32)
  /\ map spec_escape (map Z.of_nat (seq 0 32))
     = map js ["\u0000"; "\u0001"; "\u0002"; "\u0003"; "\u0004"; "\u0005";
               "\u0006"; "\u0007"; "\b"; "\t"; "\n"; "\u000b"; "\f"; "\r";
               "\u000e"; "\u000f"; "\u0010"; "\u0011"; "\u0012"; "\u0013";
               "\u0014"; "\u0015"; "\u0016"; "\u0017"; "\u0018"; "\u0019";
               "\u001a"; "\u001b"; "\u001c"; "\u001d"; "\u001e"; "\u001f"]%string.
Proof.
  split; [|split].
  - simpl. now rewrite canonicalizeString_flat_map.
  - intros c. unfold spec_escape.
    repeat (match goal with |- context [?a =? ?b] =>
              destruct (Z.eqb_spec a b); [lia|] end).
    destruct (Z.ltb_spec c 32); [lia|]. now left.
  - vm_compute. reflexivity.
Qed.

End Escaping.

(** ** Values outside the Value Model *)

Section Dispatch.

Context {P : Platform}.

(** C10. [undefined] is not rejected: it renders as the text [null], and
    as the UTF-8 bytes of [null], exactly as a Null value does. *)
Theorem undefined_renders_null :
  canonicalizeToString VUndefined = Ok (js "null")
  /\ canonicalize VUndefined = Ok [110; 117; 108; 108]
  /\ canonicalizeToString VUndefined = canonicalizeToString VNull
  /\ canonicalize VUndefined = canonicalize VNull.
Proof. repeat split. Qed.

(** C3, as amended. An input that is neither [undefined] nor one of the
    six cases of the Value Model (a function, a symbol, a bigint) makes
    the codec throw the error for an unsupported type, whose message
    names the [typeof] of the input. *)
Theorem unsupported_type_throws (v : value) :
  in_value_model v = false ->
  v <> VUndefined ->
  canonicalizeToString v = Throw (UnsupportedTypeError (typeof v))
  /\ canonicalize v = Throw (UnsupportedTypeError (typeof v)).
Proof.
  intros Hm Hu. destruct v; try discriminate; try contradiction;
    split; reflexivity.
Qed.

(** C6. NaN and the two infinities make every entry point throw the error
    for a non-finite number; no text is produced for them. *)
Theorem nonfinite_number_throws :
  canonicalizeToString (VNumber S754_nan) = Throw NonFiniteNumberError
  /\ canonicalize (VNumber S754_nan) = Throw NonFiniteNumberError
  /\ (forall s, canonicalizeToString (VNumber (S754_infinity s))
                = Throw NonFiniteNumberError)
  /\ (forall s, canonicalize (VNumber (S754_infinity s))
                = Throw NonFiniteNumberError)
  /\ (forall x text, canonicalizeNumber x = Ok text -> Number_isFinite x = true).
Proof.
  repeat split.
  intros x text H. unfold canonicalizeNumber in H.
  destruct (Number_isFinite x); [reflexivity|discriminate].
Qed.

End Dispatch.

(** ** Numbers *)

Lemma uint_digits_are_digits (d : Decimal.uint) :
  forallb is_digit (uint_digits d) = true.
Proof. induction d; simpl; auto. Qed.

Lemma uint_digits_nonempty (p : positive) :
  (length (uint_digits (Pos.to_uint p)) =? 0)%nat = false.
Proof.
  pose proof (DecimalPos.Unsigned.to_uint_nonnil p) as H.
  destruct (Pos.to_uint p); [contradiction| reflexivity ..].
Qed.

Lemma decimal_digits_integer_text (z : Z) : integer_text (decimal_digits z) = true.
Proof.
  destruct z as [|p|p]; [reflexivity| |].
  - simpl. pose proof (uint_digits_are_digits (Pos.to_uint p)) as H.
    pose proof (uint_digits_nonempty p) as N.
    destruct (uint_digits (Pos.to_uint p)) as [|c t]; [discriminate|].
    unfold integer_text. destruct (Z.eqb_spec c 45); [|exact H].
    subst c. simpl in H. discriminate.
  - simpl. rewrite uint_digits_are_digits, uint_digits_nonempty.
    reflexivity.
Qed.

Section Numbers.

Context {P : Platform}.

Lemma canonicalizeNumber_safe_integer (s : bool) (m : positive) (e : Z) :
  integral m e = true ->
  whole_part m e <= MAX_SAFE_INTEGER ->
  canonicalizeNumber (S754_finite s m e) = Ok (Number_toString (S754_finite s m e)).
Proof.
  intros Hi Hs. unfold canonicalizeNumber. simpl.
  rewrite Hi. apply Z.leb_le in Hs. rewrite Hs. reflexivity.
Qed.

(** The second integer test of the source never decides: a number that
    equals its truncation and is within the safe range has already been
    taken by the first test. So every finite number other than negative
    zero gets the text of [toString]. *)
Lemma canonicalizeNumber_finite (x : number) :
  Number_isFinite x = true ->
  Object_is_negative_zero x = false ->
  canonicalizeNumber x = Ok (Number_toString x).
Proof.
  intros Hf Hz. unfold canonicalizeNumber. rewrite Hf, Hz. cbn [negb].
  destruct x as [s| s | |s m e]; try discriminate; [reflexivity|].
  cbn [Number_isInteger Number_isSafeInteger].
  destruct (integral m e && (integral m e && (whole_part m e <=? MAX_SAFE_INTEGER)))
    eqn:B1; [reflexivity|].
  cbn [Math_trunc Math_abs]. destruct (Z.leb_spec 0 e) as [He|He].
  { destruct (strict_equal _ _ && _); reflexivity. }
  assert (Hp : 0 < 2 ^ (- e)) by (apply Z.pow_pos_nonneg; lia).
  destruct (Z.pos m / 2 ^ (- e)) as [|q|q] eqn:Eq;
    [reflexivity| |reflexivity].
  destruct (strict_equal _ _ && _) eqn:B2; [|reflexivity]. exfalso.
  apply andb_true_iff in B2 as [E L]. cbn [strict_equal] in E.
  apply andb_true_iff in E as [_ E]. unfold compare_magnitude in E.
  rewrite Z.min_l, Z.sub_diag, Z.sub_0_l, Z.pow_0_r, Z.mul_1_r in E by lia.
  destruct (Z.compare_spec (Z.pos m) (Z.pos q * 2 ^ (- e))) as [Em| |];
    try discriminate.
  assert (Hi : integral m e = true).
  { unfold integral. rewrite Em, Z.mod_mul by lia. apply orb_true_r. }
  assert (Hw : whole_part m e = Z.pos q).
  { unfold whole_part. destruct (Z.leb_spec 0 e); [lia|exact Eq]. }
  rewrite Hi, Hw in B1. cbn [andb] in B1.
  cbn [less_equal_integer] in L. destruct (Z.leb_spec 0 e); [lia|].
  apply Z.leb_le in L. apply Z.leb_gt in B1. rewrite Em in L.
  apply Z.mul_le_mono_pos_r in L; [lia|exact Hp].
Qed.

(** C7. Negative zero renders as [0]. On a platform that gives the whole
    numbers of the safe range their decimal digits, a finite number that
    is whole and in the safe range renders as the digits of that whole
    number, with a minus sign when negative and with neither a decimal
    point nor an exponent; so 100.0 renders as [100]. *)
Theorem number_normalization :
  canonicalizeToString (VNumber (S754_zero true)) = Ok (js "0")
  /\ (integer_rule P ->
      forall s m e,
        integral m e = true ->
        whole_part m e <= MAX_SAFE_INTEGER ->
        canonicalizeToString (VNumber (S754_finite s m e))
        = Ok (decimal_digits (signed s (whole_part m e)))
        /\ integer_text (decimal_digits (signed s (whole_part m e))) = true)
  /\ (integer_rule P ->
      canonicalizeToString (VNumber (S754_finite false 7036874417766400 (-46)))
      = Ok (js "100")).
Proof.
  split; [reflexivity|]. split.
  - intros rule s m e Hi Hs. split.
    + simpl. rewrite canonicalizeNumber_safe_integer by assumption.
      now rewrite rule.
    + apply decimal_digits_integer_text.
  - intros rule. simpl. rewrite canonicalizeNumber_safe_integer.
    + rewrite rule; [reflexivity | reflexivity | vm_compute; discriminate].
    + reflexivity.
    + vm_compute; discriminate.
Qed.

End Numbers.

Lemma Sample_integer_rule : integer_rule Sample.platform.
Proof.
  intros s m e Hi _. simpl. unfold Sample.toString. now rewrite Hi.
Qed.

(** ** The integrity check *)

Lemma same_bytes_from_nth (a b : bytes) (n i : nat) :
  same_bytes_from a b i n = true <->
  forall j, (i <= j < i + n)%nat -> nth j a 0 = nth j b 0.
Proof.
  revert i; induction n as [|n IH]; intros i; simpl.
  - split; [intros _ j Hj; lia | reflexivity].
  - destruct (Z.eqb_spec (nth i a 0) (nth i b 0)) as [E|E]; simpl.
    + rewrite IH. split; intros H j Hj.
      * destruct (Nat.eq_dec j i) as [->|Hne]; [exact E|]. apply H. lia.
      * apply H. lia.
    + split; [discriminate|]. intros H. exfalso. apply E, H. lia.
Qed.

Lemma same_bytes_from_eq (a b : bytes) :
  length a = length b ->
  (same_bytes_from a b 0 (length a) = true <-> a = b).
Proof.
  intros Hl. rewrite same_bytes_from_nth. split.
  - intros H. apply (nth_ext a b 0 0 Hl). intros j Hj. apply H. lia.
  - intros ->. reflexivity.
Qed.

Section Integrity.

Context {P : Platform}.

(** C2. [validateIntegrity] never throws, and it answers [true] exactly
    when [canonicalizeBytes] succeeds on the bytes and returns the very
    same bytes; a parse failure or an error of the codec gives [false]. *)
Theorem validateIntegrity_spec (jsonBytes : bytes) :
  (exists answer, validateIntegrity jsonBytes = Ok answer)
  /\ (validateIntegrity jsonBytes = Ok true
      <-> canonicalizeBytes jsonBytes = Ok jsonBytes)
  /\ (forall e, canonicalizeBytes jsonBytes = Throw e ->
                validateIntegrity jsonBytes = Ok false).
Proof.
  unfold validateIntegrity.
  destruct (canonicalizeBytes jsonBytes) as [canonical|e] eqn:E.
  - destruct (Nat.eqb_spec (length jsonBytes) (length canonical)) as [Hl|Hl]; simpl.
    + split; [eauto|]. split; [|discriminate].
      split; intros H.
      * injection H as H. apply same_bytes_from_eq in H; congruence.
      * injection H as <-. f_equal. now apply same_bytes_from_eq.
    + split; [eauto|]. split; [|discriminate].
      split; intros H; [discriminate|]. injection H as <-. contradiction.
  - split; [eauto|]. split; [|reflexivity]. split; discriminate.
Qed.

End Integrity.

(** ** Sorting *)

Section Sorting.

Variable A : Type.
Variable compare : A -> A -> Z.

Let le (x y : A) : Prop := compare x y <= 0.

Hypothesis le_total : forall x y, le x y \/ le y x.
Hypothesis le_trans : forall x y z, le x y -> le y z -> le x z.

Lemma sort_insert_perm (x : A) (l : list A) :
  Permutation (sort_insert compare x l) (x :: l).
Proof.
  induction l as [|y l IH]; simpl; [reflexivity|].
  destruct (compare x y <=? 0); [reflexivity|].
  rewrite IH. apply perm_swap.
Qed.

Lemma Array_sort_perm (l : list A) : Permutation (Array_sort compare l) l.
Proof.
  induction l as [|x l IH]; simpl; [reflexivity|].
  rewrite sort_insert_perm. now constructor.
Qed.

Lemma sort_insert_sorted (x : A) (l : list A) :
  StronglySorted le l -> StronglySorted le (sort_insert compare x l).
Proof.
  induction 1 as [|y l Hs IH Hy]; simpl.
  - repeat constructor.
  - destruct (Z.leb_spec (compare x y) 0) as [Hxy|Hxy].
    + constructor; [now constructor|]. constructor; [exact Hxy|].
      eapply Forall_impl; [|exact Hy]. intros z Hz. now apply le_trans with y.
    + constructor; [exact IH|].
      rewrite sort_insert_perm. constructor; [|exact Hy].
      destruct (le_total x y) as [H|H]; [unfold le in H; lia|exact H].
Qed.

Lemma Array_sort_sorted (l : list A) : StronglySorted le (Array_sort compare l).
Proof.
  induction l as [|x l IH]; simpl; [constructor|now apply sort_insert_sorted].
Qed.

End Sorting.

Lemma sorted_unique {A : Type} (R : A -> A -> Prop) :
  (forall x y, R x y -> R y x -> x = y) ->
  forall l1 l2,
    StronglySorted R l1 -> StronglySorted R l2 -> Permutation l1 l2 -> l1 = l2.
Proof.
  intros antisym l1. induction l1 as [|x t1 IH]; intros l2 S1 S2 Hp.
  - apply Permutation_nil in Hp. now subst.
  - destruct l2 as [|y t2].
    { symmetry in Hp. apply Permutation_nil in Hp. discriminate. }
    inversion S1 as [|? ? S1' F1]; subst. inversion S2 as [|? ? S2' F2]; subst.
    assert (E : x = y).
    { assert (Hx : In x (y :: t2)) by (eapply Permutation_in; [exact Hp|now left]).
      assert (Hy : In y (x :: t1))
        by (eapply Permutation_in; [symmetry; exact Hp|now left]).
      destruct Hx as [->|Hx]; [reflexivity|].
      destruct Hy as [->|Hy]; [reflexivity|].
      rewrite Forall_forall in F1, F2. apply antisym; auto. }
    subst y. f_equal. apply IH; try assumption.
    now apply Permutation_cons_inv with x.
Qed.

(** ** The comparator of the source is the order of the specification *)

Section Comparator.

Context {P : Platform}.

Lemma first_difference_shift (x y : Z) (a b : jsstring) (n i : nat) :
  first_difference (x :: a) (y :: b) (S i) n = first_difference a b i n.
Proof.
  revert i; induction n as [|n IH]; intros i; simpl; [reflexivity|].
  unfold charCodeAt. simpl. destruct (negb _); [reflexivity|apply IH].
Qed.

Lemma compareKeys_cons (x y : Z) (a b : jsstring) :
  compareKeys (x :: a) (y :: b) = if x =? y then compareKeys a b else x - y.
Proof.
  unfold compareKeys. cbn [length Nat.min first_difference].
  unfold charCodeAt at 1 2 3 4. cbn [nth].
  destruct (x =? y); cbn [negb]; [|reflexivity].
  rewrite first_difference_shift.
  destruct (first_difference a b 0 _); [reflexivity|lia].
Qed.

Lemma compareKeys_nil_l (b : jsstring) : compareKeys [] b = - Z.of_nat (length b).
Proof. unfold compareKeys. simpl. lia. Qed.

Lemma compareKeys_nil_r (a : jsstring) : compareKeys a [] = Z.of_nat (length a).
Proof. unfold compareKeys. rewrite Nat.min_0_r. simpl. lia. Qed.

Lemma compareKeys_lt (a b : jsstring) : compareKeys a b < 0 <-> ordinal_lt a b.
Proof.
  revert b; induction a as [|x a IH]; intros [|y b].
  - rewrite compareKeys_nil_l. simpl. split; [lia|inversion 1].
  - rewrite compareKeys_nil_l. simpl. split; [constructor|lia].
  - rewrite compareKeys_nil_r. simpl. split; [lia|inversion 1].
  - rewrite compareKeys_cons. destruct (Z.eqb_spec x y) as [->|Hne].
    + rewrite IH. split; [now constructor|].
      inversion 1; subst; [lia|assumption].
    + split; [intros; constructor; lia|].
      inversion 1; subst; [lia|contradiction].
Qed.

Lemma compareKeys_eq (a b : jsstring) : compareKeys a b = 0 <-> a = b.
Proof.
  revert b; induction a as [|x a IH]; intros [|y b].
  - rewrite compareKeys_nil_l. simpl. tauto.
  - rewrite compareKeys_nil_l. simpl. split; [lia|discriminate].
  - rewrite compareKeys_nil_r. simpl. split; [lia|discriminate].
  - rewrite compareKeys_cons. destruct (Z.eqb_spec x y) as [->|Hne].
    + rewrite IH. split; congruence.
    + split; [lia|congruence].
Qed.

Lemma compareKeys_antisym (a b : jsstring) : compareKeys b a = - compareKeys a b.
Proof.
  revert b; induction a as [|x a IH]; intros [|y b];
    rewrite ?compareKeys_nil_l, ?compareKeys_nil_r, ?compareKeys_cons;
    try (simpl; lia).
  rewrite (Z.eqb_sym y x). destruct (x =? y); [apply IH|lia].
Qed.

Lemma compareKeys_le (a b : jsstring) : compareKeys a b <= 0 <-> ordinal_le a b.
Proof.
  unfold ordinal_le. rewrite <- compareKeys_lt, <- compareKeys_eq. lia.
Qed.

Lemma compareKeys_total (a b : jsstring) :
  compareKeys a b <= 0 \/ compareKeys b a <= 0.
Proof. rewrite (compareKeys_antisym a b). lia. Qed.

Lemma compareKeys_trans (a b c : jsstring) :
  compareKeys a b <= 0 -> compareKeys b c <= 0 -> compareKeys a c <= 0.
Proof.
  revert b c; induction a as [|x a IH]; intros [|y b] [|z c];
    rewrite ?compareKeys_nil_l, ?compareKeys_nil_r, ?compareKeys_cons;
    try (simpl; lia).
  destruct (Z.eqb_spec x y), (Z.eqb_spec y z), (Z.eqb_spec x z);
    try lia; subst; apply IH.
Qed.

Lemma ordinal_le_antisym (a b : jsstring) : ordinal_le a b -> ordinal_le b a -> a = b.
Proof.
  rewrite <- !compareKeys_le, (compareKeys_antisym a b).
  intros H1 H2. apply compareKeys_eq. lia.
Qed.

Lemma sorted_keys_perm {T : Type} (obj : list (jsstring * T)) :
  Permutation (sorted_keys obj) (map normalize_NFC (Object_keys obj)).
Proof. apply Array_sort_perm. Qed.

Lemma sorted_keys_sorted {T : Type} (obj : list (jsstring * T)) :
  StronglySorted ordinal_le (sorted_keys obj).
Proof.
  unfold sorted_keys.
  pose proof (Array_sort_sorted _ compareKeys compareKeys_total compareKeys_trans
                (map normalize_NFC (Object_keys obj))) as H.
  induction H as [|k l Hs IH Hk]; constructor; [exact IH|].
  eapply Forall_impl; [|exact Hk]. intros k'. apply compareKeys_le.
Qed.

Lemma sorted_keys_permutation {T : Type} (m1 m2 : list (jsstring * T)) :
  Permutation m1 m2 -> sorted_keys m1 = sorted_keys m2.
Proof.
  intros Hp. apply (sorted_unique ordinal_le ordinal_le_antisym);
    try apply sorted_keys_sorted.
  rewrite !sorted_keys_perm. unfold Object_keys. now rewrite Hp.
Qed.

End Comparator.

(** ** Objects *)

Section Objects.

Context {P : Platform}.

Lemma find_original_key_some {T : Type} (obj : list (jsstring * T)) (key k : jsstring) :
  find_original_key obj key = Some k ->
  In k (Object_keys obj) /\ normalize_NFC k = key.
Proof.
  unfold find_original_key. intros H. apply find_some in H as [Hin He].
  split; [exact Hin|now apply jsstring_eqb_eq].
Qed.

Lemma find_original_key_none {T : Type} (obj : list (jsstring * T)) (key : jsstring) :
  find_original_key obj key = None ->
  ~ In key (map normalize_NFC (Object_keys obj)).
Proof.
  unfold find_original_key. intros H Hin.
  apply in_map_iff in Hin as (k & Hk & Hin).
  apply (find_none _ _ H) in Hin. simpl in Hin.
  rewrite Hk, jsstring_eqb_refl in Hin. discriminate.
Qed.

Lemma Get_In {T : Type} (absent : T) (obj : list (jsstring * T)) (k : jsstring) (v : T) :
  NoDup (Object_keys obj) -> In (k, v) obj -> Get absent obj k = v.
Proof.
  induction obj as [|[k' v'] obj IH]; simpl; intros Hn Hin; [contradiction|].
  inversion Hn as [|? ? Hk' Hn']; subst.
  destruct Hin as [E|Hin].
  - injection E as -> ->. now rewrite jsstring_eqb_refl.
  - destruct (jsstring_eqb k' k) eqn:E; [|now apply IH].
    apply jsstring_eqb_eq in E. subst k'. exfalso. apply Hk'.
    unfold Object_keys. apply in_map_iff. now exists (k, v).
Qed.

(** With keys that stay distinct under NFC, the value picked for the
    normalized form of a key is the value of that key. *)
Lemma original_value_In {T : Type} (absent : T) (obj : list (jsstring * T))
  (k : jsstring) (v : T) :
  NoDup (map normalize_NFC (Object_keys obj)) ->
  In (k, v) obj ->
  original_value absent obj (normalize_NFC k) = v.
Proof.
  intros Hn Hin. unfold original_value.
  assert (Hk : NoDup (Object_keys obj)) by (eapply NoDup_map_inv; exact Hn).
  assert (Hkin : In k (Object_keys obj)).
  { unfold Object_keys. apply in_map_iff. now exists (k, v). }
  destruct (find_original_key obj (normalize_NFC k)) as [k'|] eqn:F.
  - apply find_original_key_some in F as [Hin' He].
    assert (k' = k); [|subst k'; now apply Get_In].
    clear - Hn Hin' He Hkin. induction (Object_keys obj) as [|a l IH];
      simpl in *; [contradiction|].
    inversion Hn as [|? ? Ha Hn']; subst.
    destruct Hin' as [->|Hin'], Hkin as [->|Hkin]; try reflexivity.
    + exfalso. apply Ha. rewrite He. now apply in_map.
    + exfalso. apply Ha. rewrite <- He. now apply in_map.
    + now apply IH.
  - apply find_original_key_none in F. exfalso. apply F. now apply in_map.
Qed.

(** With distinct keys, the value picked for a sorted key is the value of
    the first property whose key normalizes to it. *)
Lemma original_value_first_match (obj : list (jsstring * value)) (key : jsstring) :
  NoDup (Object_keys obj) ->
  In key (map normalize_NFC (Object_keys obj)) ->
  original_value VUndefined obj key = first_match obj key.
Proof.
  unfold original_value.
  induction obj as [|[k v] obj IH]; intros Hn Hin; [contradiction|].
  inversion Hn as [|? ? Hk Hn']; subst.
  unfold find_original_key. cbn [Object_keys map fst find first_match].
  destruct (jsstring_eqb (normalize_NFC k) key) eqn:E.
  - cbn [Get]. now rewrite jsstring_eqb_refl.
  - assert (Hin' : In key (map normalize_NFC (Object_keys obj))).
    { destruct Hin as [Hin|Hin]; [|exact Hin].
      simpl in Hin. subst key. now rewrite jsstring_eqb_refl in E. }
    specialize (IH Hn' Hin'). unfold find_original_key, Object_keys in IH.
    destruct (find _ (map fst obj)) as [k'|] eqn:F.
    + cbn [Get]. destruct (jsstring_eqb k k') eqn:E'; [|exact IH].
      apply jsstring_eqb_eq in E'. subst k'.
      apply find_some in F as [F _]. contradiction.
    + exfalso. apply (find_original_key_none obj key F Hin').
Qed.

Lemma canonicalizeObject_Ok (obj : list (jsstring * value)) (text : jsstring) :
  canonicalizeObject obj = Ok text ->
  exists members,
    Forall2 (fun key member =>
               exists rendered, member = canonicalizeString key ++ js ":" ++ rendered)
            (sorted_keys obj) members
    /\ text = js "{" ++ join (js ",") members ++ js "}".
Proof.
  unfold canonicalizeObject, canonicalizeObject_with. intros H.
  destruct (mapM _ (sorted_keys obj)) as [members|] eqn:E; simpl in H; [|discriminate].
  injection H as <-. exists members. split; [|reflexivity].
  apply mapM_Ok_Forall2 in E.
  eapply Forall2_impl; [|exact E]. intros key member Hm. simpl in Hm.
  destruct (canonicalizeValue _) as [rendered|]; simpl in Hm; [|discriminate].
  injection Hm as <-. now exists rendered.
Qed.

(** C4. The keys the codec writes for an object are the NFC forms of its
    keys, one for each, in the ordinal order of their code units (a
    proper prefix first); each member of the output starts with the
    canonical string of its key. With NFC leaving the four ASCII keys
    as they are, the keys z_key, a_key, A_key, m_key come out as A_key,
    a_key, m_key, z_key. *)
Theorem object_keys_sorted (obj : list (jsstring * value)) :
  Permutation (sorted_keys obj) (map normalize_NFC (Object_keys obj))
  /\ StronglySorted ordinal_le (sorted_keys obj)
  /\ (forall text,
        canonicalizeToString (VObject obj) = Ok text ->
        exists members,
          Forall2 (fun key member =>
                     exists rendered,
                       member = canonicalizeString key ++ js ":" ++ rendered)
                  (sorted_keys obj) members
          /\ text = js "{" ++ join (js ",") members ++ js "}")
  /\ (normalize_NFC (js "z_key") = js "z_key" ->
      normalize_NFC (js "a_key") = js "a_key" ->
      normalize_NFC (js "A_key") = js "A_key" ->
      normalize_NFC (js "m_key") = js "m_key" ->
      canonicalizeToString
        (VObject [(js "z_key", VNull); (js "a_key", VBoolean true);
                  (js "A_key", VBoolean false); (js "m_key", VNull)])
      = Ok (js "{" ++ quoted "A_key" ++ js ":false,"
                   ++ quoted "a_key" ++ js ":true,"
                   ++ quoted "m_key" ++ js ":null,"
                   ++ quoted "z_key" ++ js ":null}")).
Proof.
  split; [apply sorted_keys_perm|]. split; [apply sorted_keys_sorted|]. split.
  - intros text H. unfold canonicalizeToString in H.
    rewrite canonicalizeValue_object in H. now apply canonicalizeObject_Ok.
  - intros Hz Ha HA Hm. unfold canonicalizeToString.
    rewrite canonicalizeValue_object.
    unfold canonicalizeObject, canonicalizeObject_with, sorted_keys,
      original_value, find_original_key, canonicalizeString, Object_keys.
    cbn [map fst find]. rewrite !Hz, !Ha, !HA, !Hm.
    change (Array_sort compareKeys [js "z_key"; js "a_key"; js "A_key"; js "m_key"])
      with [js "A_key"; js "a_key"; js "m_key"; js "z_key"].
    cbn [mapM find]. rewrite !Hz, !Ha, !HA, !Hm. reflexivity.
Qed.

(** C9. For an object (its keys are distinct), the codec writes one
    member for each original key, and the value of the member written for
    a normalized key is the value of the first property, in the order of
    [Object.keys], whose key normalizes to it. So with two distinct keys
    of the same NFC form the normalized key is written twice, both times
    with the value of the first of the two; the value of the second is
    not looked at. *)
Theorem colliding_keys_first_value :
  (forall obj,
     NoDup (Object_keys obj) ->
     length (sorted_keys obj) = length obj
     /\ canonicalizeToString (VObject obj)
        = (members <- mapM (fun key =>
                              text <- canonicalizeToString (first_match obj key) ;;
                              Ok (canonicalizeString key ++ js ":" ++ text))
                           (sorted_keys obj) ;;
           Ok (js "{" ++ join (js ",") members ++ js "}")))
  /\ (forall k1 k2 v1 v2 text1,
        k1 <> k2 ->
        normalize_NFC k1 = normalize_NFC k2 ->
        canonicalizeToString v1 = Ok text1 ->
        canonicalizeToString (VObject [(k1, v1); (k2, v2)])
        = Ok (js "{" ++ canonicalizeString (normalize_NFC k1) ++ js ":" ++ text1
                     ++ js ","
                     ++ canonicalizeString (normalize_NFC k1) ++ js ":" ++ text1
                     ++ js "}")).
Proof.
  assert (G : forall obj,
     NoDup (Object_keys obj) ->
     length (sorted_keys obj) = length obj
     /\ canonicalizeToString (VObject obj)
        = (members <- mapM (fun key =>
                              text <- canonicalizeToString (first_match obj key) ;;
                              Ok (canonicalizeString key ++ js ":" ++ text))
                           (sorted_keys obj) ;;
           Ok (js "{" ++ join (js ",") members ++ js "}"))).
  { intros obj Hn. split.
    - rewrite (Permutation_length (sorted_keys_perm obj)).
      unfold Object_keys. now rewrite !length_map.
    - unfold canonicalizeToString. rewrite canonicalizeValue_object.
      unfold canonicalizeObject, canonicalizeObject_with. f_equal.
      apply mapM_ext. intros key Hin.
      rewrite original_value_first_match; [reflexivity|exact Hn|].
      eapply Permutation_in; [apply sorted_keys_perm|exact Hin]. }
  split; [exact G|].
  intros k1 k2 v1 v2 text1 Hne He Hv.
  destruct (G [(k1, v1); (k2, v2)]) as [_ ->].
  { repeat constructor; simpl; intuition congruence. }
  unfold sorted_keys, Object_keys, Array_sort. cbn [map fst fold_right sort_insert].
  rewrite <- He.
  assert (E : compareKeys (normalize_NFC k1) (normalize_NFC k1) = 0)
    by now apply compareKeys_eq.
  rewrite E. cbn [Z.leb Z.compare mapM first_match].
  rewrite jsstring_eqb_refl, Hv. cbn [bind join].
  now rewrite <- !app_assoc.
Qed.

(** With keys that stay distinct under NFC, the text of an object does
    not depend on the order of its properties. *)
Lemma canonicalizeObject_permutation (m1 m2 : list (jsstring * value)) :
  Permutation m1 m2 ->
  NoDup (map normalize_NFC (Object_keys m1)) ->
  canonicalizeObject m1 = canonicalizeObject m2.
Proof.
  intros Hp Hn. unfold canonicalizeObject, canonicalizeObject_with.
  rewrite <- (sorted_keys_permutation m1 m2 Hp). f_equal.
  apply mapM_ext. intros key Hin.
  assert (Hk : In key (map normalize_NFC (Object_keys m1)))
    by (eapply Permutation_in; [apply sorted_keys_perm|exact Hin]).
  apply in_map_iff in Hk as (k & <- & Hk).
  unfold Object_keys in Hk. apply in_map_iff in Hk as ([k' v] & Ek & Hkv).
  simpl in Ek. subst k'.
  rewrite (original_value_In VUndefined m1 k v Hn Hkv).
  rewrite (original_value_In VUndefined m2 k v); [reflexivity| |].
  - eapply Permutation_NoDup; [|exact Hn].
    unfold Object_keys. now rewrite Hp.
  - eapply Permutation_in; [exact Hp|exact Hkv].
Qed.

(** C8, as amended. Two objects with the same properties in different
    orders, whose keys stay distinct under NFC, have the same canonical
    text and the same canonical bytes. *)
Theorem key_order_invariance (m1 m2 : list (jsstring * value)) :
  Permutation m1 m2 ->
  NoDup (map normalize_NFC (Object_keys m1)) ->
  canonicalizeToString (VObject m1) = canonicalizeToString (VObject m2)
  /\ canonicalize (VObject m1) = canonicalize (VObject m2).
Proof.
  intros Hp Hn.
  assert (E : canonicalizeToString (VObject m1) = canonicalizeToString (VObject m2)).
  { unfold canonicalizeToString. rewrite !canonicalizeValue_object.
    now apply canonicalizeObject_permutation. }
  split; [exact E|]. unfold canonicalize. now rewrite E.
Qed.

End Objects.

(** ** UTF-8 and UTF-16 *)

Lemma utf8_first_byte_1 (b : Z) :
  0 <= b <= 0x7F -> utf8_first_byte b = Lead_single b.
Proof.
  intros H. unfold utf8_first_byte.
  destruct (Z.leb_spec 0 b); [|lia]. destruct (Z.leb_spec b 0x7F); [|lia].
  reflexivity.
Qed.

Lemma utf8_first_byte_2 (b : Z) :
  0xC2 <= b <= 0xDF -> utf8_first_byte b = Lead_multi (b - 0xC0) 1 0x80 0xBF.
Proof.
  intros H. unfold utf8_first_byte.
  destruct (Z.leb_spec b 0x7F); [lia|]. rewrite andb_false_r.
  destruct (Z.leb_spec 0xC2 b); [|lia]. destruct (Z.leb_spec b 0xDF); [|lia].
  reflexivity.
Qed.

Lemma utf8_first_byte_3 (b : Z) :
  0xE0 <= b <= 0xEF ->
  utf8_first_byte b
  = Lead_multi (b - 0xE0) 2 (if b =? 0xE0 then 0xA0 else 0x80)
               (if b =? 0xED then 0x9F else 0xBF).
Proof.
  intros H. unfold utf8_first_byte.
  destruct (Z.leb_spec b 0x7F); [lia|]. rewrite andb_false_r.
  destruct (Z.leb_spec b 0xDF); [lia|]. rewrite andb_false_r.
  destruct (Z.leb_spec 0xE0 b); [|lia]. destruct (Z.leb_spec b 0xEF); [|lia].
  reflexivity.
Qed.

Lemma utf8_first_byte_4 (b : Z) :
  0xF0 <= b <= 0xF4 ->
  utf8_first_byte b
  = Lead_multi (b - 0xF0) 3 (if b =? 0xF0 then 0x90 else 0x80)
               (if b =? 0xF4 then 0x8F else 0xBF).
Proof.
  intros H. unfold utf8_first_byte.
  destruct (Z.leb_spec b 0x7F); [lia|]. rewrite andb_false_r.
  destruct (Z.leb_spec b 0xDF); [lia|]. rewrite andb_false_r.
  destruct (Z.leb_spec b 0xEF); [lia|]. rewrite andb_false_r.
  destruct (Z.leb_spec 0xF0 b); [|lia]. destruct (Z.leb_spec b 0xF4); [|lia].
  reflexivity.
Qed.

Lemma in_bounds (lower upper b : Z) :
  lower <= b <= upper -> (lower <=? b) && (b <=? upper) = true.
Proof. intros H. apply andb_true_iff. split; apply Z.leb_le; lia. Qed.

(** The decoder reads back what the encoder wrote for a scalar value. *)
Lemma utf8_decode_encode (cp : Z) (bs : bytes) :
  scalar_value cp ->
  utf8_decode (utf8_encode_code_point cp ++ bs) 0 O 0x80 0xBF
  = cp :: utf8_decode bs 0 O 0x80 0xBF.
Proof.
  intros [Hr Hs]. unfold utf8_encode_code_point.
  destruct (Z.ltb_spec cp 0x80) as [H1|H1].
  { cbn [app utf8_decode]. rewrite utf8_first_byte_1 by lia. reflexivity. }
  destruct (Z.ltb_spec cp 0x800) as [H2|H2].
  { cbn [app utf8_decode]. rewrite utf8_first_byte_2 by by_division.
    rewrite in_bounds by by_division. f_equal. by_division. }
  destruct (Z.ltb_spec cp 0x10000) as [H3|H3].
  { cbn [app utf8_decode]. rewrite utf8_first_byte_3 by by_division.
    rewrite in_bounds.
    2:{ destruct (Z.eqb_spec (0xE0 + cp / 4096) 0xE0);
        destruct (Z.eqb_spec (0xE0 + cp / 4096) 0xED); by_division. }
    rewrite in_bounds by by_division. f_equal. by_division. }
  cbn [app utf8_decode]. rewrite utf8_first_byte_4 by by_division.
  rewrite in_bounds.
  2:{ destruct (Z.eqb_spec (0xF0 + cp / 262144) 0xF0);
      destruct (Z.eqb_spec (0xF0 + cp / 262144) 0xF4); by_division. }
  rewrite in_bounds by by_division.
  rewrite in_bounds by by_division. f_equal. by_division.
Qed.

Lemma utf8_decode_flat_map (cps : list Z) :
  Forall scalar_value cps ->
  utf8_decode (flat_map utf8_encode_code_point cps) 0 O 0x80 0xBF = cps.
Proof.
  induction 1 as [|cp cps Hcp _ IH]; [reflexivity|].
  cbn [flat_map]. rewrite utf8_decode_encode by assumption. now rewrite IH.
Qed.

Lemma surrogate_cases (c : Z) :
  is_high_surrogate c = true /\ 0xD800 <= c <= 0xDBFF
  \/ is_high_surrogate c = false /\ ~ (0xD800 <= c <= 0xDBFF).
Proof. unfold is_high_surrogate. lia. Qed.

Lemma low_surrogate_cases (c : Z) :
  is_low_surrogate c = true /\ 0xDC00 <= c <= 0xDFFF
  \/ is_low_surrogate c = false /\ ~ (0xDC00 <= c <= 0xDFFF).
Proof. unfold is_low_surrogate. lia. Qed.

Lemma well_formed_unit (c : Z) (t : jsstring) :
  is_high_surrogate c = false ->
  well_formed (c :: t) = true ->
  0 <= c < 65536 /\ is_low_surrogate c = false /\ well_formed t = true.
Proof.
  intros Hh H. cbn [well_formed] in H. rewrite Hh in H.
  apply andb_true_iff in H as [H Ht]. apply andb_true_iff in H as [H Hl].
  apply negb_true_iff in Hl. repeat split; try assumption; lia.
Qed.

Lemma well_formed_pair (c1 : Z) (t : jsstring) :
  is_high_surrogate c1 = true ->
  well_formed (c1 :: t) = true ->
  exists c2 t', t = c2 :: t' /\ is_low_surrogate c2 = true /\ well_formed t' = true.
Proof.
  intros Hh H. cbn [well_formed] in H. rewrite Hh in H.
  destruct t as [|c2 t']; [discriminate|].
  apply andb_true_iff in H as [H1 H2]. now exists c2, t'.
Qed.

Lemma code_points_unit (c : Z) (t : jsstring) :
  is_high_surrogate c = false -> is_low_surrogate c = false ->
  code_points (c :: t) = c :: code_points t.
Proof.
  intros Hh Hl. cbn [code_points]. unfold scalar_or_replacement.
  rewrite Hh, Hl. now destruct t.
Qed.

Lemma code_points_pair (c1 c2 : Z) (t : jsstring) :
  is_high_surrogate c1 = true -> is_low_surrogate c2 = true ->
  code_points (c1 :: c2 :: t) = pair_code_point c1 c2 :: code_points t.
Proof. intros Hh Hl. cbn [code_points]. now rewrite Hh, Hl. Qed.

Lemma code_points_well_formed (s : jsstring) :
  well_formed s = true ->
  Forall scalar_value (code_points s)
  /\ flat_map utf16_encode_code_point (code_points s) = s.
Proof.
  induction s as [| c | c1 c2 t IH1 IH2] using pairwise_ind; intros H.
  - split; [constructor|reflexivity].
  - destruct (surrogate_cases c) as [[Hh _]|[Hh Hn]].
    { apply well_formed_pair in H as (? & ? & ? & _); [discriminate|exact Hh]. }
    apply well_formed_unit in H as (Hr & Hl & _); [|exact Hh].
    rewrite code_points_unit by assumption.
    destruct (low_surrogate_cases c) as [[Hl' _]|[_ Hn']]; [congruence|].
    split.
    + repeat constructor; unfold scalar_value; lia.
    + cbn [code_points flat_map]. unfold utf16_encode_code_point.
      destruct (Z.ltb_spec c 65536); [reflexivity|lia].
  - destruct (surrogate_cases c1) as [[Hh Hb]|[Hh Hn]].
    + apply well_formed_pair in H as (c2' & t' & E & Hl & Ht); [|exact Hh].
      injection E as <- <-. rewrite code_points_pair by assumption.
      destruct (IH1 Ht) as [F E]. unfold is_low_surrogate in Hl.
      split.
      * constructor; [|exact F]. unfold scalar_value, pair_code_point. lia.
      * cbn [flat_map]. rewrite E. unfold utf16_encode_code_point, pair_code_point.
        destruct (Z.ltb_spec (65536 + (c1 - 55296) * 1024 + (c2 - 56320)) 65536);
          [lia|].
        cbn [app]. f_equal; [|f_equal]; by_division.
    + apply well_formed_unit in H as (Hr & Hl & Ht); [|exact Hh].
      rewrite code_points_unit by assumption. destruct (IH2 Ht) as [F E].
      destruct (low_surrogate_cases c1) as [[Hl' _]|[_ Hn']]; [congruence|].
      split.
      * constructor; [|exact F]. unfold scalar_value. lia.
      * cbn [flat_map]. rewrite E. unfold utf16_encode_code_point.
        destruct (Z.ltb_spec c1 65536); [reflexivity|lia].
Qed.

Lemma strip_BOM_code_points (s : jsstring) :
  well_formed s = true -> starts_with_BOM s = false ->
  strip_BOM (code_points s) = code_points s.
Proof.
  destruct s as [|c t]; [reflexivity|]. intros Hw Hb. simpl in Hb.
  destruct (surrogate_cases c) as [[Hh Hr]|[Hh Hn]].
  - apply well_formed_pair in Hw as (c2 & t' & -> & Hl & _); [|exact Hh].
    rewrite code_points_pair by assumption. unfold strip_BOM, pair_code_point.
    unfold is_low_surrogate in Hl.
    destruct (Z.eqb_spec (65536 + (c - 55296) * 1024 + (c2 - 56320)) 65279);
      [lia|reflexivity].
  - apply well_formed_unit in Hw as (_ & Hl & _); [|exact Hh].
    rewrite code_points_unit by assumption. unfold strip_BOM. now rewrite Hb.
Qed.

(** Decoding the UTF-8 bytes of a well-formed string that does not start
    with a byte order mark gives the string back. *)
Lemma TextDecoder_TextEncoder (s : jsstring) :
  well_formed s = true -> starts_with_BOM s = false ->
  TextDecoder_decode (TextEncoder_encode s) = s.
Proof.
  intros Hw Hb. unfold TextDecoder_decode, TextEncoder_encode.
  destruct (code_points_well_formed s Hw) as [F E].
  rewrite utf8_decode_flat_map by exact F.
  rewrite strip_BOM_code_points by assumption. exact E.
Qed.

Lemma well_formed_app (a b : jsstring) :
  well_formed a = true -> well_formed b = true -> well_formed (a ++ b) = true.
Proof.
  induction a as [| c | c1 c2 t IH1 IH2] using pairwise_ind; intros Ha Hb.
  - exact Hb.
  - destruct (surrogate_cases c) as [[Hh _]|[Hh _]].
    { apply well_formed_pair in Ha as (? & ? & ? & _); [discriminate|exact Hh]. }
    apply well_formed_unit in Ha as (Hr & Hl & _); [|exact Hh].
    cbn [app well_formed]. rewrite Hh, Hl, Hb.
    destruct (Z.leb_spec 0 c); [|lia]. destruct (Z.ltb_spec c 65536); [|lia].
    reflexivity.
  - destruct (surrogate_cases c1) as [[Hh _]|[Hh _]].
    + apply well_formed_pair in Ha as (c2' & t' & E & Hl & Ht); [|exact Hh].
      injection E as <- <-. cbn [app well_formed]. rewrite Hh, Hl.
      cbn [andb]. now apply IH1.
    + apply well_formed_unit in Ha as (Hr & Hl & Ht); [|exact Hh].
      change ((c1 :: c2 :: t) ++ b) with (c1 :: ((c2 :: t) ++ b)).
      cbn [well_formed]. rewrite Hh, Hl, (IH2 Ht Hb).
      destruct (Z.leb_spec 0 c1); [|lia]. destruct (Z.ltb_spec c1 65536); [|lia].
      reflexivity.
Qed.

Lemma well_formed_ascii (s : jsstring) : Forall ascii_unit s -> well_formed s = true.
Proof.
  induction 1 as [|c t Hc _ IH]; [reflexivity|]. unfold ascii_unit in Hc.
  cbn [well_formed]. unfold is_high_surrogate, is_low_surrogate. rewrite IH.
  destruct (Z.leb_spec 55296 c); [lia|]. destruct (Z.leb_spec 56320 c); [lia|].
  destruct (Z.leb_spec 0 c); [|lia]. destruct (Z.ltb_spec c 65536); [|lia].
  reflexivity.
Qed.

(** ** Reading back what the codec writes *)

Lemma below_32 (c : Z) : 0 <= c < 32 -> In c (map Z.of_nat (seq 0 32)).
Proof.
  intros H. rewrite <- (Z2Nat.id c) by lia. apply in_map, in_seq. lia.
Qed.

Lemma parse_chars_unit (c : Z) (s : jsstring) :
  0 <= c -> parse_chars (spec_escape c ++ s) = prepend c (parse_chars s).
Proof.
  intros H0. destruct (Z.ltb_spec c 32) as [Hc|Hc].
  - assert (H : In c (map Z.of_nat (seq 0 32))) by (apply below_32; lia).
    cbv [map seq Z.of_nat Pos.of_succ_nat Pos.succ In] in H.
    repeat (destruct H as [<-|H]; [reflexivity|]). contradiction.
  - unfold spec_escape.
    destruct (Z.eqb_spec c 34) as [->|N1]; [reflexivity|].
    destruct (Z.eqb_spec c 92) as [->|N2]; [reflexivity|].
    repeat (match goal with |- context [?a =? ?b] =>
              destruct (Z.eqb_spec a b); [lia|] end).
    destruct (Z.ltb_spec c 32); [lia|].
    cbn [app parse_chars]. unfold QUOTE, BACKSLASH.
    destruct (Z.eqb_spec c 34); [lia|]. destruct (Z.eqb_spec c 92); [lia|].
    destruct (Z.ltb_spec c 32); [lia|]. reflexivity.
Qed.

(** The string parser reads the escaped text of a string back. *)
Lemma parse_chars_escape (s rest : jsstring) :
  Forall (fun c => 0 <= c) s ->
  parse_chars (flat_map spec_escape s ++ QUOTE :: rest) = Some (s, rest).
Proof.
  induction 1 as [|c s Hc _ IH]; [reflexivity|].
  cbn [flat_map]. rewrite <- app_assoc, parse_chars_unit, IH by exact Hc.
  reflexivity.
Qed.

Lemma well_formed_nonnegative (s : jsstring) :
  well_formed s = true -> Forall (fun c => 0 <= c) s.
Proof.
  induction s as [| c | c1 c2 t IH1 IH2] using pairwise_ind; intros H.
  - constructor.
  - destruct (surrogate_cases c) as [[Hh Hb]|[Hh _]].
    + repeat constructor. lia.
    + apply well_formed_unit in H as (Hr & _ & _); [|exact Hh].
      repeat constructor. lia.
  - destruct (surrogate_cases c1) as [[Hh Hb]|[Hh _]].
    + apply well_formed_pair in H as (c2' & t' & E & Hl & Ht); [|exact Hh].
      injection E as <- <-. unfold is_low_surrogate in Hl.
      constructor; [lia|]. constructor; [lia|]. now apply IH1.
    + apply well_formed_unit in H as (Hr & _ & Ht); [|exact Hh].
      constructor; [lia|]. now apply IH2.
Qed.

Lemma stops_no_digit (rest : jsstring) : stops rest -> no_digit_ahead rest.
Proof.
  destruct rest as [|c r]; [trivial|]. simpl. unfold is_digit. lia.
Qed.

Lemma span_digits_app (s rest d r : jsstring) :
  no_digit_ahead rest ->
  span_digits s = (d, r) -> span_digits (s ++ rest) = (d, r ++ rest).
Proof.
  intros Hrest. revert d r. induction s as [|c s IH]; intros d r H.
  - injection H as <- <-. destruct rest as [|c r]; [reflexivity|].
    simpl in *. now rewrite Hrest.
  - cbn [span_digits app] in *. destruct (is_digit c).
    + destruct (span_digits s) as [d' r'] eqn:E. injection H as <- <-.
      now rewrite (IH d' r' eq_refl).
    + injection H as <- <-. reflexivity.
Qed.

Lemma lex_sign_app (s rest sg r : jsstring) :
  stops rest -> lex_sign s = (sg, r) -> lex_sign (s ++ rest) = (sg, r ++ rest).
Proof.
  intros Hrest H. destruct s as [|c s].
  - injection H as <- <-. destruct rest as [|c r]; [reflexivity|].
    simpl in *. destruct (Z.eqb_spec c 45); [lia|reflexivity].
  - cbn [lex_sign app] in *. destruct (c =? 45); now injection H as <- <-.
Qed.

Lemma lex_int_app (s rest i r : jsstring) :
  stops rest -> lex_int s = Some (i, r) -> lex_int (s ++ rest) = Some (i, r ++ rest).
Proof.
  intros Hrest H. destruct s as [|c s]; [discriminate|].
  cbn [lex_int app] in *. destruct (c =? 48); [now injection H as <- <-|].
  destruct (is_digit c); [|discriminate].
  destruct (span_digits s) as [d r'] eqn:E. injection H as <- <-.
  now rewrite (span_digits_app s rest d r' (stops_no_digit rest Hrest) E).
Qed.

Lemma lex_frac_app (s rest f r : jsstring) :
  stops rest -> lex_frac s = Some (f, r) -> lex_frac (s ++ rest) = Some (f, r ++ rest).
Proof.
  intros Hrest H. destruct s as [|c s].
  - injection H as <- <-. destruct rest as [|c r]; [reflexivity|].
    simpl in *. destruct (Z.eqb_spec c 46); [lia|reflexivity].
  - cbn [lex_frac app] in *. destruct (c =? 46); [|now injection H as <- <-].
    destruct (span_digits s) as [d r'] eqn:E.
    rewrite (span_digits_app s rest d r' (stops_no_digit rest Hrest) E).
    destruct d; [discriminate|]. now injection H as <- <-.
Qed.

Lemma lex_exp_sign_app (s rest sg r : jsstring) :
  stops rest ->
  lex_exp_sign s = (sg, r) -> lex_exp_sign (s ++ rest) = (sg, r ++ rest).
Proof.
  intros Hrest H. destruct s as [|c s].
  - injection H as <- <-. destruct rest as [|c r]; [reflexivity|].
    simpl in *. destruct (Z.eqb_spec c 43); [lia|].
    destruct (Z.eqb_spec c 45); [lia|reflexivity].
  - cbn [lex_exp_sign app] in *.
    destruct ((c =? 43) || (c =? 45)); now injection H as <- <-.
Qed.

Lemma lex_exp_app (s rest e r : jsstring) :
  stops rest -> lex_exp s = Some (e, r) -> lex_exp (s ++ rest) = Some (e, r ++ rest).
Proof.
  intros Hrest H. destruct s as [|c s].
  - injection H as <- <-. destruct rest as [|c r]; [reflexivity|].
    simpl in *. destruct (Z.eqb_spec c 101); [lia|].
    destruct (Z.eqb_spec c 69); [lia|reflexivity].
  - cbn [lex_exp app] in *. destruct ((c =? 101) || (c =? 69));
      [|now injection H as <- <-].
    destruct (lex_exp_sign s) as [sg t'] eqn:Es.
    rewrite (lex_exp_sign_app s rest sg t' Hrest Es).
    destruct (span_digits t') as [d r'] eqn:E.
    rewrite (span_digits_app t' rest d r' (stops_no_digit rest Hrest) E).
    destruct d; [discriminate|]. now injection H as <- <-.
Qed.

Lemma lex_number_app (s rest token r : jsstring) :
  stops rest ->
  lex_number s = Some (token, r) ->
  lex_number (s ++ rest) = Some (token, r ++ rest).
Proof.
  intros Hrest H. unfold lex_number in *.
  destruct (lex_sign s) as [sg s1] eqn:E0.
  rewrite (lex_sign_app s rest sg s1 Hrest E0).
  destruct (lex_int s1) as [[i s2]|] eqn:E1; [|discriminate].
  rewrite (lex_int_app s1 rest i s2 Hrest E1).
  destruct (lex_frac s2) as [[f s3]|] eqn:E2; [|discriminate].
  rewrite (lex_frac_app s2 rest f s3 Hrest E2).
  destruct (lex_exp s3) as [[e s4]|] eqn:E3; [|discriminate].
  rewrite (lex_exp_app s3 rest e s4 Hrest E3).
  now injection H as <- <-.
Qed.

Lemma span_digits_ascii (s d r : jsstring) :
  span_digits s = (d, r) -> Forall ascii_unit d.
Proof.
  revert d r; induction s as [|c s IH]; intros d r H; cbn [span_digits] in H.
  - injection H as <- <-. constructor.
  - destruct (is_digit c) eqn:Ec.
    + destruct (span_digits s) as [d' r'] eqn:E. injection H as <- <-.
      constructor; [|now apply (IH d' r')].
      unfold is_digit in Ec. unfold ascii_unit. lia.
    + injection H as <- <-. constructor.
Qed.

Lemma lex_number_token (s token r : jsstring) :
  lex_number s = Some (token, r) ->
  Forall ascii_unit token /\ exists c t, token = c :: t /\ number_start c.
Proof.
  unfold lex_number. intros H.
  destruct (lex_sign s) as [sg s1] eqn:E0.
  destruct (lex_int s1) as [[i s2]|] eqn:E1; [|discriminate].
  destruct (lex_frac s2) as [[f s3]|] eqn:E2; [|discriminate].
  destruct (lex_exp s3) as [[e s4]|] eqn:E3; [|discriminate].
  injection H as <- <-.
  assert (A0 : Forall ascii_unit sg /\ (sg = [] \/ sg = [45])).
  { destruct s as [|c s]; [injection E0 as <- <-; auto|].
    cbn [lex_sign] in E0. destruct (Z.eqb_spec c 45) as [->|];
      injection E0 as <- <-; [|auto].
    split; [|now right]. repeat constructor; unfold ascii_unit; lia. }
  assert (A1 : Forall ascii_unit i /\ exists c t, i = c :: t /\ 48 <= c <= 57).
  { destruct s1 as [|c s1]; [discriminate|]. cbn [lex_int] in E1.
    destruct (Z.eqb_spec c 48) as [->|].
    - injection E1 as <- <-. split; [repeat constructor; unfold ascii_unit; lia|].
      exists 48, []. split; [reflexivity|lia].
    - destruct (is_digit c) eqn:Ec; [|discriminate].
      destruct (span_digits s1) as [d r'] eqn:E. injection E1 as <- <-.
      unfold is_digit in Ec. split.
      + constructor; [unfold ascii_unit; lia|now apply (span_digits_ascii s1 d r')].
      + exists c, d. split; [reflexivity|lia]. }
  assert (A2 : Forall ascii_unit f).
  { destruct s2 as [|c s2]; [injection E2 as <- <-; constructor|].
    cbn [lex_frac] in E2. destruct (Z.eqb_spec c 46) as [->|];
      [|injection E2 as <- <-; constructor].
    destruct (span_digits s2) as [d r'] eqn:E.
    destruct d as [|d0 d]; [discriminate|]. injection E2 as <- <-.
    constructor; [unfold ascii_unit; lia|now apply (span_digits_ascii s2 _ r')]. }
  assert (A3 : Forall ascii_unit e).
  { destruct s3 as [|c s3]; [injection E3 as <- <-; constructor|].
    cbn [lex_exp] in E3. destruct ((c =? 101) || (c =? 69)) eqn:Ec;
      [|injection E3 as <- <-; constructor].
    destruct (lex_exp_sign s3) as [sg' t'] eqn:Es.
    destruct (span_digits t') as [d r'] eqn:E.
    destruct d as [|d0 d]; [discriminate|]. injection E3 as <- <-.
    constructor; [unfold ascii_unit; lia|]. apply Forall_app. split.
    - destruct s3 as [|c' s3]; [injection Es as <- <-; constructor|].
      cbn [lex_exp_sign] in Es. destruct ((c' =? 43) || (c' =? 45)) eqn:Ec';
        injection Es as <- <-; [|constructor].
      constructor; [unfold ascii_unit; lia|constructor].
    - now apply (span_digits_ascii t' _ r'). }
  destruct A0 as [A0 S0]. destruct A1 as [A1 (c & t & -> & Hc)]. split.
  - repeat (apply Forall_app; split); assumption.
  - destruct S0 as [->| ->].
    + exists c, (t ++ f ++ e). split; [reflexivity|right; exact Hc].
    + exists 45, ((c :: t) ++ f ++ e). split; [reflexivity|now left].
Qed.

Lemma value_induction (Q : value -> Prop) :
  Q VUndefined -> Q VNull -> (forall b, Q (VBoolean b)) ->
  (forall x, Q (VNumber x)) -> (forall s, Q (VString s)) ->
  (forall arr, Forall Q arr -> Q (VArray arr)) ->
  (forall obj, Forall (fun kv => Q (snd kv)) obj -> Q (VObject obj)) ->
  Q VFunction -> Q VSymbol -> (forall z, Q (VBigInt z)) ->
  forall v, Q v.
Proof.
  intros H1 H2 H3 H4 H5 Harr Hobj H6 H7 H8. fix IH 1.
  intros [ | | b | x | s | arr | obj | | | z];
    [exact H1|exact H2|apply H3|apply H4|apply H5| | |exact H6|exact H7|apply H8].
  - apply Harr. induction arr as [|v arr IHarr]; constructor;
      [apply IH|exact IHarr].
  - apply Hobj. induction obj as [|[k v] obj IHobj]; constructor;
      [apply IH|exact IHobj].
Qed.

Lemma skip_whitespace_start (c : Z) (t : jsstring) :
  value_start c -> skip_whitespace (c :: t) = c :: t.
Proof.
  intros H. unfold value_start in H. cbn [skip_whitespace]. unfold is_whitespace.
  destruct (Z.eqb_spec c 32); [lia|]. destruct (Z.eqb_spec c 9); [lia|].
  destruct (Z.eqb_spec c 10); [lia|]. destruct (Z.eqb_spec c 13); [lia|].
  reflexivity.
Qed.

Lemma skip_whitespace_stop (c : Z) (t : jsstring) :
  c = 44 \/ c = 93 \/ c = 125 \/ c = 58 ->
  skip_whitespace (c :: t) = c :: t.
Proof.
  intros H. cbn [skip_whitespace]. unfold is_whitespace.
  destruct (Z.eqb_spec c 32); [lia|]. destruct (Z.eqb_spec c 9); [lia|].
  destruct (Z.eqb_spec c 10); [lia|]. destruct (Z.eqb_spec c 13); [lia|].
  reflexivity.
Qed.

Lemma well_formed_join (parts : list jsstring) :
  Forall (fun p => well_formed p = true) parts ->
  well_formed (join (js ",") parts) = true.
Proof.
  induction 1 as [|p parts Hp Hparts IH]; [reflexivity|].
  destruct parts as [|q parts]; [exact Hp|].
  change (join (js ",") (p :: q :: parts))
    with (p ++ js "," ++ join (js ",") (q :: parts)).
  apply well_formed_app; [exact Hp|]. apply well_formed_app; [reflexivity|exact IH].
Qed.

Lemma lower_hex_ascii (d : Z) : ascii_unit (lower_hex d).
Proof.
  unfold lower_hex.
  assert (H : forall n, ascii_unit (nth n (js "0123456789abcdef") 0)).
  { intros n. do 17 (destruct n as [|n]; [unfold ascii_unit; simpl; lia|]).
    destruct n; unfold ascii_unit; simpl; lia. }
  apply H.
Qed.

Lemma spec_escape_shape (c : Z) :
  Forall ascii_unit (spec_escape c) \/ spec_escape c = [c].
Proof.
  unfold spec_escape.
  repeat (match goal with |- context [if ?a =? ?b then _ else _] =>
            destruct (a =? b);
            [left; repeat constructor; unfold ascii_unit; simpl; lia|] end).
  destruct (c <? 32); [left|now right].
  apply Forall_app. split.
  - repeat constructor; unfold ascii_unit; simpl; lia.
  - unfold four_hex_digits. repeat constructor; apply lower_hex_ascii.
Qed.

Lemma spec_escape_surrogate (c : Z) : 0xD800 <= c -> spec_escape c = [c].
Proof.
  intros H. unfold spec_escape.
  repeat (match goal with |- context [?a =? ?b] =>
            destruct (Z.eqb_spec a b); [lia|] end).
  destruct (Z.ltb_spec c 32); [lia|reflexivity].
Qed.

Lemma well_formed_escape (s b : jsstring) :
  well_formed s = true -> well_formed b = true ->
  well_formed (flat_map spec_escape s ++ b) = true.
Proof.
  induction s as [| c | c1 c2 t IH1 IH2] using pairwise_ind; intros Hs Hb.
  - exact Hb.
  - cbn [flat_map]. rewrite app_nil_r.
    destruct (spec_escape_shape c) as [A| ->].
    + apply well_formed_app; [now apply well_formed_ascii|exact Hb].
    + now apply (well_formed_app [c]).
  - destruct (surrogate_cases c1) as [[Hh Hr]|[Hh _]].
    + apply well_formed_pair in Hs as (c2' & t' & E & Hl & Ht); [|exact Hh].
      injection E as <- <-. cbn [flat_map].
      pose proof Hl as Hl'. unfold is_low_surrogate in Hl'.
      rewrite !spec_escape_surrogate by lia.
      cbn [app well_formed]. rewrite Hh, Hl. cbn [andb]. now apply IH1.
    + pose proof Hs as Hs'.
      apply well_formed_unit in Hs as (Hr & Hl & Ht); [|exact Hh].
      change (flat_map spec_escape (c1 :: c2 :: t))
        with (spec_escape c1 ++ flat_map spec_escape (c2 :: t)).
      rewrite <- app_assoc. destruct (spec_escape_shape c1) as [A| ->].
      * apply well_formed_app; [now apply well_formed_ascii|now apply IH2].
      * cbn [app well_formed]. rewrite Hh, Hl, (IH2 Ht Hb).
        destruct (Z.leb_spec 0 c1); [|lia].
        destruct (Z.ltb_spec c1 65536); [|lia]. reflexivity.
Qed.

Section RoundTrip.

Context {P : Platform}.

Lemma parse_value_string (fuel : nat) (t : jsstring) :
  parse_value (S fuel) (QUOTE :: t)
  = match parse_chars t with
    | Some (str, r) => Some (VString str, r)
    | None => None
    end.
Proof. reflexivity. Qed.

Lemma parse_value_array (fuel : nat) (t : jsstring) :
  parse_value (S fuel) (91 :: t)
  = match expect 93 (skip_whitespace t) with
    | Some r => Some (VArray [], r)
    | None =>
        match parse_elements fuel t with
        | Some (elements, r) => Some (VArray elements, r)
        | None => None
        end
    end.
Proof. reflexivity. Qed.

Lemma parse_value_object (fuel : nat) (t : jsstring) :
  parse_value (S fuel) (123 :: t)
  = match expect 125 (skip_whitespace t) with
    | Some r => Some (VObject [], r)
    | None =>
        match parse_members fuel t with
        | Some (members, r) => Some (VObject (build_object members), r)
        | None => None
        end
    end.
Proof. reflexivity. Qed.

Lemma parse_value_number (fuel : nat) (c : Z) (t : jsstring) :
  number_start c ->
  parse_value (S fuel) (c :: t)
  = match lex_number (c :: t) with
    | Some (token, r) => Some (VNumber (StringToNumber token), r)
    | None => None
    end.
Proof.
  intros H. unfold number_start in H. cbn [parse_value].
  rewrite skip_whitespace_start by (unfold value_start; lia).
  unfold QUOTE.
  repeat (match goal with |- context [if ?a =? ?b then _ else _] =>
            destruct (Z.eqb_spec a b); [lia|] end).
  reflexivity.
Qed.

Lemma parse_elements_unfold (fuel : nat) (s : jsstring) :
  parse_elements (S fuel) s
  = match parse_value fuel s with
    | None => None
    | Some (v, r) =>
        match skip_whitespace r with
        | c :: r' =>
            if c =? 44 then
              match parse_elements fuel r' with
              | Some (vs, r'') => Some (v :: vs, r'')
              | None => None
              end
            else if c =? 93 then Some ([v], r')
            else None
        | [] => None
        end
    end.
Proof. reflexivity. Qed.

Lemma good_literal (word : string) (v : value) :
  (forall fuel rest, parse_value (S fuel) (js word ++ rest) = Some (v, rest)) ->
  canonicalizeValue v = Ok (js word) ->
  Forall ascii_unit (js word) ->
  (exists c t, js word = c :: t /\ value_start c) ->
  good (js word).
Proof.
  intros Hp Hc Ha Hs. split; [now apply well_formed_ascii|]. split; [exact Hs|].
  intros rest fuel _ Hf. destruct fuel as [|fuel]; [lia|].
  exists v. split; [apply Hp|exact Hc].
Qed.

Lemma good_null : good (js "null").
Proof.
  apply (good_literal "null" VNull); try reflexivity.
  - repeat constructor; unfold ascii_unit; simpl; lia.
  - do 2 eexists. split; [reflexivity|]. unfold value_start. simpl. lia.
Qed.

Lemma good_true : good (js "true").
Proof.
  apply (good_literal "true" (VBoolean true)); try reflexivity.
  - repeat constructor; unfold ascii_unit; simpl; lia.
  - do 2 eexists. split; [reflexivity|]. unfold value_start. simpl. lia.
Qed.

Lemma good_false : good (js "false").
Proof.
  apply (good_literal "false" (VBoolean false)); try reflexivity.
  - repeat constructor; unfold ascii_unit; simpl; lia.
  - do 2 eexists. split; [reflexivity|]. unfold value_start. simpl. lia.
Qed.

Lemma good_number (x : number) (text : jsstring) :
  number_law x = true -> canonicalizeNumber x = Ok text -> good text.
Proof.
  unfold number_law. intros Hl Hx. rewrite Hx in Hl.
  apply andb_true_iff in Hl as [H1 H2].
  destruct (lex_number text) as [[token r]|] eqn:El; [|discriminate].
  destruct r; [|discriminate]. apply jsstring_eqb_eq in H1. subst token.
  destruct (canonicalizeNumber (StringToNumber text)) as [text'|] eqn:Ec;
    [|discriminate].
  apply jsstring_eqb_eq in H2. subst text'.
  destruct (lex_number_token _ _ _ El) as [Ha (c & t & -> & Hc)].
  split; [now apply well_formed_ascii|]. split.
  { exists c, t. split; [reflexivity|]. unfold value_start, number_start in *. lia. }
  intros rest fuel Hs Hf. destruct fuel as [|fuel]; [lia|].
  exists (VNumber (StringToNumber (c :: t))). split; [|exact Ec].
  change ((c :: t) ++ rest) with (c :: (t ++ rest)).
  rewrite parse_value_number by exact Hc.
  change (c :: (t ++ rest)) with ((c :: t) ++ rest).
  now rewrite (lex_number_app _ rest _ _ Hs El).
Qed.

Lemma good_string (s : jsstring) :
  string_law s = true -> good (canonicalizeString s).
Proof.
  unfold string_law. intros H. apply andb_true_iff in H as [Hw Hi].
  apply jsstring_eqb_eq in Hi. rewrite canonicalizeString_flat_map.
  split; [|split].
  - apply (well_formed_app [QUOTE]); [reflexivity|].
    now apply well_formed_escape.
  - do 2 eexists. split; [reflexivity|]. unfold value_start, QUOTE. lia.
  - intros rest fuel _ Hf. destruct fuel as [|fuel]; [lia|].
    exists (VString (normalize_NFC s)). split.
    + cbn [app]. rewrite parse_value_string, <- app_assoc.
      cbn [app]. rewrite parse_chars_escape; [reflexivity|].
      now apply well_formed_nonnegative.
    + cbn [canonicalizeValue]. now rewrite canonicalizeString_flat_map, Hi.
Qed.

End RoundTrip.

Section Containers.

Context {P : Platform}.

Lemma join_start (c : Z) (t text : jsstring) (parts : list jsstring) :
  text = c :: t -> exists tail, join (js ",") (text :: parts) = c :: tail.
Proof. intros ->. destruct parts; eexists; reflexivity. Qed.

Lemma join_two (p q : jsstring) (parts : list jsstring) :
  join (js ",") (p :: q :: parts) = p ++ 44 :: join (js ",") (q :: parts).
Proof. reflexivity. Qed.

Lemma parse_elements_join (texts : list jsstring) :
  Forall good texts ->
  texts <> [] ->
  forall rest fuel,
    (2 * length (join (js ",") texts) + 3 <= fuel)%nat ->
    exists vs,
      parse_elements fuel (join (js ",") texts ++ 93 :: rest) = Some (vs, rest)
      /\ mapM canonicalizeValue vs = Ok texts.
Proof.
  induction 1 as [|text texts Hg Hgs IH]; intros Hne rest fuel Hf; [contradiction|].
  destruct fuel as [|fuel]; [lia|]. rewrite parse_elements_unfold.
  destruct Hg as (_ & _ & Hread).
  destruct texts as [|text2 texts].
  - cbn [join] in *.
    destruct (Hread (93 :: rest) fuel) as (v' & Hp & Hc); [simpl; lia|lia|].
    rewrite Hp, skip_whitespace_stop by lia. cbn [Z.eqb Pos.eqb].
    exists [v']. split; [reflexivity|]. cbn [mapM]. now rewrite Hc.
  - rewrite join_two in *. rewrite <- app_assoc. cbn [app].
    rewrite length_app in Hf. cbn [length] in Hf.
    destruct (Hread (44 :: join (js ",") (text2 :: texts) ++ 93 :: rest) fuel)
      as (v' & Hp & Hc); [simpl; lia|lia|].
    rewrite Hp, skip_whitespace_stop by lia. cbn [Z.eqb Pos.eqb].
    destruct (IH ltac:(discriminate) rest fuel) as (vs & Hps & Hcs); [lia|].
    rewrite Hps. exists (v' :: vs). split; [reflexivity|].
    cbn [mapM]. now rewrite Hc, Hcs.
Qed.

Lemma good_array (texts : list jsstring) :
  Forall good texts -> good (js "[" ++ join (js ",") texts ++ js "]").
Proof.
  intros Hg. split; [|split].
  - apply (well_formed_app (js "[")); [reflexivity|].
    apply well_formed_app; [|reflexivity]. apply well_formed_join.
    eapply Forall_impl; [|exact Hg]. now intros text (Hw & _).
  - do 2 eexists. split; [reflexivity|]. unfold value_start. simpl. lia.
  - intros rest fuel _ Hf. destruct fuel as [|fuel]; [lia|].
    change ((js "[" ++ join (js ",") texts ++ js "]") ++ rest)
      with (91 :: ((join (js ",") texts ++ js "]") ++ rest)).
    rewrite <- app_assoc. change (js "]" ++ rest) with (93 :: rest).
    rewrite parse_value_array. destruct texts as [|text texts].
    + exists (VArray []). split; reflexivity.
    + destruct (Forall_inv Hg) as (_ & (c & t & Etext & Hc) & _).
      destruct (join_start c t text texts Etext) as [tail Et].
      assert (Hx : expect 93 (skip_whitespace
                                (join (js ",") (text :: texts) ++ 93 :: rest)) = None).
      { rewrite Et. cbn [app]. rewrite skip_whitespace_start by exact Hc.
        unfold value_start in Hc. cbn [expect].
        destruct (Z.eqb_spec c 93); [lia|reflexivity]. }
      rewrite Hx.
      destruct (parse_elements_join _ Hg ltac:(discriminate) rest fuel)
        as (vs & Hp & Hc').
      { rewrite !length_app in Hf. change (length (js "[")) with 1%nat in Hf.
        change (length (js "]")) with 1%nat in Hf. lia. }
      rewrite Hp. exists (VArray vs). split; [reflexivity|].
      cbn [canonicalizeValue]. unfold canonicalizeArray_with.
      now rewrite Hc'.
Qed.

End Containers.

(** ** Objects read back *)

Lemma insert_index_perm {T : Type} (obj : list (jsstring * T)) (i : Z)
  (k : jsstring) (v : T) :
  Permutation (insert_index obj i k v) ((k, v) :: obj).
Proof.
  induction obj as [|[k' v'] obj IH]; cbn [insert_index]; [reflexivity|].
  destruct (array_index k') as [j|]; [|reflexivity].
  destruct (j <? i); [|reflexivity]. rewrite IH. apply perm_swap.
Qed.

Lemma has_key_false {T : Type} (obj : list (jsstring * T)) (k : jsstring) :
  ~ In k (map fst obj) -> has_key obj k = false.
Proof.
  intros H. unfold has_key. destruct (existsb _ obj) eqn:E; [|reflexivity].
  apply existsb_exists in E as (kv & Hin & He). apply jsstring_eqb_eq in He.
  exfalso. apply H. rewrite <- He. now apply in_map.
Qed.

Lemma CreateDataProperty_perm {T : Type} (obj : list (jsstring * T))
  (k : jsstring) (v : T) :
  ~ In k (map fst obj) ->
  Permutation (CreateDataProperty obj k v) (obj ++ [(k, v)]).
Proof.
  intros H. unfold CreateDataProperty. rewrite has_key_false by exact H.
  destruct (array_index k); [|reflexivity].
  rewrite insert_index_perm. apply Permutation_cons_append.
Qed.

Lemma build_object_perm {T : Type} (members : list (jsstring * T)) :
  NoDup (map fst members) -> Permutation (build_object members) members.
Proof.
  unfold build_object.
  assert (G : forall ms acc : list (jsstring * T),
             NoDup (map fst (acc ++ ms)) ->
             Permutation
               (fold_left (fun obj kv => CreateDataProperty obj (fst kv) (snd kv)) ms acc)
               (acc ++ ms)).
  { induction ms as [|[k v] ms IH]; intros acc Hn; cbn [fold_left].
    - now rewrite app_nil_r.
    - assert (Hk : ~ In k (map fst acc)).
      { rewrite map_app in Hn. cbn [map fst] in Hn.
        apply NoDup_remove_2 in Hn. intros Hin. apply Hn.
        apply in_or_app. now left. }
      pose proof (CreateDataProperty_perm acc k v Hk) as Hp. cbn [fst snd].
      rewrite IH.
      + rewrite Hp, <- app_assoc. reflexivity.
      + eapply Permutation_NoDup; [|exact Hn].
        rewrite Hp, <- app_assoc. reflexivity. }
  intros Hn. apply (G members []). exact Hn.
Qed.

Section ObjectsReadBack.

Context {P : Platform}.

Lemma parse_members_unfold (fuel : nat) (t : jsstring) :
  parse_members (S fuel) (QUOTE :: t)
  = match parse_chars t with
    | None => None
    | Some (k, r) =>
        match skip_whitespace r with
        | c' :: r' =>
            if c' =? 58 then
              match parse_value fuel r' with
              | None => None
              | Some (v, r'') =>
                  match skip_whitespace r'' with
                  | c'' :: r3 =>
                      if c'' =? 44 then
                        match parse_members fuel r3 with
                        | Some (ms, r4) => Some ((k, v) :: ms, r4)
                        | None => None
                        end
                      else if c'' =? 125 then Some ([(k, v)], r3)
                      else None
                  | [] => None
                  end
              end
            else None
        | [] => None
        end
    end.
Proof. reflexivity. Qed.

Lemma member_shape (key text tail : jsstring) :
  normalize_NFC key = key ->
  member key text ++ tail
  = QUOTE :: flat_map spec_escape key ++ QUOTE :: 58 :: text ++ tail.
Proof.
  intros H. unfold member. rewrite canonicalizeString_flat_map, H.
  cbn [app]. rewrite <- !app_assoc. reflexivity.
Qed.

Lemma parse_member (fuel : nat) (key text tail : jsstring) :
  normalize_NFC key = key ->
  well_formed key = true ->
  parse_members (S fuel) (member key text ++ tail)
  = match parse_value fuel (text ++ tail) with
    | None => None
    | Some (v, r'') =>
        match skip_whitespace r'' with
        | c'' :: r3 =>
            if c'' =? 44 then
              match parse_members fuel r3 with
              | Some (ms, r4) => Some ((key, v) :: ms, r4)
              | None => None
              end
            else if c'' =? 125 then Some ([(key, v)], r3)
            else None
        | [] => None
        end
    end.
Proof.
  intros Hn Hw. rewrite member_shape by exact Hn.
  rewrite parse_members_unfold, parse_chars_escape
    by now apply well_formed_nonnegative.
  rewrite skip_whitespace_stop by lia. reflexivity.
Qed.

Lemma member_well_formed (key text : jsstring) :
  normalize_NFC key = key -> well_formed key = true -> well_formed text = true ->
  well_formed (member key text) = true.
Proof.
  intros Hn Hk Ht. rewrite <- (app_nil_r (member key text)), member_shape by exact Hn.
  apply (well_formed_app [QUOTE]); [reflexivity|].
  apply well_formed_escape; [exact Hk|].
  apply (well_formed_app [QUOTE; 58]); [reflexivity|]. now rewrite app_nil_r.
Qed.

Lemma member_start (key text : jsstring) :
  exists tail, member key text = QUOTE :: tail.
Proof.
  unfold member. rewrite canonicalizeString_flat_map. eexists. reflexivity.
Qed.

Lemma write_members_cons (F : jsstring -> result jsstring) (key : jsstring)
  (keys : list jsstring) (members : list jsstring) :
  write_members F (key :: keys) = Ok members ->
  exists text members',
    F key = Ok text /\ write_members F keys = Ok members'
    /\ members = member key text :: members'.
Proof.
  unfold write_members. cbn [mapM]. intros H.
  destruct (F key) as [text|]; cbn [bind] in H; [|discriminate].
  destruct (mapM _ keys) as [members'|]; cbn [bind] in H; [|discriminate].
  injection H as <-. now exists text, members'.
Qed.

Lemma write_members_well_formed (F : jsstring -> result jsstring)
  (keys members : list jsstring) :
  write_members F keys = Ok members ->
  (forall key, In key keys -> well_formed key = true /\ normalize_NFC key = key) ->
  (forall key text, In key keys -> F key = Ok text -> good text) ->
  Forall (fun m => well_formed m = true) members.
Proof.
  revert members; induction keys as [|key keys IH]; intros members Hm Hk Hg.
  - injection Hm as <-. constructor.
  - apply write_members_cons in Hm as (text & members' & HF & Hm' & ->).
    constructor.
    + destruct (Hk key (or_introl eq_refl)) as [Hw Hn].
      destruct (Hg key text (or_introl eq_refl) HF) as (Ht & _).
      now apply member_well_formed.
    + apply IH; [exact Hm'| |]; intros; [apply Hk|eapply Hg]; try (right; eassumption);
        eassumption.
Qed.

Lemma parse_members_join (F : jsstring -> result jsstring)
  (keys members : list jsstring) :
  write_members F keys = Ok members ->
  (forall key, In key keys -> well_formed key = true /\ normalize_NFC key = key) ->
  (forall key text, In key keys -> F key = Ok text -> good text) ->
  keys <> [] ->
  forall rest fuel,
    (2 * length (join (js ",") members) + 3 <= fuel)%nat ->
    exists ms,
      parse_members fuel (join (js ",") members ++ 125 :: rest) = Some (ms, rest)
      /\ map fst ms = keys
      /\ Forall2 (fun key kv => canonicalizeValue (snd kv) = F key) keys ms.
Proof.
  revert members; induction keys as [|key keys IH];
    intros members Hm Hk Hg Hne rest fuel Hf; [contradiction|].
  apply write_members_cons in Hm as (text & members' & HF & Hm' & ->).
  destruct (Hk key (or_introl eq_refl)) as [Hw Hn].
  destruct (Hg key text (or_introl eq_refl) HF) as (_ & _ & Hread).
  destruct fuel as [|fuel]; [lia|].
  assert (Hlen : (length text <= length (member key text))%nat).
  { unfold member. rewrite !length_app. lia. }
  destruct keys as [|key2 keys].
  - injection Hm' as <-. cbn [join] in *.
    rewrite parse_member by assumption.
    destruct (Hread (125 :: rest) fuel) as (v' & Hp & Hc); [simpl; lia|lia|].
    rewrite Hp, skip_whitespace_stop by lia. cbn [Z.eqb Pos.eqb].
    exists [(key, v')]. split; [reflexivity|]. split; [reflexivity|].
    constructor; [|constructor]. cbn [snd]. now rewrite Hc, HF.
  - pose proof Hm' as Hm2.
    apply write_members_cons in Hm2 as (text2 & members2 & _ & _ & E2).
    rewrite E2 in *. rewrite join_two in *. rewrite <- app_assoc. cbn [app].
    rewrite length_app in Hf. cbn [length] in Hf.
    rewrite parse_member by assumption.
    destruct (Hread (44 :: join (js ",") (member key2 text2 :: members2)
                        ++ 125 :: rest) fuel)
      as (v' & Hp & Hc); [simpl; lia|lia|].
    rewrite Hp, skip_whitespace_stop by lia. cbn [Z.eqb Pos.eqb].
    destruct (IH _ Hm') with (rest := rest) (fuel := fuel)
      as (ms & Hps & Hfst & Hvs).
    + intros k Hin. apply Hk. now right.
    + intros k t Hin. apply Hg. now right.
    + discriminate.
    + lia.
    + rewrite Hps. exists ((key, v') :: ms). split; [reflexivity|].
      split; [cbn [map fst]; now rewrite Hfst|].
      constructor; [|exact Hvs]. cbn [snd]. now rewrite Hc, HF.
Qed.

End ObjectsReadBack.

Lemma distinct_NoDup (l : list jsstring) : distinct l = true -> NoDup l.
Proof.
  induction l as [|k l IH]; cbn [distinct]; intros H; constructor.
  - apply andb_true_iff in H as [H _]. apply negb_true_iff in H.
    intros Hin. assert (E : existsb (jsstring_eqb k) l = true); [|congruence].
    apply existsb_exists. exists k. split; [exact Hin|apply jsstring_eqb_refl].
  - apply andb_true_iff in H as [_ H]. now apply IH.
Qed.

Lemma Forall2_members {T : Type} (Q : T -> jsstring -> Prop)
  (keys : list jsstring) (ms : list (jsstring * T)) :
  map fst ms = keys ->
  Forall2 (fun key kv => Q (snd kv) key) keys ms ->
  forall key, In key keys -> exists v, In (key, v) ms /\ Q v key.
Proof.
  intros Hfst H. revert Hfst.
  induction H as [|key' [k v] keys ms Hq _ IH]; intros Hfst key Hin; [contradiction|].
  cbn [map fst] in Hfst. injection Hfst as -> Hfst. destruct Hin as [->|Hin].
  - exists v. split; [now left|exact Hq].
  - destruct (IH Hfst key Hin) as (v' & Hin' & Hq'). exists v'.
    split; [now right|exact Hq'].
Qed.

Lemma Array_sort_sorted_keys (l : list jsstring) :
  Array_sort compareKeys (Array_sort compareKeys l) = Array_sort compareKeys l.
Proof.
  apply (sorted_unique (fun a b => compareKeys a b <= 0)).
  - intros a b H1 H2. apply compareKeys_eq.
    rewrite (compareKeys_antisym a b) in H2. lia.
  - apply Array_sort_sorted; [apply compareKeys_total|apply compareKeys_trans].
  - apply Array_sort_sorted; [apply compareKeys_total|apply compareKeys_trans].
  - apply Array_sort_perm.
Qed.

Section RoundTripTheorem.

Context {P : Platform}.

Lemma good_object (obj : list (jsstring * value)) (text : jsstring) :
  NoDup (map normalize_NFC (Object_keys obj)) ->
  (forall k v, In (k, v) obj ->
     string_law k = true
     /\ forall text, canonicalizeValue v = Ok text -> good text) ->
  canonicalizeObject obj = Ok text ->
  good text.
Proof.
  intros Hn Hprops Hc.
  set (F := fun key => canonicalizeValue (original_value VUndefined obj key)).
  set (keys := sorted_keys obj).
  assert (Hm : exists members,
             write_members F keys = Ok members
             /\ text = js "{" ++ join (js ",") members ++ js "}").
  { assert (Hc' : (pairs <- write_members F keys ;;
                   Ok (js "{" ++ join (js ",") pairs ++ js "}")) = Ok text)
      by exact Hc.
    destruct (write_members F keys) as [members|]; [|discriminate].
    injection Hc' as <-. now exists members. }
  destruct Hm as (members & Hm & ->).
  assert (Hkeys : forall key, In key keys ->
            exists k v, In (k, v) obj /\ key = normalize_NFC k).
  { intros key Hin.
    assert (Hk : In key (map normalize_NFC (Object_keys obj)))
      by (eapply Permutation_in; [apply sorted_keys_perm|exact Hin]).
    apply in_map_iff in Hk as (k & <- & Hk). unfold Object_keys in Hk.
    apply in_map_iff in Hk as ([k' v] & Ek & Hkv). simpl in Ek. subst k'.
    now exists k, v. }
  assert (HK : forall key, In key keys ->
            well_formed key = true /\ normalize_NFC key = key).
  { intros key Hin. destruct (Hkeys key Hin) as (k & v & Hkv & ->).
    destruct (Hprops k v Hkv) as [Hs _]. unfold string_law in Hs.
    apply andb_true_iff in Hs as [Hw Hi]. now apply jsstring_eqb_eq in Hi. }
  assert (HG : forall key text, In key keys -> F key = Ok text -> good text).
  { intros key text Hin HF. destruct (Hkeys key Hin) as (k & v & Hkv & ->).
    destruct (Hprops k v Hkv) as [_ Hv]. apply Hv. unfold F in HF.
    now rewrite (original_value_In VUndefined obj k v Hn Hkv) in HF. }
  assert (Hnk : NoDup keys).
  { eapply Permutation_NoDup; [|exact Hn]. symmetry. apply sorted_keys_perm. }
  assert (Hid : map normalize_NFC keys = keys).
  { rewrite <- (map_id keys) at 2. apply map_ext_in. intros key Hin.
    now destruct (HK key Hin). }
  split; [|split].
  - apply (well_formed_app (js "{")); [reflexivity|].
    apply well_formed_app; [|reflexivity]. apply well_formed_join.
    now apply (write_members_well_formed F keys).
  - do 2 eexists. split; [reflexivity|]. unfold value_start. simpl. lia.
  - intros rest fuel _ Hf. destruct fuel as [|fuel]; [lia|].
    change ((js "{" ++ join (js ",") members ++ js "}") ++ rest)
      with (123 :: ((join (js ",") members ++ js "}") ++ rest)).
    rewrite <- app_assoc. change (js "}" ++ rest) with (125 :: rest).
    rewrite parse_value_object. destruct keys as [|key keys'] eqn:Ekeys.
    + injection Hm as <-. exists (VObject []). split; reflexivity.
    + assert (Hx : expect 125 (skip_whitespace
                                 (join (js ",") members ++ 125 :: rest)) = None).
      { destruct (write_members_cons F key keys' members Hm)
          as (text & members' & _ & _ & ->).
        destruct (member_start key text) as [tail Et].
        destruct (join_start QUOTE tail _ members' Et) as [tail' Et'].
        rewrite Et'. reflexivity. }
      rewrite Hx.
      destruct (parse_members_join F (key :: keys') members Hm HK HG
                  ltac:(discriminate) rest fuel)
        as (ms & Hp & Hfst & Hvs).
      { rewrite !length_app in Hf. change (length (js "{")) with 1%nat in Hf.
        change (length (js "}")) with 1%nat in Hf. lia. }
      rewrite Hp. exists (VObject (build_object ms)). split; [reflexivity|].
      assert (Hnm : NoDup (map normalize_NFC (Object_keys ms))).
      { unfold Object_keys. now rewrite Hfst, Hid. }
      assert (Hnf : NoDup (map fst ms)) by now rewrite Hfst.
      rewrite canonicalizeValue_object.
      rewrite <- (canonicalizeObject_permutation ms (build_object ms)
                    (Permutation_sym (build_object_perm ms Hnf)) Hnm).
      unfold canonicalizeObject, canonicalizeObject_with.
      assert (Es : sorted_keys ms = key :: keys').
      { unfold sorted_keys, Object_keys. rewrite Hfst, Hid.
        unfold keys in Ekeys. unfold sorted_keys in Ekeys.
        rewrite <- Ekeys. apply Array_sort_sorted_keys. }
      rewrite Es.
      assert (Ew : mapM (fun key0 =>
                   text0 <- canonicalizeValue (original_value VUndefined ms key0) ;;
                   Ok (canonicalizeString key0 ++ js ":" ++ text0)) (key :: keys')
                   = write_members F (key :: keys')).
      { apply mapM_ext. intros k Hin.
        destruct (Forall2_members (fun v k => canonicalizeValue v = F k)
                    (key :: keys') ms Hfst Hvs k Hin) as (v' & Hin' & Hq).
        pose proof (original_value_In VUndefined ms k v' Hnm Hin') as Ho.
        destruct (HK k Hin) as [_ Hnk']. rewrite Hnk' in Ho.
        now rewrite Ho, Hq. }
      rewrite Ew, Hm. reflexivity.
Qed.

(** Every conforming value has a canonical text that is well formed and
    that [JSON.parse] reads back as a value with the same canonical
    text. *)
Lemma conforming_good (v : value) :
  conforming v = true ->
  forall text, canonicalizeValue v = Ok text -> good text.
Proof.
  induction v as [ | | b | x | s | arr IH | obj IH | | | z] using value_induction;
    intros Hc text Ht; cbn [conforming] in Hc.
  - injection Ht as <-. apply good_null.
  - injection Ht as <-. apply good_null.
  - injection Ht as <-. destruct b; [apply good_true|apply good_false].
  - now apply (good_number x).
  - injection Ht as <-. now apply good_string.
  - cbn [canonicalizeValue] in Ht. unfold canonicalizeArray_with in Ht.
    destruct (mapM canonicalizeValue arr) as [texts|] eqn:Em; [|discriminate].
    injection Ht as <-. apply good_array.
    apply mapM_Ok_Forall2 in Em. rewrite forallb_forall in Hc.
    rewrite Forall_forall in IH.
    induction Em as [|v text arr texts Hv _ IHm]; constructor.
    + apply (IH v); [now left|apply Hc; now left|exact Hv].
    + apply IHm.
      * intros x' Hin. apply IH. now right.
      * intros x' Hin. apply Hc. now right.
  - rewrite canonicalizeValue_object in Ht.
    apply andb_true_iff in Hc as [Hd Hc]. rewrite forallb_forall in Hc.
    rewrite Forall_forall in IH.
    apply (good_object obj); [now apply distinct_NoDup| |exact Ht].
    intros k v Hin. specialize (Hc (k, v) Hin). cbn in Hc.
    apply andb_true_iff in Hc as [Hs Hv]. split; [exact Hs|].
    apply (IH (k, v) Hin Hv).
  - discriminate.
  - discriminate.
  - discriminate.
Qed.

(** On a platform that keeps the laws of the standards, every value of
    the Value Model is conforming. *)
Lemma number_law_of_laws (x : number) : number_text_laws -> number_law x = true.
Proof.
  intros [Hzero Hround]. unfold number_law.
  assert (Htext : forall y, Number_isFinite y = true ->
                    canonicalizeNumber y = Ok (Number_toString y)).
  { intros y Hy. destruct (Object_is_negative_zero y) eqn:Ez.
    - destruct y as [[|]| | |]; try discriminate.
      rewrite Hzero. reflexivity.
    - now apply canonicalizeNumber_finite. }
  destruct (Number_isFinite x) eqn:Hf.
  - rewrite (Htext x Hf). destruct (Hround x Hf) as (Hl & Hy & Ht).
    rewrite Hl, jsstring_eqb_refl, (Htext _ Hy), Ht, jsstring_eqb_refl.
    reflexivity.
  - unfold canonicalizeNumber. now rewrite Hf.
Qed.

Lemma string_law_of_laws (s : jsstring) :
  normalization_laws -> well_formed s = true -> string_law s = true.
Proof.
  intros H Hw. destruct (H s) as [Hi Hk]. unfold string_law.
  now rewrite (Hk Hw), Hi, jsstring_eqb_refl.
Qed.

Lemma valid_conforming (v : value) :
  normalization_laws -> number_text_laws ->
  valid v = true -> conforming v = true.
Proof.
  intros Hs Hx.
  induction v as [ | | b | x | s | arr IH | obj IH | | | z] using value_induction;
    cbn [valid conforming]; intros Hv; try reflexivity.
  - now apply number_law_of_laws.
  - now apply string_law_of_laws.
  - rewrite forallb_forall in *. rewrite Forall_forall in IH.
    intros v Hin. apply IH; [exact Hin|now apply Hv].
  - apply andb_true_iff in Hv as [Hd Hv]. rewrite Hd. cbn [andb].
    rewrite forallb_forall in *. rewrite Forall_forall in IH.
    intros [k v] Hin. specialize (Hv (k, v) Hin). cbn in Hv.
    apply andb_true_iff in Hv as [Hk Hv]. apply andb_true_iff. split.
    + now apply string_law_of_laws.
    + now apply (IH (k, v) Hin).
Qed.

(** C1, as amended. On a conforming value (the keys of each object stay
    distinct under NFC; the NFC form of each string and key is well
    formed and is its own NFC form; the text of each number is a number
    token that reads back as a number of the same text), the codec is
    idempotent: [canonicalizeBytes] of the canonical bytes succeeds and
    returns those bytes. *)
Theorem canonicalize_idempotent (v : value) (canonical : bytes) :
  conforming v = true ->
  canonicalize v = Ok canonical ->
  canonicalizeBytes canonical = Ok canonical.
Proof.
  intros Hc H. unfold canonicalize, canonicalizeToString in H.
  destruct (canonicalizeValue v) as [text|] eqn:Ht; [|discriminate].
  cbn [bind] in H. injection H as <-.
  destruct (conforming_good v Hc text Ht) as (Hw & (c & t & -> & Hs) & Hread).
  destruct (Hread [] (2 * length (c :: t) + 2)%nat I (Nat.le_refl _))
    as (v' & Hp & Hv').
  rewrite app_nil_r in Hp.
  unfold canonicalizeBytes. rewrite TextDecoder_TextEncoder.
  - unfold JSON_parse. rewrite Hp. cbn [skip_whitespace bind].
    unfold canonicalize, canonicalizeToString. now rewrite Hv'.
  - exact Hw.
  - unfold value_start in Hs. cbn [starts_with_BOM].
    destruct (Z.eqb_spec c 65279); [lia|reflexivity].
Qed.

End RoundTripTheorem.

(** ** The fuel of the parser is enough *)

Lemma skip_whitespace_length (s : jsstring) :
  (length (skip_whitespace s) <= length s)%nat.
Proof.
  induction s as [|c s IH]; cbn [skip_whitespace length]; [lia|].
  destruct (is_whitespace c); cbn [length]; lia.
Qed.

Lemma prepend_length (c : Z) (p : option (jsstring * jsstring)) (s r : jsstring) :
  prepend c p = Some (s, r) -> exists s', p = Some (s', r).
Proof.
  destruct p as [[s' r']|]; cbn [prepend]; [|discriminate].
  intros H. injection H as _ <-. now exists s'.
Qed.

Lemma parse_chars_length (s str r : jsstring) :
  parse_chars s = Some (str, r) -> (length r < length s)%nat.
Proof.
  revert str. induction s as [s IH] using (induction_ltof1 _ (@length Z)).
  unfold ltof in IH. intros str H. destruct s as [|c t]; [discriminate|].
  cbn [parse_chars] in H. destruct (c =? QUOTE).
  { injection H as _ <-. cbn [length]. lia. }
  destruct (c =? BACKSLASH).
  - destruct t as [|e t']; [discriminate|]. destruct (e =? 117).
    + destruct t' as [|h1 [|h2 [|h3 [|h4 t'']]]]; try discriminate.
      destruct (hex4 h1 h2 h3 h4); [|discriminate].
      apply prepend_length in H as (s' & H). apply IH in H; cbn [length] in *; lia.
    + destruct (unescape e); [|discriminate].
      apply prepend_length in H as (s' & H). apply IH in H; cbn [length] in *; lia.
  - destruct (c <? 32); [discriminate|].
    apply prepend_length in H as (s' & H). apply IH in H; cbn [length] in *; lia.
Qed.

Lemma span_digits_length (s d r : jsstring) :
  span_digits s = (d, r) -> (length r <= length s)%nat.
Proof.
  revert d r; induction s as [|c s IH]; intros d r H; cbn [span_digits] in H.
  - injection H as _ <-. cbn [length]. lia.
  - destruct (is_digit c).
    + destruct (span_digits s) as [d' r'] eqn:E. injection H as _ <-.
      specialize (IH d' r' eq_refl). cbn [length]. lia.
    + injection H as _ <-. lia.
Qed.

Lemma lex_number_length (s token r : jsstring) :
  lex_number s = Some (token, r) -> (length r < length s)%nat.
Proof.
  unfold lex_number. intros H.
  destruct (lex_sign s) as [sg s1] eqn:E0.
  assert (L0 : (length s1 <= length s)%nat).
  { destruct s as [|c s]; [injection E0 as _ <-; lia|]. cbn [lex_sign] in E0.
    destruct (c =? 45); injection E0 as _ <-; cbn [length]; lia. }
  destruct (lex_int s1) as [[i s2]|] eqn:E1; [|discriminate].
  assert (L1 : (length s2 < length s1)%nat).
  { destruct s1 as [|c s1]; [discriminate|]. cbn [lex_int] in E1.
    destruct (c =? 48); [injection E1 as _ <-; cbn [length]; lia|].
    destruct (is_digit c); [|discriminate].
    destruct (span_digits s1) as [d r'] eqn:E. injection E1 as _ <-.
    apply span_digits_length in E. cbn [length]. lia. }
  destruct (lex_frac s2) as [[f s3]|] eqn:E2; [|discriminate].
  assert (L2 : (length s3 <= length s2)%nat).
  { destruct s2 as [|c s2]; [injection E2 as _ <-; lia|]. cbn [lex_frac] in E2.
    destruct (c =? 46); [|injection E2 as _ <-; lia].
    destruct (span_digits s2) as [d r'] eqn:E. apply span_digits_length in E.
    destruct d; [discriminate|]. injection E2 as _ <-. cbn [length]. lia. }
  destruct (lex_exp s3) as [[e s4]|] eqn:E3; [|discriminate].
  assert (L3 : (length s4 <= length s3)%nat).
  { destruct s3 as [|c s3]; [injection E3 as _ <-; lia|]. cbn [lex_exp] in E3.
    destruct ((c =? 101) || (c =? 69)); [|injection E3 as _ <-; lia].
    destruct (lex_exp_sign s3) as [sg' t'] eqn:Es.
    assert (L : (length t' <= length s3)%nat).
    { destruct s3 as [|c' s3]; [injection Es as _ <-; lia|].
      cbn [lex_exp_sign] in Es. destruct ((c' =? 43) || (c' =? 45));
        injection Es as _ <-; cbn [length]; lia. }
    destruct (span_digits t') as [d r'] eqn:E. apply span_digits_length in E.
    destruct d; [discriminate|]. injection E3 as _ <-. cbn [length]. lia. }
  injection H as _ <-. lia.
Qed.

Lemma strip_prefix_length (word s r : jsstring) :
  strip_prefix word s = Some r -> (length r <= length s)%nat.
Proof.
  revert s; induction word as [|w word IH]; intros s H; cbn [strip_prefix] in H.
  - injection H as <-. lia.
  - destruct s as [|c s]; [discriminate|]. destruct (w =? c); [|discriminate].
    apply IH in H. cbn [length]. lia.
Qed.

Lemma expect_length (c : Z) (s r : jsstring) :
  expect c s = Some r -> (length r < length s)%nat.
Proof.
  destruct s as [|c' s]; cbn [expect]; [discriminate|].
  destruct (c' =? c); [|discriminate]. intros H. injection H as <-.
  cbn [length]. lia.
Qed.

Section Fuel.

Context {P : Platform}.

Lemma parse_value_unfold (fuel : nat) (s : jsstring) :
  parse_value (S fuel) s
  = match skip_whitespace s with
    | [] => None
    | c :: t =>
        if c =? 123 then
          match expect 125 (skip_whitespace t) with
          | Some r => Some (VObject [], r)
          | None =>
              match parse_members fuel t with
              | Some (members, r) => Some (VObject (build_object members), r)
              | None => None
              end
          end
        else if c =? 91 then
          match expect 93 (skip_whitespace t) with
          | Some r => Some (VArray [], r)
          | None =>
              match parse_elements fuel t with
              | Some (elements, r) => Some (VArray elements, r)
              | None => None
              end
          end
        else if c =? QUOTE then
          match parse_chars t with
          | Some (str, r) => Some (VString str, r)
          | None => None
          end
        else if c =? 110 then
          match strip_prefix (js "ull") t with
          | Some r => Some (VNull, r)
          | None => None
          end
        else if c =? 116 then
          match strip_prefix (js "rue") t with
          | Some r => Some (VBoolean true, r)
          | None => None
          end
        else if c =? 102 then
          match strip_prefix (js "alse") t with
          | Some r => Some (VBoolean false, r)
          | None => None
          end
        else
          match lex_number (c :: t) with
          | Some (token, r) => Some (VNumber (StringToNumber token), r)
          | None => None
          end
    end.
Proof. reflexivity. Qed.

Lemma parse_members_unfold_all (fuel : nat) (s : jsstring) :
  parse_members (S fuel) s
  = match skip_whitespace s with
    | c :: t =>
        if c =? QUOTE then
          match parse_chars t with
          | None => None
          | Some (k, r) =>
              match skip_whitespace r with
              | c' :: r' =>
                  if c' =? 58 then
                    match parse_value fuel r' with
                    | None => None
                    | Some (v, r'') =>
                        match skip_whitespace r'' with
                        | c'' :: r3 =>
                            if c'' =? 44 then
                              match parse_members fuel r3 with
                              | Some (ms, r4) => Some ((k, v) :: ms, r4)
                              | None => None
                              end
                            else if c'' =? 125 then Some ([(k, v)], r3)
                            else None
                        | [] => None
                        end
                    end
                  else None
              | [] => None
              end
          end
        else None
    | [] => None
    end.
Proof. reflexivity. Qed.

Lemma value_fuel_step (fuel : nat) :
  elements_fuel fuel -> members_fuel fuel -> value_fuel (S fuel).
Proof.
  intros IHe IHm s v r H. rewrite parse_value_unfold in H.
  pose proof (skip_whitespace_length s) as Ls.
  destruct (skip_whitespace s) as [|c t] eqn:Es; [discriminate|].
  cbn [length] in Ls.
  assert (K : forall body : option (value * jsstring),
            (forall fuel', parse_value (S fuel') s = body) ->
            body = Some (v, r) -> (length r < length s)%nat ->
            (length r < length s)%nat
            /\ forall fuel', (2 * (length s - length r) + 1 <= fuel')%nat ->
                             parse_value fuel' s = Some (v, r)).
  { intros body Hb Hv Hl. split; [exact Hl|]. intros [|fuel'] Hf; [lia|].
    now rewrite Hb. }
  destruct (c =? 123) eqn:C1.
  { pose proof (skip_whitespace_length t) as Lt.
    destruct (expect 125 (skip_whitespace t)) as [r0|] eqn:Ex.
    - injection H as <- <-. pose proof (expect_length _ _ _ Ex) as Lx.
      apply (K (Some (VObject [], r0))); [|reflexivity|lia].
      intros fuel'. now rewrite parse_value_unfold, Es, C1, Ex.
    - destruct (parse_members fuel t) as [[members r0]|] eqn:Em; [|discriminate].
      injection H as <- <-. destruct (IHm _ _ _ Em) as [Lr Hmore].
      split; [lia|]. intros [|fuel'] Hf; [lia|].
      rewrite parse_value_unfold, Es, C1, Ex, Hmore by lia. reflexivity. }
  destruct (c =? 91) eqn:C2.
  { pose proof (skip_whitespace_length t) as Lt.
    destruct (expect 93 (skip_whitespace t)) as [r0|] eqn:Ex.
    - injection H as <- <-. pose proof (expect_length _ _ _ Ex) as Lx.
      apply (K (Some (VArray [], r0))); [|reflexivity|lia].
      intros fuel'. now rewrite parse_value_unfold, Es, C1, C2, Ex.
    - destruct (parse_elements fuel t) as [[elements r0]|] eqn:Ee; [|discriminate].
      injection H as <- <-. destruct (IHe _ _ _ Ee) as [Lr Hmore].
      split; [lia|]. intros [|fuel'] Hf; [lia|].
      rewrite parse_value_unfold, Es, C1, C2, Ex, Hmore by lia. reflexivity. }
  destruct (c =? QUOTE) eqn:C3.
  { destruct (parse_chars t) as [[str r0]|] eqn:Ec; [|discriminate].
    injection H as <- <-. pose proof (parse_chars_length _ _ _ Ec) as Lc.
    apply (K (Some (VString str, r0))); [|reflexivity|lia].
    intros fuel'. now rewrite parse_value_unfold, Es, C1, C2, C3, Ec. }
  destruct (c =? 110) eqn:C4.
  { destruct (strip_prefix (js "ull") t) as [r0|] eqn:Ep; [|discriminate].
    injection H as <- <-. pose proof (strip_prefix_length _ _ _ Ep) as Lp.
    apply (K (Some (VNull, r0))); [|reflexivity|lia].
    intros fuel'. now rewrite parse_value_unfold, Es, C1, C2, C3, C4, Ep. }
  destruct (c =? 116) eqn:C5.
  { destruct (strip_prefix (js "rue") t) as [r0|] eqn:Ep; [|discriminate].
    injection H as <- <-. pose proof (strip_prefix_length _ _ _ Ep) as Lp.
    apply (K (Some (VBoolean true, r0))); [|reflexivity|lia].
    intros fuel'. now rewrite parse_value_unfold, Es, C1, C2, C3, C4, C5, Ep. }
  destruct (c =? 102) eqn:C6.
  { destruct (strip_prefix (js "alse") t) as [r0|] eqn:Ep; [|discriminate].
    injection H as <- <-. pose proof (strip_prefix_length _ _ _ Ep) as Lp.
    apply (K (Some (VBoolean false, r0))); [|reflexivity|lia].
    intros fuel'. now rewrite parse_value_unfold, Es, C1, C2, C3, C4, C5, C6, Ep. }
  destruct (lex_number (c :: t)) as [[token r0]|] eqn:El; [|discriminate].
  injection H as <- <-. pose proof (lex_number_length _ _ _ El) as Ll.
  cbn [length] in Ll.
  apply (K (Some (VNumber (StringToNumber token), r0))); [|reflexivity|lia].
  intros fuel'. now rewrite parse_value_unfold, Es, C1, C2, C3, C4, C5, C6, El.
Qed.

Lemma elements_fuel_step (fuel : nat) :
  value_fuel fuel -> elements_fuel fuel -> elements_fuel (S fuel).
Proof.
  intros IHv IHe s vs r H. rewrite parse_elements_unfold in H.
  destruct (parse_value fuel s) as [[v r1]|] eqn:Ev; [|discriminate].
  destruct (IHv _ _ _ Ev) as [L1 Hv].
  pose proof (skip_whitespace_length r1) as Lw.
  destruct (skip_whitespace r1) as [|c r'] eqn:Ew; [discriminate|].
  cbn [length] in Lw. destruct (c =? 44) eqn:C1.
  - destruct (parse_elements fuel r') as [[vs' r2]|] eqn:Ee; [|discriminate].
    injection H as <- <-. destruct (IHe _ _ _ Ee) as [L2 He].
    split; [lia|]. intros [|fuel'] Hf; [lia|].
    rewrite parse_elements_unfold, Hv, Ew, C1, He by lia. reflexivity.
  - destruct (c =? 93) eqn:C2; [|discriminate]. injection H as <- <-.
    split; [lia|]. intros [|fuel'] Hf; [lia|].
    rewrite parse_elements_unfold, Hv, Ew, C1, C2 by lia. reflexivity.
Qed.

Lemma members_fuel_step (fuel : nat) :
  value_fuel fuel -> members_fuel fuel -> members_fuel (S fuel).
Proof.
  intros IHv IHm s ms r H. rewrite parse_members_unfold_all in H.
  pose proof (skip_whitespace_length s) as Ls.
  destruct (skip_whitespace s) as [|c t] eqn:Es; [discriminate|].
  cbn [length] in Ls. destruct (c =? QUOTE) eqn:C1; [|discriminate].
  destruct (parse_chars t) as [[k r0]|] eqn:Ec; [|discriminate].
  pose proof (parse_chars_length _ _ _ Ec) as Lc.
  pose proof (skip_whitespace_length r0) as L0.
  destruct (skip_whitespace r0) as [|c' r'] eqn:E0; [discriminate|].
  cbn [length] in L0. destruct (c' =? 58) eqn:C2; [|discriminate].
  destruct (parse_value fuel r') as [[v r1]|] eqn:Ev; [|discriminate].
  destruct (IHv _ _ _ Ev) as [L1 Hv].
  pose proof (skip_whitespace_length r1) as Lw.
  destruct (skip_whitespace r1) as [|c'' r3] eqn:Ew; [discriminate|].
  cbn [length] in Lw. destruct (c'' =? 44) eqn:C3.
  - destruct (parse_members fuel r3) as [[ms' r4]|] eqn:Em; [|discriminate].
    injection H as <- <-. destruct (IHm _ _ _ Em) as [L2 Hm].
    split; [lia|]. intros [|fuel'] Hf; [lia|].
    rewrite parse_members_unfold_all, Es, C1, Ec, E0, C2, Hv, Ew, C3, Hm by lia.
    reflexivity.
  - destruct (c'' =? 125) eqn:C4; [|discriminate]. injection H as <- <-.
    split; [lia|]. intros [|fuel'] Hf; [lia|].
    rewrite parse_members_unfold_all, Es, C1, Ec, E0, C2, Hv, Ew, C3, C4 by lia.
    reflexivity.
Qed.

Lemma parse_fuel (fuel : nat) :
  value_fuel fuel /\ elements_fuel fuel /\ members_fuel fuel.
Proof.
  induction fuel as [|fuel (IHv & IHe & IHm)].
  - split; [|split]; intros s x r Hp; discriminate.
  - split; [now apply value_fuel_step|].
    split; [now apply elements_fuel_step|now apply members_fuel_step].
Qed.

(** [JSON_parse] gives the answer of the recursive descent with any fuel
    that lets the descent answer. *)
Lemma JSON_parse_fuel (fuel : nat) (str : jsstring) (v : value) (rest : jsstring) :
  parse_value fuel str = Some (v, rest) ->
  parse_value (2 * length str + 2) str = Some (v, rest).
Proof.
  intros H. destruct (parse_fuel fuel) as (Hv & _ & _).
  destruct (Hv _ _ _ H) as [L Hmore]. apply Hmore. lia.
Qed.

End Fuel.

(** ** The examples *)

(** The examples run on [Sample.platform]: it is the platform of every
    call of the codec in this section. *)
Section Examples.

Import Sample.

(** C1 fails as stated. With the two spellings of e-acute as keys, the
    codec writes the key twice, [{"é":1,"é":1}]; reading these bytes back
    keeps one property, [{"é":1}]. *)
Lemma idempotence_fails_on_colliding_keys :
  conforming colliding = false
  /\ canonicalize colliding
     = Ok [123; 34; 195; 169; 34; 58; 49; 44; 34; 195; 169; 34; 58; 49; 125]
  /\ canonicalizeBytes
       [123; 34; 195; 169; 34; 58; 49; 44; 34; 195; 169; 34; 58; 49; 125]
     = Ok [123; 34; 195; 169; 34; 58; 49; 125].
Proof. repeat split. Qed.

(** The round trip also fails on a key with an unpaired surrogate: the
    encoder writes U+FFFD for it, which sorts after U+E000 when the bytes
    are read back. *)
Lemma idempotence_fails_on_unpaired_surrogate_key :
  canonicalize unpaired_key
  = Ok [123; 34; 239; 191; 189; 34; 58; 49; 44; 34; 238; 128; 128; 34; 58; 50; 125]
  /\ canonicalizeBytes
       [123; 34; 239; 191; 189; 34; 58; 49; 44; 34; 238; 128; 128; 34; 58; 50; 125]
     = Ok [123; 34; 238; 128; 128; 34; 58; 50; 44; 34; 239; 191; 189; 34; 58; 49; 125].
Proof. split; reflexivity. Qed.

Lemma canonicalize_idempotent_witness :
  conforming nested = true
  /\ exists canonical,
       canonicalize nested = Ok canonical
       /\ canonicalizeBytes canonical = Ok canonical.
Proof.
  split; [reflexivity|]. eexists. split; [vm_compute; reflexivity|].
  apply (canonicalize_idempotent nested); reflexivity.
Defined.

Lemma validateIntegrity_spec_witness :
  canonicalizeBytes [110; 117; 108; 108] = Ok [110; 117; 108; 108]
  /\ validateIntegrity [110; 117; 108; 108] = Ok true
  /\ canonicalizeBytes [123] = Throw SyntaxError
  /\ validateIntegrity [123] = Ok false.
Proof.
  split; [reflexivity|]. split.
  - apply (proj1 (proj2 (validateIntegrity_spec [110; 117; 108; 108]))).
    reflexivity.
  - split; [reflexivity|].
    apply (proj2 (proj2 (validateIntegrity_spec [123])) SyntaxError).
    reflexivity.
Defined.

(** C3 fails as stated: [undefined] is none of the six cases, and the
    codec returns the bytes of [null] for it. *)
Lemma undefined_is_not_rejected :
  in_value_model VUndefined = false
  /\ canonicalize VUndefined = Ok [110; 117; 108; 108]
  /\ forall type, canonicalize VUndefined <> Throw (UnsupportedTypeError type).
Proof. repeat split. discriminate. Qed.

Lemma unsupported_type_throws_witness :
  in_value_model VSymbol = false
  /\ VSymbol <> VUndefined
  /\ canonicalizeToString VSymbol = Throw (UnsupportedTypeError "symbol")
  /\ canonicalize VSymbol = Throw (UnsupportedTypeError "symbol").
Proof.
  split; [reflexivity|]. split; [discriminate|].
  apply (unsupported_type_throws VSymbol); [reflexivity|discriminate].
Defined.

Lemma object_keys_sorted_witness :
  normalize_NFC (js "z_key") = js "z_key"
  /\ normalize_NFC (js "a_key") = js "a_key"
  /\ normalize_NFC (js "A_key") = js "A_key"
  /\ normalize_NFC (js "m_key") = js "m_key"
  /\ canonicalizeToString
       (VObject [(js "z_key", VNull); (js "a_key", VBoolean true);
                 (js "A_key", VBoolean false); (js "m_key", VNull)])
     = Ok (js "{" ++ quoted "A_key" ++ js ":false,"
                  ++ quoted "a_key" ++ js ":true,"
                  ++ quoted "m_key" ++ js ":null,"
                  ++ quoted "z_key" ++ js ":null}")
  /\ canonicalizeToString (VObject [(e_then_acute, whole 1); (js "b", whole 2)])
     = Ok (js "{" ++ quoted "b" ++ js ":2," ++ [34; 233; 34] ++ js ":1}")
  /\ exists members,
       Forall2 (fun key member =>
                  exists rendered,
                    member = canonicalizeString key ++ js ":" ++ rendered)
               (sorted_keys [(e_then_acute, whole 1); (js "b", whole 2)]) members
       /\ js "{" ++ quoted "b" ++ js ":2," ++ [34; 233; 34] ++ js ":1}"
          = js "{" ++ join (js ",") members ++ js "}".
Proof.
  do 4 (split; [reflexivity|]). split.
  - apply (proj2 (proj2 (proj2 (object_keys_sorted [])))); reflexivity.
  - split; [reflexivity|].
    apply (proj1 (proj2 (proj2
             (object_keys_sorted [(e_then_acute, whole 1); (js "b", whole 2)])))).
    reflexivity.
Defined.

Lemma nonfinite_number_throws_witness :
  canonicalizeNumber (S754_finite false 1 0) = Ok (js "1")
  /\ Number_isFinite (S754_finite false 1 0) = true.
Proof.
  split; [reflexivity|].
  apply (proj2 (proj2 (proj2 (proj2 nonfinite_number_throws)))
           (S754_finite false 1 0) (js "1")).
  reflexivity.
Defined.

Lemma number_normalization_witness :
  integer_rule platform
  /\ integral 25%positive 2 = true
  /\ whole_part 25%positive 2 <= MAX_SAFE_INTEGER
  /\ canonicalizeToString (VNumber (S754_finite true 25 2)) = Ok (js "-100")
  /\ canonicalizeToString (VNumber (S754_finite false 7036874417766400 (-46)))
     = Ok (js "100").
Proof.
  split; [exact Sample_integer_rule|]. split; [reflexivity|].
  split; [vm_compute; discriminate|]. split.
  - apply (proj1 (proj2 number_normalization) Sample_integer_rule true 25%positive 2);
      [reflexivity|vm_compute; discriminate].
  - apply (proj2 (proj2 number_normalization) Sample_integer_rule).
Defined.

(** C8 fails as stated. The same two properties in the two orders: the
    key is written twice, with the value of whichever property comes
    first. *)
Lemma key_order_matters_for_colliding_keys :
  Permutation [(e_acute, whole 1); (e_then_acute, whole 2)]
              [(e_then_acute, whole 2); (e_acute, whole 1)]
  /\ canonicalize colliding
     = Ok [123; 34; 195; 169; 34; 58; 49; 44; 34; 195; 169; 34; 58; 49; 125]
  /\ canonicalize colliding_swapped
     = Ok [123; 34; 195; 169; 34; 58; 50; 44; 34; 195; 169; 34; 58; 50; 125]
  /\ canonicalize colliding <> canonicalize colliding_swapped.
Proof.
  split; [apply perm_swap|]. split; [reflexivity|]. split; [reflexivity|].
  discriminate.
Qed.

Lemma key_order_invariance_witness :
  Permutation [(js "b", whole 2); (e_then_acute, whole 1)]
              [(e_then_acute, whole 1); (js "b", whole 2)]
  /\ NoDup (map normalize_NFC (Object_keys [(js "b", whole 2); (e_then_acute, whole 1)]))
  /\ canonicalizeToString (VObject [(js "b", whole 2); (e_then_acute, whole 1)])
     = canonicalizeToString (VObject [(e_then_acute, whole 1); (js "b", whole 2)])
  /\ canonicalize (VObject [(js "b", whole 2); (e_then_acute, whole 1)])
     = canonicalize (VObject [(e_then_acute, whole 1); (js "b", whole 2)]).
Proof.
  assert (Hp : Permutation [(js "b", whole 2); (e_then_acute, whole 1)]
                           [(e_then_acute, whole 1); (js "b", whole 2)])
    by apply perm_swap.
  assert (Hn : NoDup (map normalize_NFC
                        (Object_keys [(js "b", whole 2); (e_then_acute, whole 1)])))
    by (apply distinct_NoDup; reflexivity).
  split; [exact Hp|]. split; [exact Hn|].
  exact (key_order_invariance _ _ Hp Hn).
Defined.

Lemma colliding_keys_first_value_witness :
  NoDup (Object_keys [(e_acute, whole 1); (e_then_acute, whole 2)])
  /\ length (sorted_keys [(e_acute, whole 1); (e_then_acute, whole 2)]) = 2%nat
  /\ e_acute <> e_then_acute
  /\ normalize_NFC e_acute = normalize_NFC e_then_acute
  /\ canonicalizeToString (whole 1) = Ok (js "1")
  /\ canonicalizeToString colliding
     = Ok (js "{" ++ canonicalizeString (normalize_NFC e_acute) ++ js ":" ++ js "1"
                  ++ js ","
                  ++ canonicalizeString (normalize_NFC e_acute) ++ js ":" ++ js "1"
                  ++ js "}").
Proof.
  assert (Hn : NoDup (Object_keys [(e_acute, whole 1); (e_then_acute, whole 2)]))
    by (apply distinct_NoDup; reflexivity).
  split; [exact Hn|]. split.
  - exact (proj1 (proj1 colliding_keys_first_value _ Hn)).
  - split; [discriminate|]. split; [reflexivity|]. split; [reflexivity|].
    apply (proj2 colliding_keys_first_value e_acute e_then_acute (whole 1) (whole 2));
      [discriminate|reflexivity|reflexivity].
Defined.

End Examples.

(** ** What the codec renders and how it fails *)

Lemma mapM_map {A B C : Type} (f : B -> result C) (g : A -> B) (l : list A) :
  mapM f (map g l) = mapM (fun x => f (g x)) l.
Proof.
  induction l as [|x l IH]; cbn [map mapM]; [reflexivity|]. now rewrite IH.
Qed.




Section Rendered.

Context {P : Platform}.

Lemma Get_cases {T : Type} (absent : T) (obj : list (jsstring * T)) (key : jsstring) :
  Get absent obj key = absent \/ exists k, In (k, Get absent obj key) obj.
Proof.
  induction obj as [|[k v] obj IH]; cbn [Get]; [now left|].
  destruct (jsstring_eqb k key).
  - right. exists k. now left.
  - destruct IH as [IH|[k' IH]]; [now left|]. right. exists k'. now right.
Qed.

(** The value the source reads for a sorted key is a value of the object,
    or [undefined]. *)
Lemma original_value_cases {T : Type} (absent : T) (obj : list (jsstring * T))
  (key : jsstring) :
  original_value absent obj key = absent
  \/ exists k, In (k, original_value absent obj key) obj.
Proof. unfold original_value. destruct (find_original_key obj key); apply Get_cases. Qed.








Lemma canonicalizeValue_nullify (v : value) :
  canonicalizeValue (nullify v) = canonicalizeValue v.
Proof.
  induction v as [ | | b | x | s | arr IH | obj IH | | | z] using value_induction;
    try reflexivity.
  - cbn [nullify canonicalizeValue]. unfold canonicalizeArray_with.
    rewrite mapM_map. f_equal. apply mapM_ext. intros v Hin.
    rewrite Forall_forall in IH. now apply IH.
  - cbn [nullify canonicalizeValue]. rewrite map_map. f_equal.
    apply map_ext_in. intros [k v] Hin. rewrite Forall_forall in IH.
    f_equal. apply (IH (k, v) Hin).
Qed.

(** [undefined] is written as [null] wherever it stands: putting [null]
    in the place of every [undefined] of a value, as a member of an array
    or as the value of a property, changes neither the outcome nor the
    text. A property whose value is [undefined] is kept and written with
    [null]. *)
Theorem undefined_is_null_at_every_depth (v : value) :
  canonicalizeToString (nullify v) = canonicalizeToString v
  /\ canonicalize (nullify v) = canonicalize v
  /\ forall k,
       canonicalizeToString (VObject [(k, VUndefined)])
       = Ok (js "{" ++ canonicalizeString (normalize_NFC k) ++ js ":null}").
Proof.
  split; [apply canonicalizeValue_nullify|]. split.
  - unfold canonicalize, canonicalizeToString. now rewrite canonicalizeValue_nullify.
  - intros k. unfold canonicalizeToString. rewrite canonicalizeValue_object.
    unfold canonicalizeObject, canonicalizeObject_with, sorted_keys, original_value,
      find_original_key, Object_keys.
    cbn [map fst find].
    change (Array_sort compareKeys [normalize_NFC k]) with [normalize_NFC k].
    cbn [mapM]. rewrite jsstring_eqb_refl. cbn [Get fst]. rewrite jsstring_eqb_refl.
    cbn [canonicalizeValue bind join]. now rewrite <- !app_assoc.
Qed.

Lemma Forall2_impl_In {A B : Type} (R R' : A -> B -> Prop) (l : list A)
  (ys : list B) :
  (forall x y, In x l -> R x y -> R' x y) -> Forall2 R l ys -> Forall2 R' l ys.
Proof.
  intros H F. induction F as [|x y l ys Hxy _ IH]; constructor.
  - apply H; [now left|exact Hxy].
  - apply IH. intros x' y' Hin. apply H. now right.
Qed.

(** When the keys of an object stay distinct under NFC, every property is
    written once, under the NFC form of its key and with the text of its
    own value: the members follow the sorted keys, there are as many of
    them as properties, and none is lost. *)
Theorem every_property_is_written_with_its_value
  (obj : list (jsstring * value)) (text : jsstring) :
  NoDup (map normalize_NFC (Object_keys obj)) ->
  canonicalizeToString (VObject obj) = Ok text ->
  exists members,
    text = js "{" ++ join (js ",") members ++ js "}"
    /\ length members = length obj
    /\ Forall2 (fun key member =>
                  exists k v rendered,
                    In (k, v) obj
                    /\ normalize_NFC k = key
                    /\ canonicalizeToString v = Ok rendered
                    /\ member = canonicalizeString key ++ js ":" ++ rendered)
               (sorted_keys obj) members
    /\ forall k v, In (k, v) obj ->
                   exists rendered,
                     canonicalizeToString v = Ok rendered
                     /\ In (canonicalizeString (normalize_NFC k) ++ js ":" ++ rendered)
                           members.
Proof.
  intros Hn Ht. unfold canonicalizeToString in Ht.
  rewrite canonicalizeValue_object in Ht.
  unfold canonicalizeObject, canonicalizeObject_with in Ht.
  match type of Ht with context [mapM ?f ?l] =>
    destruct (mapM f l) as [members|] eqn:Em end; [|discriminate].
  cbn [bind] in Ht. injection Ht as <-. exists members.
  apply mapM_Ok_Forall2 in Em.
  assert (Hkey : forall key, In key (sorted_keys obj) ->
                             exists k v, In (k, v) obj /\ normalize_NFC k = key).
  { intros key Hin.
    assert (Hk : In key (map normalize_NFC (Object_keys obj)))
      by (eapply Permutation_in; [apply sorted_keys_perm|exact Hin]).
    apply in_map_iff in Hk as (k & <- & Hk). unfold Object_keys in Hk.
    apply in_map_iff in Hk as ([k' v] & Ek & Hkv). cbn [fst] in Ek. subst k'.
    now exists k, v. }
  split; [reflexivity|]. split; [|split].
  - transitivity (length (sorted_keys obj));
      [symmetry; exact (Forall2_length Em)|].
    rewrite (Permutation_length (sorted_keys_perm obj)).
    unfold Object_keys. now rewrite !length_map.
  - refine (Forall2_impl_In _ _ _ _ _ Em). intros key member Hin Hm.
    cbn beta in Hm. destruct (Hkey key Hin) as (k & v & Hkv & <-).
    rewrite (original_value_In VUndefined obj k v Hn Hkv) in Hm.
    destruct (canonicalizeValue v) as [rendered|] eqn:Ev; [|discriminate].
    injection Hm as <-. now exists k, v, rendered.
  - intros k v Hkv.
    assert (Hin : In (normalize_NFC k) (sorted_keys obj)).
    { eapply Permutation_in; [symmetry; apply sorted_keys_perm|].
      apply in_map. unfold Object_keys. apply in_map_iff. now exists (k, v). }
    clear Hkey. induction Em as [|key member keys members Hm _ IH];
      [contradiction|].
    destruct Hin as [->|Hin].
    + cbn beta in Hm. rewrite (original_value_In VUndefined obj k v Hn Hkv) in Hm.
      unfold canonicalizeToString.
      destruct (canonicalizeValue v) as [rendered|]; [|discriminate].
      injection Hm as <-. exists rendered. split; [reflexivity|now left].
    + destruct (IH Hin) as (rendered & Hr & Hmem). exists rendered.
      split; [exact Hr|now right].
Qed.

(** The key that [find] looks up for a sorted key is always there: the
    sorted keys are NFC forms of keys of the object, so the callback of
    [find] holds for one of them, the result is never [undefined] and the
    codec never reads [obj[undefined]]. The key found has the sorted key
    as its NFC form. *)
Theorem original_key_is_always_found
  (obj : list (jsstring * value)) (key : jsstring) :
  In key (sorted_keys obj) ->
  exists originalKey,
    find_original_key obj key = Some originalKey
    /\ In originalKey (Object_keys obj)
    /\ normalize_NFC originalKey = key
    /\ original_value VUndefined obj key = Get VUndefined obj originalKey.
Proof.
  intros Hin. unfold original_value.
  destruct (find_original_key obj key) as [k|] eqn:F.
  - destruct (find_original_key_some obj key k F) as [Hk He].
    exists k. repeat split; assumption.
  - exfalso. apply (find_original_key_none obj key F).
    eapply Permutation_in; [apply sorted_keys_perm|exact Hin].
Qed.

(** An unpaired surrogate is kept in the canonical text and lost in the
    canonical bytes: for a string whose NFC form is one unpaired
    surrogate, the text holds that code unit between the quotes and the
    bytes are those of U+FFFD between the quotes, the same for every such
    string. *)
Theorem unpaired_surrogate_is_replaced_in_the_bytes (s : jsstring) (c : Z) :
  normalize_NFC s = [c] ->
  is_high_surrogate c || is_low_surrogate c = true ->
  canonicalizeToString (VString s) = Ok [34; c; 34]
  /\ canonicalize (VString s) = Ok [34; 0xEF; 0xBF; 0xBD; 34].
Proof.
  intros Hs Hc.
  assert (Ht : canonicalizeToString (VString s) = Ok [34; c; 34]).
  { unfold canonicalizeToString. cbn [canonicalizeValue].
    rewrite canonicalizeString_flat_map, Hs. cbn [flat_map].
    rewrite spec_escape_surrogate; [reflexivity|].
    unfold is_high_surrogate, is_low_surrogate in Hc. lia. }
  split; [exact Ht|]. unfold canonicalize. rewrite Ht. cbn [bind].
  unfold TextEncoder_encode. cbn [code_points].
  change (is_high_surrogate 34) with false. cbn [andb].
  change (is_low_surrogate 34) with false. rewrite andb_false_r.
  unfold scalar_or_replacement at 2. rewrite Hc. reflexivity.
Qed.

End Rendered.

(** ** What the parser can return *)

Lemma set_value_Forall {T : Type} (Q : T -> Prop) (obj : list (jsstring * T))
  (k : jsstring) (v : T) :
  Forall (fun kv => Q (snd kv)) obj -> Q v ->
  Forall (fun kv => Q (snd kv)) (set_value obj k v).
Proof.
  intros H Hv. induction H as [|[k' v'] obj Hx Hobj IH]; cbn [set_value];
    [constructor|].
  destruct (jsstring_eqb k' k); constructor; assumption.
Qed.

Lemma insert_index_Forall {T : Type} (Q : T -> Prop) (obj : list (jsstring * T))
  (i : Z) (k : jsstring) (v : T) :
  Forall (fun kv => Q (snd kv)) obj -> Q v ->
  Forall (fun kv => Q (snd kv)) (insert_index obj i k v).
Proof.
  intros H Hv. induction H as [|[k' v'] obj Hx Hobj IH]; cbn [insert_index].
  - now repeat constructor.
  - destruct (array_index k') as [j|]; [destruct (j <? i)|];
      repeat (constructor; try assumption).
Qed.

Lemma CreateDataProperty_Forall {T : Type} (Q : T -> Prop)
  (obj : list (jsstring * T)) (k : jsstring) (v : T) :
  Forall (fun kv => Q (snd kv)) obj -> Q v ->
  Forall (fun kv => Q (snd kv)) (CreateDataProperty obj k v).
Proof.
  intros H Hv. unfold CreateDataProperty. destruct (has_key obj k).
  - now apply set_value_Forall.
  - destruct (array_index k); [now apply insert_index_Forall|].
    apply Forall_app. split; [exact H|now repeat constructor].
Qed.

Lemma build_object_Forall {T : Type} (Q : T -> Prop)
  (members : list (jsstring * T)) :
  Forall (fun kv => Q (snd kv)) members ->
  Forall (fun kv => Q (snd kv)) (build_object members).
Proof.
  unfold build_object.
  assert (G : forall acc, Forall (fun kv => Q (snd kv)) acc ->
                          Forall (fun kv => Q (snd kv)) members ->
                          Forall (fun kv => Q (snd kv))
                            (fold_left (fun obj kv =>
                                          CreateDataProperty obj (fst kv) (snd kv))
                                       members acc)).
  { induction members as [|[k v] members IH]; intros acc Ha Hm; cbn [fold_left];
      [exact Ha|].
    inversion Hm as [|? ? Hv Hm']; subst. apply IH; [|exact Hm'].
    now apply CreateDataProperty_Forall. }
  intros H. apply G; [constructor|exact H].
Qed.

Section Parsed.

Context {P : Platform}.

Lemma json_value_object (obj : list (jsstring * value)) :
  Forall (fun kv => json_value (snd kv) = true) obj ->
  json_value (VObject obj) = true.
Proof.
  intros H. cbn [json_value]. apply forallb_forall. intros [k v] Hin.
  rewrite Forall_forall in H. apply (H (k, v) Hin).
Qed.

(** The parser builds values of the six cases of JSON only. *)
Lemma parse_json_value (fuel : nat) :
  (forall s v r, parse_value fuel s = Some (v, r) -> json_value v = true)
  /\ (forall s vs r, parse_elements fuel s = Some (vs, r) ->
                     forallb json_value vs = true)
  /\ (forall s ms r, parse_members fuel s = Some (ms, r) ->
                     Forall (fun kv => json_value (snd kv) = true) ms).
Proof.
  induction fuel as [|fuel (IHv & IHe & IHm)].
  - split; [|split]; intros s x r Hp; discriminate.
  - split; [|split].
    + intros s v r H. rewrite parse_value_unfold in H.
      destruct (skip_whitespace s) as [|c t]; [discriminate|].
      destruct (c =? 123).
      { destruct (expect 125 (skip_whitespace t)).
        - now injection H as <- _.
        - destruct (parse_members fuel t) as [[members r0]|] eqn:Em;
            [|discriminate].
          injection H as <- _. apply json_value_object.
          apply (build_object_Forall (fun v => json_value v = true)).
          apply (IHm _ _ _ Em). }
      destruct (c =? 91).
      { destruct (expect 93 (skip_whitespace t)).
        - now injection H as <- _.
        - destruct (parse_elements fuel t) as [[elements r0]|] eqn:Ee;
            [|discriminate].
          injection H as <- _. cbn [json_value]. apply (IHe _ _ _ Ee). }
      destruct (c =? QUOTE).
      { destruct (parse_chars t) as [[str r0]|]; [|discriminate].
        now injection H as <- _. }
      destruct (c =? 110).
      { destruct (strip_prefix (js "ull") t); [|discriminate].
        now injection H as <- _. }
      destruct (c =? 116).
      { destruct (strip_prefix (js "rue") t); [|discriminate].
        now injection H as <- _. }
      destruct (c =? 102).
      { destruct (strip_prefix (js "alse") t); [|discriminate].
        now injection H as <- _. }
      destruct (lex_number (c :: t)) as [[token r0]|]; [|discriminate].
      now injection H as <- _.
    + intros s vs r H. rewrite parse_elements_unfold in H.
      destruct (parse_value fuel s) as [[v r1]|] eqn:Ev; [|discriminate].
      apply IHv in Ev.
      destruct (skip_whitespace r1) as [|c r']; [discriminate|].
      destruct (c =? 44).
      * destruct (parse_elements fuel r') as [[vs' r2]|] eqn:Ee; [|discriminate].
        injection H as <- _. cbn [forallb]. rewrite Ev. apply (IHe _ _ _ Ee).
      * destruct (c =? 93); [|discriminate]. injection H as <- _.
        cbn [forallb]. now rewrite Ev.
    + intros s ms r H. rewrite parse_members_unfold_all in H.
      destruct (skip_whitespace s) as [|c t]; [discriminate|].
      destruct (c =? QUOTE); [|discriminate].
      destruct (parse_chars t) as [[k r0]|]; [|discriminate].
      destruct (skip_whitespace r0) as [|c' r']; [discriminate|].
      destruct (c' =? 58); [|discriminate].
      destruct (parse_value fuel r') as [[v r1]|] eqn:Ev; [|discriminate].
      apply IHv in Ev.
      destruct (skip_whitespace r1) as [|c'' r3]; [discriminate|].
      destruct (c'' =? 44).
      * destruct (parse_members fuel r3) as [[ms' r4]|] eqn:Em; [|discriminate].
        injection H as <- _. constructor; [exact Ev|apply (IHm _ _ _ Em)].
      * destruct (c'' =? 125); [|discriminate]. injection H as <- _.
        now repeat constructor.
Qed.

Lemma JSON_parse_json_value (str : jsstring) (v : value) :
  JSON_parse str = Ok v -> json_value v = true.
Proof.
  unfold JSON_parse. intros H.
  destruct (parse_value _ str) as [[v' rest]|] eqn:Ep; [|discriminate].
  destruct (skip_whitespace rest); [|discriminate]. injection H as <-.
  destruct (parse_json_value (2 * length str + 2)) as (Hv & _ & _).
  apply (Hv _ _ _ Ep).
Qed.



Lemma validateIntegrity_true (jsonBytes : bytes) :
  validateIntegrity jsonBytes = Ok true -> canonicalizeBytes jsonBytes = Ok jsonBytes.
Proof.
  unfold validateIntegrity.
  destruct (canonicalizeBytes jsonBytes) as [canonical|]; [|discriminate].
  destruct (Nat.eqb_spec (length jsonBytes) (length canonical)) as [Hl|Hl];
    cbn [negb]; [|discriminate].
  intros H. injection H as H. apply same_bytes_from_eq in H; congruence.
Qed.

(** The canonical text of a conforming value is well-formed UTF-16, does
    not start with a byte order mark and parses to a value of the same
    canonical text. *)
Lemma canonical_text_parses (v : value) (text : jsstring) :
  conforming v = true ->
  canonicalizeValue v = Ok text ->
  well_formed text = true
  /\ starts_with_BOM text = false
  /\ exists parsed, JSON_parse text = Ok parsed /\ canonicalizeValue parsed = Ok text.
Proof.
  intros Hc Ht.
  destruct (conforming_good v Hc text Ht) as (Hw & (c & t & -> & Hs) & Hread).
  destruct (Hread [] (2 * length (c :: t) + 2)%nat I (Nat.le_refl _))
    as (v' & Hp & Hv').
  rewrite app_nil_r in Hp. split; [exact Hw|]. split.
  - unfold value_start in Hs. cbn [starts_with_BOM].
    destruct (Z.eqb_spec c 65279); [lia|reflexivity].
  - exists v'. split; [|exact Hv']. unfold JSON_parse. now rewrite Hp.
Qed.

Lemma canonical_bytes_fixed (v : value) (canonical : bytes) :
  conforming v = true ->
  canonicalize v = Ok canonical ->
  canonicalizeBytes canonical = Ok canonical.
Proof.
  intros Hc H. unfold canonicalize, canonicalizeToString in H.
  destruct (canonicalizeValue v) as [text|] eqn:Ht; [|discriminate].
  cbn [bind] in H. injection H as <-.
  destruct (canonical_text_parses v text Hc Ht) as (Hw & Hb & v' & Hp & Hv').
  unfold canonicalizeBytes. rewrite TextDecoder_TextEncoder by assumption.
  rewrite Hp. cbn [bind]. unfold canonicalize, canonicalizeToString.
  now rewrite Hv'.
Qed.

(** [validateIntegrity] answers [true] only for bytes that the codec
    writes for a value of the six cases of JSON, the one the bytes parse
    to; and it answers [true] for the bytes the codec writes for any
    conforming value. *)
Theorem integrity_accepts_the_canonical_bytes :
  (forall jsonBytes,
     validateIntegrity jsonBytes = Ok true ->
     exists parsed,
       JSON_parse (TextDecoder_decode jsonBytes) = Ok parsed
       /\ json_value parsed = true
       /\ canonicalize parsed = Ok jsonBytes)
  /\ (forall v canonical,
        conforming v = true ->
        canonicalize v = Ok canonical ->
        validateIntegrity canonical = Ok true).
Proof.
  split.
  - intros jsonBytes H. apply validateIntegrity_true in H.
    unfold canonicalizeBytes in H.
    destruct (JSON_parse (TextDecoder_decode jsonBytes)) as [parsed|] eqn:Ep;
      [|discriminate].
    exists parsed. split; [reflexivity|].
    split; [exact (JSON_parse_json_value _ _ Ep)|exact H].
  - intros v canonical Hc H. unfold validateIntegrity.
    rewrite (canonical_bytes_fixed v canonical Hc H), Nat.eqb_refl. cbn [negb].
    f_equal. now apply same_bytes_from_eq.
Qed.

Lemma utf8_decode_BOM (rest : bytes) :
  utf8_decode (0xEF :: 0xBB :: 0xBF :: rest) 0 O 0x80 0xBF
  = 0xFEFF :: utf8_decode rest 0 O 0x80 0xBF.
Proof. reflexivity. Qed.

(** [canonicalizeBytes] drops a UTF-8 byte order mark in front of the
    JSON text: canonical bytes with the mark in front canonicalize to the
    canonical bytes without it, and [validateIntegrity] answers [false]
    for them. *)
Theorem byte_order_mark_is_dropped (v : value) (canonical : bytes) :
  conforming v = true ->
  canonicalize v = Ok canonical ->
  canonicalizeBytes (0xEF :: 0xBB :: 0xBF :: canonical) = Ok canonical
  /\ validateIntegrity (0xEF :: 0xBB :: 0xBF :: canonical) = Ok false.
Proof.
  intros Hc H.
  assert (E : canonicalizeBytes (0xEF :: 0xBB :: 0xBF :: canonical) = Ok canonical).
  { unfold canonicalize, canonicalizeToString in H.
    destruct (canonicalizeValue v) as [text|] eqn:Ht; [|discriminate].
    cbn [bind] in H. injection H as <-.
    destruct (canonical_text_parses v text Hc Ht) as (Hw & Hb & v' & Hp & Hv').
    destruct (code_points_well_formed text Hw) as [F Et].
    unfold canonicalizeBytes, TextDecoder_decode. rewrite utf8_decode_BOM.
    cbn [strip_BOM]. change (65279 =? 65279) with true. cbv iota.
    unfold TextEncoder_encode. rewrite utf8_decode_flat_map by exact F.
    rewrite Et, Hp. cbn [bind]. unfold canonicalize, canonicalizeToString.
    now rewrite Hv'. }
  split; [exact E|]. unfold validateIntegrity. rewrite E. cbn [length].
  destruct (Nat.eqb_spec (S (S (S (length canonical)))) (length canonical));
    [lia|reflexivity].
Qed.

(** The canonical text of a string reads back, through [JSON.parse], as
    the NFC form of the string, whatever the string holds: quotes, control
    characters, unpaired surrogates. So two strings have the same canonical
    text only when their NFC forms are the same. *)
Theorem canonical_string_reads_back (s : jsstring) :
  Forall (fun c => 0 <= c) (normalize_NFC s) ->
  JSON_parse (canonicalizeString s) = Ok (VString (normalize_NFC s))
  /\ forall s', Forall (fun c => 0 <= c) (normalize_NFC s') ->
                canonicalizeString s' = canonicalizeString s ->
                normalize_NFC s' = normalize_NFC s.
Proof.
  assert (R : forall s0, Forall (fun c => 0 <= c) (normalize_NFC s0) ->
                         JSON_parse (canonicalizeString s0)
                         = Ok (VString (normalize_NFC s0))).
  { intros s0 H. rewrite canonicalizeString_flat_map. unfold JSON_parse.
    match goal with |- context [parse_value ?f _] =>
      replace f with (S (f - 1)) by (cbn [app length]; lia) end.
    cbn [app]. rewrite parse_value_string, parse_chars_escape by exact H.
    reflexivity. }
  intros H. split; [now apply R|].
  intros s' H' E. pose proof (R s' H') as R'. rewrite E, (R s H) in R'.
  now injection R' as ->.
Qed.

(** A finite number is written as [toString] gives it, and negative zero
    as [0]: the two tests on whole numbers of the source change nothing
    in the text. *)
Theorem finite_number_text (num : number) :
  Number_isFinite num = true ->
  canonicalizeNumber num
  = Ok (if Object_is_negative_zero num then js "0" else Number_toString num).
Proof.
  intros Hf. destruct (Object_is_negative_zero num) eqn:Hz.
  - unfold canonicalizeNumber. now rewrite Hf, Hz.
  - now apply canonicalizeNumber_finite.
Qed.

(** The comparator of the sort is a total order on strings: swapping the
    arguments changes the sign, zero means the same string, and it is
    transitive. So the sorted keys do not depend on the sorting algorithm:
    any arrangement of the normalized keys that the comparator finds in
    order is the one the codec uses. *)
Theorem sorted_keys_do_not_depend_on_the_algorithm
  (obj : list (jsstring * value)) (keys : list jsstring) :
  Permutation keys (map normalize_NFC (Object_keys obj)) ->
  StronglySorted (fun a b => compareKeys a b <= 0) keys ->
  keys = sorted_keys obj
  /\ (forall a b, compareKeys b a = - compareKeys a b)
  /\ (forall a b, compareKeys a b = 0 <-> a = b)
  /\ (forall a b c, compareKeys a b <= 0 -> compareKeys b c <= 0 ->
                    compareKeys a c <= 0).
Proof.
  intros Hp Hs. split; [|split; [|split]].
  - apply (sorted_unique ordinal_le ordinal_le_antisym).
    + clear Hp. induction Hs as [|k l _ IH Hk]; constructor; [exact IH|].
      eapply Forall_impl; [|exact Hk]. intros b Hb. now apply compareKeys_le.
    + apply sorted_keys_sorted.
    + now rewrite sorted_keys_perm.
  - apply compareKeys_antisym.
  - apply compareKeys_eq.
  - apply compareKeys_trans.
Qed.

End Parsed.

(** ** The canonical text is one line *)

Lemma Forall_join (Q : Z -> Prop) (sep : jsstring) (parts : list jsstring) :
  Forall Q sep -> Forall (Forall Q) parts -> Forall Q (join sep parts).
Proof.
  intros Hs H. induction H as [|p parts Hp Hparts IH]; [constructor|].
  cbn [join]. destruct parts as [|q parts]; [exact Hp|].
  apply Forall_app. split; [exact Hp|]. apply Forall_app. now split.
Qed.

Lemma lower_hex_printable (d : Z) : 32 <= lower_hex (d mod 16).
Proof.
  assert (H : 0 <= d mod 16 < 16) by (apply Z.mod_pos_bound; lia).
  rewrite <- lower_hex_digit by exact H. unfold hex_digit.
  destruct (d mod 16 <? 10); lia.
Qed.

Lemma spec_escape_printable (c : Z) : Forall (fun x => 32 <= x) (spec_escape c).
Proof.
  unfold spec_escape.
  repeat (match goal with |- context [if ?a =? ?b then _ else _] =>
            destruct (a =? b); [repeat constructor; simpl; lia|] end).
  destruct (Z.ltb_spec c 32) as [H|H]; [|now repeat constructor].
  apply Forall_app. split; [repeat constructor; simpl; lia|].
  unfold four_hex_digits. repeat constructor; apply lower_hex_printable.
Qed.

Lemma utf8_encode_printable (cp : Z) :
  32 <= cp -> Forall (fun x => 32 <= x) (utf8_encode_code_point cp).
Proof.
  intros H. unfold utf8_encode_code_point.
  repeat (match goal with |- context [if ?a <? ?b then _ else _] =>
            destruct (a <? b) end);
    repeat constructor; try exact H; by_division.
Qed.

Lemma code_points_printable (s : jsstring) :
  Forall (fun x => 32 <= x) s -> Forall (fun x => 32 <= x) (code_points s).
Proof.
  induction s as [| c | c1 c2 t IH1 IH2] using pairwise_ind; intros H.
  - constructor.
  - inversion H as [|? ? Hc _]; subst. cbn [code_points].
    unfold scalar_or_replacement.
    destruct (is_high_surrogate c || is_low_surrogate c); repeat constructor; lia.
  - inversion H as [|? ? Hc1 H']; subst. inversion H' as [|? ? Hc2 Ht]; subst.
    cbn [code_points].
    destruct (surrogate_cases c1) as [[Hh Hb]|[Hh _]]; rewrite Hh; cbn [andb].
    + destruct (low_surrogate_cases c2) as [[Hl Hb2]|[Hl _]]; rewrite Hl.
      * constructor; [unfold pair_code_point; lia|now apply IH1].
      * constructor; [|now apply IH2]. unfold scalar_or_replacement.
        destruct (_ || _); lia.
    + constructor; [|now apply IH2]. unfold scalar_or_replacement.
      destruct (_ || _); lia.
Qed.

Lemma TextEncoder_printable (text : jsstring) :
  Forall (fun x => 32 <= x) text ->
  Forall (fun x => 32 <= x) (TextEncoder_encode text).
Proof.
  intros H. apply code_points_printable in H. unfold TextEncoder_encode.
  induction H as [|cp cps Hc _ IH]; cbn [flat_map]; [constructor|].
  apply Forall_app. split; [now apply utf8_encode_printable|exact IH].
Qed.

Section OneLine.

Context {P : Platform}.

Lemma canonicalizeString_printable (str : jsstring) :
  Forall (fun x => 32 <= x) (canonicalizeString str).
Proof.
  rewrite canonicalizeString_flat_map. apply Forall_app.
  split; [repeat constructor; unfold QUOTE; lia|]. apply Forall_app.
  split; [|repeat constructor; unfold QUOTE; lia].
  induction (normalize_NFC str) as [|c s IH]; cbn [flat_map]; [constructor|].
  apply Forall_app. split; [apply spec_escape_printable|exact IH].
Qed.

Lemma canonicalizeValue_printable (v : value) :
  printable_numbers ->
  forall text, canonicalizeValue v = Ok text -> Forall (fun x => 32 <= x) text.
Proof.
  intros Hn.
  induction v as [ | | b | x | s | arr IH | obj IH | | | z] using value_induction;
    intros text Ht; try discriminate.
  - injection Ht as <-. repeat constructor; simpl; lia.
  - injection Ht as <-. repeat constructor; simpl; lia.
  - injection Ht as <-. destruct b; repeat constructor; simpl; lia.
  - cbn [canonicalizeValue] in Ht.
    assert (Hf : Number_isFinite x = true).
    { unfold canonicalizeNumber in Ht.
      destruct (Number_isFinite x); [reflexivity|discriminate]. }
    destruct (Object_is_negative_zero x) eqn:Hz.
    + unfold canonicalizeNumber in Ht. rewrite Hf, Hz in Ht.
      injection Ht as <-. repeat constructor; simpl; lia.
    + rewrite (canonicalizeNumber_finite x Hf Hz) in Ht. injection Ht as <-.
      now apply Hn.
  - injection Ht as <-. apply canonicalizeString_printable.
  - cbn [canonicalizeValue] in Ht. unfold canonicalizeArray_with in Ht.
    destruct (mapM canonicalizeValue arr) as [texts|] eqn:Em; [|discriminate].
    injection Ht as <-. apply (Forall_app _ [91]).
    split; [repeat constructor; lia|]. apply Forall_app.
    split; [|repeat constructor; simpl; lia].
    apply Forall_join; [repeat constructor; simpl; lia|].
    apply mapM_Ok_Forall2 in Em. clear -Em IH.
    induction Em as [|v t arr texts Hv _ IHe]; [constructor|].
    inversion IH as [|? ? Hq IH']; subst. constructor; [now apply Hq|now apply IHe].
  - rewrite canonicalizeValue_object in Ht.
    unfold canonicalizeObject, canonicalizeObject_with in Ht.
    match type of Ht with context [mapM ?f ?l] =>
      destruct (mapM f l) as [members|] eqn:Em end; [|discriminate].
    injection Ht as <-. apply (Forall_app _ [123]).
    split; [repeat constructor; lia|]. apply Forall_app.
    split; [|repeat constructor; simpl; lia].
    apply Forall_join; [repeat constructor; simpl; lia|].
    apply mapM_Ok_Forall2 in Em. rewrite Forall_forall in IH.
    induction Em as [|key m keys members Hm _ IHe]; [constructor|].
    constructor; [|exact IHe]. cbn beta in Hm.
    destruct (canonicalizeValue (original_value VUndefined obj key)) as [t|] eqn:Ev;
      [|discriminate].
    injection Hm as <-. apply Forall_app.
    split; [apply canonicalizeString_printable|]. constructor; [lia|].
    destruct (original_value_cases VUndefined obj key) as [E|[k Hin]].
    + rewrite E in Ev. injection Ev as <-. repeat constructor; simpl; lia.
    + apply (IH _ Hin t Ev).
Qed.

(** When the text the platform gives a finite number has no control
    character, the canonical text of a value has none either: no unit
    below U+0020, so no tab and no line break, in or out of a string; and
    the canonical bytes hold no byte below 0x20. *)
Theorem canonical_text_is_one_line (v : value) (text : jsstring) :
  printable_numbers ->
  canonicalizeToString v = Ok text ->
  Forall (fun c => 32 <= c) text
  /\ exists canonical,
       canonicalize v = Ok canonical /\ Forall (fun b => 32 <= b) canonical.
Proof.
  intros Hn Ht. pose proof (canonicalizeValue_printable v Hn text Ht) as Hp.
  split; [exact Hp|]. exists (TextEncoder_encode text).
  unfold canonicalize. rewrite Ht. split; [reflexivity|].
  now apply TextEncoder_printable.
Qed.

(** [validateIntegrity] answers [false] for bytes that hold a byte below
    0x20: bytes with a tab or a line break, as in indented JSON, are never
    canonical. *)
Theorem integrity_rejects_control_bytes (jsonBytes : bytes) (b : Z) :
  printable_numbers ->
  In b jsonBytes -> b < 32 ->
  validateIntegrity jsonBytes = Ok false.
Proof.
  intros Hn Hin Hb. destruct (validateIntegrity jsonBytes) as [[|]|e] eqn:Ev.
  - exfalso. apply validateIntegrity_true in Ev. unfold canonicalizeBytes in Ev.
    destruct (JSON_parse (TextDecoder_decode jsonBytes)) as [parsed|];
      [|discriminate].
    cbn [bind] in Ev. unfold canonicalize in Ev.
    destruct (canonicalizeToString parsed) as [text|] eqn:Et; [|discriminate].
    injection Ev as Ev.
    pose proof (TextEncoder_printable text
                  (canonicalizeValue_printable parsed Hn text Et)) as Hp.
    rewrite Ev, Forall_forall in Hp. specialize (Hp b Hin). lia.
  - reflexivity.
  - unfold validateIntegrity in Ev.
    destruct (canonicalizeBytes jsonBytes); [|discriminate].
    destruct (negb _); discriminate.
Qed.

End OneLine.

(** ** The sample platform writes numbers without control characters *)

Lemma uint_digits_printable (d : Decimal.uint) :
  Forall (fun c => 32 <= c) (uint_digits d).
Proof. induction d; cbn [uint_digits]; constructor; (lia || assumption). Qed.

Lemma decimal_digits_printable (z : Z) : Forall (fun c => 32 <= c) (decimal_digits z).
Proof.
  destruct z as [|p|p]; cbn [decimal_digits].
  - repeat constructor; lia.
  - apply uint_digits_printable.
  - constructor; [lia|apply uint_digits_printable].
Qed.

Lemma fraction_digits_printable (fuel : nat) (r d : Z) :
  0 <= r -> 0 <= d -> Forall (fun c => 32 <= c) (Sample.fraction_digits fuel r d).
Proof.
  revert r. induction fuel as [|fuel IH]; intros r Hr Hd;
    cbn [Sample.fraction_digits]; [constructor|].
  destruct (r =? 0); [constructor|].
  destruct (Z.eq_dec d 0) as [->|Hne].
  - rewrite Z.div_0_r, Z.mod_0_r. constructor; [lia|]. apply IH; lia.
  - constructor.
    + assert (0 <= r * 10 / d) by (apply Z.div_pos; lia). lia.
    + apply IH; [|exact Hd]. apply Z.mod_pos_bound. lia.
Qed.

Lemma Sample_printable_numbers : @printable_numbers Sample.platform.
Proof.
  intros x Hf. destruct x as [s|s| |s m e]; try discriminate.
  - repeat constructor; simpl; lia.
  - cbn [Number_toString Sample.platform Sample.toString].
    destruct (integral m e); [apply decimal_digits_printable|].
    apply Forall_app. split; [destruct s; repeat constructor; lia|].
    apply Forall_app. split; [apply decimal_digits_printable|].
    constructor; [lia|]. apply fraction_digits_printable.
    + destruct (Z.eq_dec (2 ^ (- e)) 0) as [E|E].
      * rewrite E, Z.mod_0_r. lia.
      * apply Z.mod_pos_bound. pose proof (Z.pow_nonneg 2 (- e)). lia.
    + apply Z.pow_nonneg. lia.
Qed.

(** ** More examples *)

Section MoreExamples.

Import Sample.



Lemma canonical_string_reads_back_witness :
  Forall (fun c => 0 <= c) (normalize_NFC [0x65; 0x301; 34; 10; 0xD800])
  /\ JSON_parse (canonicalizeString [0x65; 0x301; 34; 10; 0xD800])
     = Ok (VString [0xE9; 34; 10; 0xD800]).
Proof.
  assert (H : Forall (fun c => 0 <= c) (normalize_NFC [0x65; 0x301; 34; 10; 0xD800]))
    by (simpl; repeat constructor; lia).
  split; [exact H|].
  exact (proj1 (canonical_string_reads_back [0x65; 0x301; 34; 10; 0xD800] H)).
Defined.

Lemma integrity_accepts_the_canonical_bytes_witness :
  conforming nested = true
  /\ (exists canonical,
        canonicalize nested = Ok canonical
        /\ validateIntegrity canonical = Ok true)
  /\ validateIntegrity [91; 49; 93] = Ok true
  /\ exists parsed,
       JSON_parse (TextDecoder_decode [91; 49; 93]) = Ok parsed
       /\ json_value parsed = true
       /\ canonicalize parsed = Ok [91; 49; 93].
Proof.
  split; [reflexivity|]. split.
  - eexists. split; [vm_compute; reflexivity|].
    apply (proj2 integrity_accepts_the_canonical_bytes nested); reflexivity.
  - split; [reflexivity|].
    apply (proj1 integrity_accepts_the_canonical_bytes [91; 49; 93]). reflexivity.
Defined.

Lemma byte_order_mark_is_dropped_witness :
  conforming nested = true
  /\ exists canonical,
       canonicalize nested = Ok canonical
       /\ canonicalizeBytes (0xEF :: 0xBB :: 0xBF :: canonical) = Ok canonical
       /\ validateIntegrity (0xEF :: 0xBB :: 0xBF :: canonical) = Ok false.
Proof.
  split; [reflexivity|]. eexists. split; [vm_compute; reflexivity|].
  apply (byte_order_mark_is_dropped nested); reflexivity.
Defined.

Lemma finite_number_text_witness :
  Number_isFinite (S754_finite false 3 (-1)) = true
  /\ canonicalizeNumber (S754_finite false 3 (-1)) = Ok (js "1.5")
  /\ Number_isFinite (S754_zero true) = true
  /\ canonicalizeNumber (S754_zero true) = Ok (js "0").
Proof.
  split; [reflexivity|]. split.
  - exact (finite_number_text (S754_finite false 3 (-1)) eq_refl).
  - split; [reflexivity|]. exact (finite_number_text (S754_zero true) eq_refl).
Defined.

Lemma sorted_keys_do_not_depend_on_the_algorithm_witness :
  Permutation [js "b"; e_acute]
              (map normalize_NFC (Object_keys [(e_then_acute, whole 1); (js "b", whole 2)]))
  /\ StronglySorted (fun a b => compareKeys a b <= 0) [js "b"; e_acute]
  /\ [js "b"; e_acute] = sorted_keys [(e_then_acute, whole 1); (js "b", whole 2)].
Proof.
  assert (Hp : Permutation [js "b"; e_acute]
                 (map normalize_NFC
                    (Object_keys [(e_then_acute, whole 1); (js "b", whole 2)])))
    by apply perm_swap.
  assert (Hs : StronglySorted (fun a b => compareKeys a b <= 0) [js "b"; e_acute]).
  { repeat constructor. vm_compute. discriminate. }
  split; [exact Hp|]. split; [exact Hs|].
  exact (proj1 (sorted_keys_do_not_depend_on_the_algorithm _ _ Hp Hs)).
Defined.


Lemma canonical_text_is_one_line_witness :
  printable_numbers
  /\ exists text, canonicalizeToString nested = Ok text
                  /\ Forall (fun c => 32 <= c) text.
Proof.
  split; [exact Sample_printable_numbers|].
  eexists. split; [vm_compute; reflexivity|].
  refine (proj1 (canonical_text_is_one_line nested _ Sample_printable_numbers _)).
  reflexivity.
Defined.

Lemma integrity_rejects_control_bytes_witness :
  printable_numbers
  /\ In 10 [91; 10; 49; 93]
  /\ 10 < 32
  /\ validateIntegrity [91; 10; 49; 93] = Ok false.
Proof.
  assert (Hin : In 10 [91; 10; 49; 93]) by (right; left; reflexivity).
  assert (Hlt : 10 < 32) by lia.
  split; [exact Sample_printable_numbers|]. split; [exact Hin|].
  split; [exact Hlt|].
  exact (integrity_rejects_control_bytes [91; 10; 49; 93] 10
           Sample_printable_numbers Hin Hlt).
Defined.

Lemma every_property_is_written_with_its_value_witness :
  NoDup (map normalize_NFC (Object_keys [(js "b", whole 2); (e_then_acute, VUndefined)]))
  /\ canonicalizeToString (VObject [(js "b", whole 2); (e_then_acute, VUndefined)])
     = Ok (js "{" ++ quoted "b" ++ js ":2," ++ [34; 233; 34] ++ js ":null}")
  /\ exists members,
       js "{" ++ quoted "b" ++ js ":2," ++ [34; 233; 34] ++ js ":null}"
       = js "{" ++ join (js ",") members ++ js "}"
       /\ length members = 2%nat.
Proof.
  assert (Hn : NoDup (map normalize_NFC
                        (Object_keys [(js "b", whole 2); (e_then_acute, VUndefined)])))
    by (apply distinct_NoDup; reflexivity).
  split; [exact Hn|]. split; [reflexivity|].
  destruct (every_property_is_written_with_its_value
              [(js "b", whole 2); (e_then_acute, VUndefined)]
              (js "{" ++ quoted "b" ++ js ":2," ++ [34; 233; 34] ++ js ":null}")
              Hn eq_refl) as (members & Ht & Hl & _).
  exists members. split; [exact Ht|exact Hl].
Defined.

Lemma original_key_is_always_found_witness :
  In e_acute (sorted_keys [(js "b", whole 2); (e_then_acute, whole 1)])
  /\ exists originalKey,
       find_original_key [(js "b", whole 2); (e_then_acute, whole 1)] e_acute
       = Some originalKey
       /\ In originalKey (Object_keys [(js "b", whole 2); (e_then_acute, whole 1)])
       /\ normalize_NFC originalKey = e_acute
       /\ original_value VUndefined [(js "b", whole 2); (e_then_acute, whole 1)] e_acute
          = Get VUndefined [(js "b", whole 2); (e_then_acute, whole 1)] originalKey.
Proof.
  assert (Hin : In e_acute (sorted_keys [(js "b", whole 2); (e_then_acute, whole 1)]))
    by (right; left; reflexivity).
  split; [exact Hin|].
  exact (original_key_is_always_found _ _ Hin).
Defined.

Lemma unpaired_surrogate_is_replaced_in_the_bytes_witness :
  normalize_NFC [0xDC00] = [0xDC00]
  /\ is_high_surrogate 0xDC00 || is_low_surrogate 0xDC00 = true
  /\ canonicalizeToString (VString [0xDC00]) = Ok [34; 0xDC00; 34]
  /\ canonicalize (VString [0xDC00]) = Ok [34; 0xEF; 0xBF; 0xBD; 34]
  /\ canonicalize (VString [0xFFFD]) = Ok [34; 0xEF; 0xBF; 0xBD; 34].
Proof.
  assert (Hs : normalize_NFC [0xDC00] = [0xDC00]) by reflexivity.
  assert (Hc : is_high_surrogate 0xDC00 || is_low_surrogate 0xDC00 = true)
    by reflexivity.
  split; [exact Hs|]. split; [exact Hc|].
  destruct (unpaired_surrogate_is_replaced_in_the_bytes [0xDC00] 0xDC00 Hs Hc)
    as [Ht Hb].
  split; [exact Ht|]. split; [exact Hb|reflexivity].
Defined.

End MoreExamples.
